(** * Matrix Sudoku: the puzzle engine (js/sudoku-engine.js)

    A shallow embedding of [SudokuEngine] and the properties of its
    generation, uniqueness check, validation, solving and hint code.

    Conventions of the model.
    - A grid is the JavaScript array of arrays, a [list (list Z)]; cell values
      are numbers compared with [===], here [Z.eqb]. All engine code indexes
      rows and columns below 9, and every statement is about well-formed
      (9 rows of 9 cells) grids, on which no access is out of range.
    - In-place mutation of a grid is explicit state passing: a function that
      writes to its grid argument returns the grid it leaves behind.
    - The recursive searches take a fuel argument and return [None] when it
      runs out; the entry points pass 82 (one call per cell plus the final
      one), and the theorems show that this is always enough.
    - [Math.floor(Math.random() * n)] is a draw from an arbitrary stream of
      naturals reduced below [n]; theorems quantify over every stream. *)

From Stdlib Require Import ZArith Lia List Bool String.
From stdpp Require Import base list numbers strings.

Local Open Scope Z_scope.
Local Open Scope nat_scope.

(* ===================================================================== *)
(** ** Grids *)
(* ===================================================================== *)

Abbreviation Grid := (list (list Z)).

(** [grid[row][col]] *)
Definition get (g : Grid) (row col : nat) : Z := nth col (nth row g []) 0%Z.

(** [grid[row][col] = v] *)
Definition set (g : Grid) (row col : nat) (v : Z) : Grid :=
  <[row := <[col := v]> (nth row g [])]> g.

(** [Array(9).fill().map(() => Array(9).fill(0))] *)
Definition emptyGrid : Grid := replicate 9 (replicate 9 0%Z).

(** [grid.map(row => [...row])]: a deep copy is the same value. *)
Definition copyGrid (g : Grid) : Grid := map (fun row => row) g.

Definition wf (g : Grid) : Prop :=
  length g = 9 ∧ Forall (fun row => length row = 9) g.

Definition wfb (g : Grid) : bool :=
  (length g =? 9) && forallb (fun row => length row =? 9) g.

(** The 81 coordinates in row-major order: the order of every
    [for row / for col] double loop of the engine. *)
Definition cells : list (nat * nat) :=
  flat_map (fun row => map (pair row) (seq 0 9)) (seq 0 9).

Definition digits : list Z := [1; 2; 3; 4; 5; 6; 7; 8; 9]%Z.

(* ===================================================================== *)
(** ** The random source *)
(* ===================================================================== *)

Definition Rand := nat -> nat.

(** [Math.floor(Math.random() * n)] *)
Definition randomBelow (n : nat) (rnd : Rand) : nat * Rand :=
  (rnd 0 mod n, fun i => rnd (S i)).

(** [[a[i], a[j]] = [a[j], a[i]]] *)
Definition swap {A} (l : list A) (i j : nat) : list A :=
  match l !! i, l !! j with
  | Some x, Some y => <[j := x]> (<[i := y]> l)
  | _, _ => l
  end.

(** The loop of [shuffleArray]: [for (i = ...; i > 0; i--)]. *)
Fixpoint shuffleFrom {A} (i : nat) (l : list A) (rnd : Rand) : list A * Rand :=
  match i with
  | 0 => (l, rnd)
  | S i' =>
      let '(j, rnd') := randomBelow (i + 1) rnd in
      shuffleFrom i' (swap l i j) rnd'
  end.

Definition shuffleArray {A} (array : list A) (rnd : Rand) : list A * Rand :=
  shuffleFrom (length array - 1) array rnd.

(* ===================================================================== *)
(** ** isValidMove, findEmptyCell *)
(* ===================================================================== *)

Definition isValidMove (g : Grid) (row col : nat) (num : Z) : bool :=
  if existsb (fun x => Z.eqb (get g row x) num) (seq 0 9) then false
  else if existsb (fun x => Z.eqb (get g x col) num) (seq 0 9) then false
  else
    let startRow := row - row mod 3 in
    let startCol := col - col mod 3 in
    if existsb (fun i =>
          existsb (fun j => Z.eqb (get g (i + startRow) (j + startCol)) num)
                  (seq 0 3))
         (seq 0 3)
    then false
    else true.

Definition isEmptyAt (g : Grid) (p : nat * nat) : bool :=
  Z.eqb (get g p.1 p.2) 0.

Definition findEmptyCell (g : Grid) : option (nat * nat) :=
  find (isEmptyAt g) cells.

(* ===================================================================== *)
(** ** The three backtracking searches *)
(* ===================================================================== *)

(** *** solvePuzzle: shuffled candidates *)

(** The [for (let num of numbers)] loop; [rec] is the recursive call. *)
Fixpoint tryShuffled (rec : Grid -> Rand -> option (bool * Grid * Rand))
    (row col : nat) (numbers : list Z) (g : Grid) (rnd : Rand)
    : option (bool * Grid * Rand) :=
  match numbers with
  | [] => Some (false, g, rnd)
  | num :: rest =>
      if isValidMove g row col num then
        match rec (set g row col num) rnd with
        | None => None
        | Some (true, g', rnd') => Some (true, g', rnd')
        | Some (false, g', rnd') =>
            tryShuffled rec row col rest (set g' row col 0) rnd'
        end
      else tryShuffled rec row col rest g rnd
  end.

Fixpoint solvePuzzle (fuel : nat) (g : Grid) (rnd : Rand)
    : option (bool * Grid * Rand) :=
  match fuel with
  | 0 => None
  | S fuel' =>
      match findEmptyCell g with
      | None => Some (true, g, rnd)
      | Some (row, col) =>
          let '(numbers, rnd1) := shuffleArray digits rnd in
          tryShuffled (solvePuzzle fuel') row col numbers g rnd1
      end
  end.

(** *** solvePuzzleWithSteps: ascending candidates, recorded steps *)

Inductive StepType := place | backtrack.

Record Step := mkStep
  { step_row : nat; step_col : nat; step_value : Z; step_type : StepType }.

Fixpoint tryAscending (rec : Grid -> list Step -> option (bool * Grid * list Step))
    (row col : nat) (nums : list Z) (g : Grid) (steps : list Step)
    : option (bool * Grid * list Step) :=
  match nums with
  | [] => Some (false, g, steps)
  | num :: rest =>
      if isValidMove g row col num then
        match rec (set g row col num) (steps ++ [mkStep row col num place]) with
        | None => None
        | Some (true, g', steps') => Some (true, g', steps')
        | Some (false, g', steps') =>
            tryAscending rec row col rest (set g' row col 0)
                         (steps' ++ [mkStep row col 0 backtrack])
        end
      else tryAscending rec row col rest g steps
  end.

Fixpoint solvePuzzleWithSteps (fuel : nat) (g : Grid) (steps : list Step)
    : option (bool * Grid * list Step) :=
  match fuel with
  | 0 => None
  | S fuel' =>
      match findEmptyCell g with
      | None => Some (true, g, steps)
      | Some (row, col) =>
          tryAscending (solvePuzzleWithSteps fuel') row col digits g steps
      end
  end.

(** *** findAllSolutions: ascending candidates, bounded enumeration *)

(** The result is the grid left behind, the [solutions] array and the
    returned flag (true: keep searching). *)
Fixpoint tryEnumerate (rec : Grid -> list Grid -> option (Grid * list Grid * bool))
    (row col : nat) (nums : list Z) (g : Grid) (solutions : list Grid)
    : option (Grid * list Grid * bool) :=
  match nums with
  | [] => Some (g, solutions, true)
  | num :: rest =>
      if isValidMove g row col num then
        match rec (set g row col num) solutions with
        | None => None
        | Some (g', solutions', false) => Some (set g' row col 0, solutions', false)
        | Some (g', solutions', true) =>
            tryEnumerate rec row col rest (set g' row col 0) solutions'
        end
      else tryEnumerate rec row col rest g solutions
  end.

Fixpoint findAllSolutions (fuel : nat) (g : Grid) (solutions : list Grid)
    (maxSolutions : nat) : option (Grid * list Grid * bool) :=
  match fuel with
  | 0 => None
  | S fuel' =>
      if maxSolutions <=? length solutions then Some (g, solutions, false)
      else
        match findEmptyCell g with
        | None =>
            let solutions' := solutions ++ [copyGrid g] in
            Some (g, solutions', length solutions' <? maxSolutions)
        | Some (row, col) =>
            tryEnumerate (fun g' sols => findAllSolutions fuel' g' sols maxSolutions)
                         row col digits g solutions
        end
  end.

(** One call for each of the 81 cells and one for the full grid. *)
Definition searchFuel : nat := 82.

(** [hasUniqueSolution], as a function of [this.grid]. *)
Definition hasUniqueSolution (g : Grid) : option bool :=
  match findAllSolutions searchFuel (copyGrid g) [] 2 with
  | None => None
  | Some (_, solutions, _) => Some (length solutions =? 1)
  end.

(* ===================================================================== *)
(** ** Validation, completeness, hints *)
(* ===================================================================== *)

Record CellError := mkCellError
  { err_row : nat; err_col : nat; err_value : Z }.

Record Validation := mkValidation
  { isValid : bool; errors : list CellError }.

(** The body of the double loop of [validatePuzzle] at one cell. *)
Definition validateCell (acc : Grid * list CellError) (p : nat * nat)
    : Grid * list CellError :=
  let '(g, errs) := acc in
  let '(row, col) := p in
  if negb (Z.eqb (get g row col) 0) then
    let num := get g row col in
    let g1 := set g row col 0 in
    let errs' :=
      if negb (isValidMove g1 row col num)
      then errs ++ [mkCellError row col num] else errs in
    (set g1 row col num, errs')
  else (g, errs).

(** The grid left behind and the returned object. *)
Definition validatePuzzle (g : Grid) : Grid * Validation :=
  let '(g', errs) := foldl validateCell (g, []) cells in
  (g', mkValidation (length errs =? 0) errs).

Definition isComplete (g : Grid) : Grid * bool :=
  if existsb (isEmptyAt g) cells then (g, false)
  else let '(g', v) := validatePuzzle g in (g', isValid v).

Definition getPossibleValues (g : Grid) (row col : nat) : list Z :=
  List.filter (fun num => isValidMove g row col num) digits.

Record Hint := mkHint
  { hint_row : nat; hint_col : nat; hint_value : Z }.

(** The [for (let cell of emptyCells)] loop of [getHint], with its [break]. *)
Fixpoint scanCells (g : Grid) (emptyCells : list (nat * nat))
    (bestCell : option (nat * nat)) (minPossibilities : nat)
    : option (nat * nat) * nat :=
  match emptyCells with
  | [] => (bestCell, minPossibilities)
  | cell :: rest =>
      let possibilities := getPossibleValues g cell.1 cell.2 in
      if length possibilities <? minPossibilities then
        if length possibilities =? 1 then (Some cell, length possibilities)
        else scanCells g rest (Some cell) (length possibilities)
      else scanCells g rest bestCell minPossibilities
  end.

(** [getHint(grid)]; [sol] is [this.solution]. *)
Definition getHint (sol : Grid) (g : Grid) : option Hint :=
  let emptyCells := List.filter (isEmptyAt g) cells in
  if length emptyCells =? 0 then None
  else
    match fst (scanCells g emptyCells None 10) with
    | Some (row, col) => Some (mkHint row col (get sol row col))
    | None => None
    end.

(* ===================================================================== *)
(** ** The engine object *)
(* ===================================================================== *)

Record Engine := mkEngine
  { grid : Grid; solution : Grid; initialGrid : Grid; difficulty : string }.

(** [constructor()] *)
Definition newEngine : Engine := mkEngine emptyGrid emptyGrid emptyGrid "medium".

(** What [this.difficultySettings[tag]] evaluates to: one of the four own
    properties, a property inherited from [Object.prototype] (an object or
    function without a [clues] property), or [undefined]. *)
Inductive Setting := OwnSetting (clues : nat) | InheritedProperty | UndefinedSetting.

Definition objectPrototypeNames : list string :=
  ["constructor"; "hasOwnProperty"; "isPrototypeOf"; "propertyIsEnumerable";
   "toLocaleString"; "toString"; "valueOf"; "__proto__";
   "__defineGetter__"; "__defineSetter__"; "__lookupGetter__";
   "__lookupSetter__"]%string.

Definition difficultySettings (tag : string) : Setting :=
  if String.eqb tag "easy" then OwnSetting 45
  else if String.eqb tag "medium" then OwnSetting 35
  else if String.eqb tag "hard" then OwnSetting 25
  else if String.eqb tag "expert" then OwnSetting 17
  else if existsb (String.eqb tag) objectPrototypeNames then InheritedProperty
  else UndefinedSetting.

(** How a method call ends: normally, with a [TypeError], or (in the model
    only) with the search fuel used up. *)
Inductive Outcome (A : Type) :=
  | Normal (e : Engine) (rnd : Rand) (a : A)
  | TypeError (e : Engine) (rnd : Rand)
  | OutOfFuel.
Arguments Normal {A}.
Arguments TypeError {A}.
Arguments OutOfFuel {A}.

(** *** shuffleGrid *)

(** The rows written in a row step are rows of [tempGrid], a deep copy, and
    each is written to one position only ([shuffledRows] holds three
    different indices, see [shuffleArray_three]); so no two rows of the grid
    are the same array, and the in-place writes of the column steps change
    one row each. Rows are therefore modelled as values. *)

Definition shuffleRowGroup (group : nat) (g : Grid) (rnd : Rand) : Grid * Rand :=
  let rows := [group * 3; group * 3 + 1; group * 3 + 2] in
  let '(shuffledRows, rnd') := shuffleArray rows rnd in
  let tempGrid := copyGrid g in
  (foldl (fun acc i => <[group * 3 + i := nth (nth i shuffledRows 0) tempGrid []]> acc)
         g (seq 0 3),
   rnd').

Definition shuffleColGroup (group : nat) (g : Grid) (rnd : Rand) : Grid * Rand :=
  let cols := [group * 3; group * 3 + 1; group * 3 + 2] in
  let '(shuffledCols, rnd') := shuffleArray cols rnd in
  (foldl (fun acc row =>
            let tempRow := nth row acc [] in
            foldl (fun acc' i =>
                     set acc' row (group * 3 + i) (nth (nth i shuffledCols 0) tempRow 0%Z))
                  acc (seq 0 3))
         g (seq 0 9),
   rnd').

Definition shuffleGrid (g : Grid) (rnd : Rand) : Grid * Rand :=
  let '(g1, rnd1) :=
    foldl (fun st group => shuffleRowGroup group st.1 st.2) (g, rnd) (seq 0 3) in
  foldl (fun st group => shuffleColGroup group st.1 st.2) (g1, rnd1) (seq 0 3).

(** *** generateCompleteGrid *)

(** The new value of [this.grid]. The boolean returned by [solvePuzzle] is
    dropped, as in the source. *)
Definition generateCompleteGrid (rnd : Rand) : option (Grid * Rand) :=
  match solvePuzzle searchFuel emptyGrid rnd with
  | None => None
  | Some (_, g, rnd1) => Some (shuffleGrid g rnd1)
  end.

(** *** createPuzzle *)

(** [81 - clues]; [None] is NaN, the value when [clues] is [undefined]. *)
Definition cellsToRemoveOf (s : Setting) : option nat :=
  match s with
  | OwnSetting clues => Some (81 - clues)
  | _ => None
  end.

(** [removed < cellsToRemove]: false against NaN. *)
Definition belowTarget (removed : nat) (cellsToRemove : option nat) : bool :=
  match cellsToRemove with
  | Some n => removed <? n
  | None => false
  end.

Record RemovalState := mkRemoval
  { r_grid : Grid; r_attempts : nat; r_removed : nat; r_rnd : Rand }.

(** The [while] loop of [createPuzzle]; each iteration raises [attempts],
    so 1000 units of fuel cover every run. *)
Fixpoint removalLoop (fuel : nat) (cellsToRemove : option nat) (s : RemovalState)
    : option RemovalState :=
  if belowTarget (r_removed s) cellsToRemove && (r_attempts s <? 1000) then
    match fuel with
    | 0 => None
    | S fuel' =>
        let '(row, rnd1) := randomBelow 9 (r_rnd s) in
        let '(col, rnd2) := randomBelow 9 rnd1 in
        let g := r_grid s in
        if negb (Z.eqb (get g row col) 0) then
          let backup := get g row col in
          let g1 := set g row col 0 in
          match hasUniqueSolution g1 with
          | None => None
          | Some true =>
              removalLoop fuel' cellsToRemove
                (mkRemoval g1 (r_attempts s + 1) (r_removed s + 1) rnd2)
          | Some false =>
              removalLoop fuel' cellsToRemove
                (mkRemoval (set g1 row col backup) (r_attempts s + 1) (r_removed s) rnd2)
          end
        else
          removalLoop fuel' cellsToRemove
            (mkRemoval g (r_attempts s + 1) (r_removed s) rnd2)
    end
  else Some s.

(** [createPuzzle()], with the final loop counters as its (model-only) result. *)
Definition createPuzzle (e : Engine) (rnd : Rand) : Outcome (nat * nat) :=
  match difficultySettings (difficulty e) with
  | UndefinedSetting => TypeError e rnd
  | s =>
      match removalLoop 1000 (cellsToRemoveOf s) (mkRemoval (grid e) 0 0 rnd) with
      | None => OutOfFuel
      | Some r =>
          Normal (mkEngine (r_grid r) (solution e) (initialGrid e) (difficulty e))
                 (r_rnd r) (r_attempts r, r_removed r)
      end
  end.

(** *** generatePuzzle *)

Record Puzzle := mkPuzzle
  { puzzle_grid : Grid; puzzle_solution : Grid; puzzle_difficulty : string }.

Definition generatePuzzle (tag : string) (e : Engine) (rnd : Rand) : Outcome Puzzle :=
  let e1 := mkEngine (grid e) (solution e) (initialGrid e) tag in
  match generateCompleteGrid rnd with
  | None => OutOfFuel
  | Some (g, rnd1) =>
      let e2 := mkEngine g (solution e1) (initialGrid e1) (difficulty e1) in
      let e3 := mkEngine (grid e2) (copyGrid (grid e2)) (initialGrid e2) (difficulty e2) in
      match createPuzzle e3 rnd1 with
      | OutOfFuel => OutOfFuel
      | TypeError e4 rnd2 => TypeError e4 rnd2
      | Normal e4 rnd2 _ =>
          let e5 := mkEngine (grid e4) (solution e4) (copyGrid (grid e4)) (difficulty e4) in
          Normal e5 rnd2 (mkPuzzle (grid e5) (solution e5) (difficulty e5))
      end
  end.

(** *** solveCurrentPuzzle *)

Record SolveResult := mkSolveResult
  { success : bool; solved_grid : option Grid; placements : list Step }.

Definition isPlace (s : Step) : bool :=
  match step_type s with place => true | backtrack => false end.

(** [solveCurrentPuzzle()]: reads [this.grid], writes nothing to the engine. *)
Definition solveCurrentPuzzle (e : Engine) : option SolveResult :=
  let gridCopy := copyGrid (grid e) in
  match solvePuzzleWithSteps searchFuel gridCopy [] with
  | None => None
  | Some (solved, g', steps) =>
      Some (mkSolveResult solved (if solved then Some g' else None)
                          (List.filter isPlace steps))
  end.

(* ===================================================================== *)
(** ** Specification vocabulary *)
(* ===================================================================== *)

(** Two cells share a row, a column or a 3x3 box. *)
Definition peer (row col row' col' : nat) : bool :=
  (row =? row') || (col =? col') || ((row / 3 =? row' / 3) && (col / 3 =? col' / 3)).

(** The values a search may place. *)
Definition isDigit (v : Z) : Prop := (1 ≤ v ≤ 9)%Z.

(** [s] keeps every filled cell of [g]. *)
Definition extends (g s : Grid) : Prop :=
  ∀ row col, row < 9 → col < 9 → get g row col ≠ 0%Z → get s row col = get g row col.

(** No other cell in the row, column or box of (row, col) holds its value. *)
Definition noClash (s : Grid) (row col : nat) : Prop :=
  ∀ r c, r < 9 → c < 9 → (r, c) ≠ (row, col) → peer row col r c = true →
         get s r c ≠ get s row col.

(** What the searches look for: the empty cells of [g] filled with digits,
    each of them clashing with no other cell of the result. The cells that
    [g] already holds are taken as they are. *)
Definition fills (g s : Grid) : Prop :=
  wf s ∧ extends g s ∧
  ∀ row col, row < 9 → col < 9 → get g row col = 0%Z →
             isDigit (get s row col) ∧ noClash s row col.

(** Number of empty cells: the depth the searches can reach. *)
Definition countEmpty (g : Grid) : nat := length (List.filter (isEmptyAt g) cells).

(** What a solver call on [g] must deliver: with success a filling of [g],
    and without success the grid as it was and no filling at all. *)
Definition solved (g : Grid) (b : bool) (g' : Grid) : Prop :=
  if b then fills g g' else g' = g ∧ ∀ s, ¬ fills g s.

(** What a candidate loop over [nums] at the empty cell (row, col) of [g]
    must deliver: with success a filling through one of the candidates that
    [isValidMove] accepts, and without success the grid as it was and no
    filling through any of them. *)
Definition tried (g : Grid) (row col : nat) (nums : list Z) (b : bool) (g' : Grid) : Prop :=
  if b then ∃ num, In num nums ∧ isValidMove g row col num = true ∧
                   fills (set g row col num) g'
  else g' = g ∧ ∀ num s, In num nums → isValidMove g row col num = true →
                         ¬ fills (set g row col num) s.

(** The exhaustive search with candidates in ascending order: every filling
    of [g], in the order in which the engine's enumeration reaches them. It
    is the reference against which the bounded [findAllSolutions] is stated;
    the engine itself never runs it. *)
Fixpoint allSolutions (fuel : nat) (g : Grid) : list Grid :=
  match fuel with
  | 0 => []
  | S fuel' =>
      match findEmptyCell g with
      | None => [g]
      | Some (row, col) =>
          flat_map (fun num => if isValidMove g row col num
                               then allSolutions fuel' (set g row col num) else [])
                   digits
      end
  end.

(** *** The constraints of the data model, in units *)

(** The coordinates of the nine cells of a row, a column, a 3x3 box. *)
Definition rowUnit (row : nat) : list (nat * nat) :=
  map (fun col => (row, col)) (seq 0 9).

Definition colUnit (col : nat) : list (nat * nat) :=
  map (fun row => (row, col)) (seq 0 9).

Definition boxUnit (box : nat) : list (nat * nat) :=
  flat_map (fun i => map (fun j => (3 * (box / 3) + i, 3 * (box mod 3) + j)) (seq 0 3))
           (seq 0 3).

Definition allUnits : list (list (nat * nat)) :=
  map rowUnit (seq 0 9) ++ map colUnit (seq 0 9) ++ map boxUnit (seq 0 9).

Definition valuesOf (g : Grid) (u : list (nat * nat)) : list Z :=
  map (fun p => get g p.1 p.2) u.

Definition occurrences (v : Z) (l : list Z) : nat :=
  length (List.filter (Z.eqb v) l).

(** Every cell holds an integer in [0,9]. *)
Definition inRange (g : Grid) : Prop :=
  ∀ row col, row < 9 → col < 9 → (0 ≤ get g row col ≤ 9)%Z.

(** Each row, column and box contains each value 1-9 at most once. *)
Definition atMostOnce (g : Grid) : Prop :=
  ∀ u v, In u allUnits → In v digits → occurrences v (valuesOf g u) ≤ 1.

(** A complete grid: no empty cell, and each value 1-9 exactly once in each
    row, column and box. *)
Definition completeGrid (g : Grid) : Prop :=
  wf g ∧
  (∀ row col, row < 9 → col < 9 → get g row col ≠ 0%Z) ∧
  ∀ u v, In u allUnits → In v digits → occurrences v (valuesOf g u) = 1.

(** A completion of [g]: a complete grid that keeps the filled cells of [g]. *)
Definition completion (g s : Grid) : Prop := completeGrid s ∧ extends g s.

(** Executable versions, for concrete grids. *)
Definition inRangeb (g : Grid) : bool :=
  forallb (fun p => (0 <=? get g p.1 p.2)%Z && (get g p.1 p.2 <=? 9)%Z) cells.

Definition atMostOnceb (g : Grid) : bool :=
  forallb (fun u => forallb (fun v => occurrences v (valuesOf g u) <=? 1) digits) allUnits.

Definition completeGridb (g : Grid) : bool :=
  wfb g && forallb (fun p => negb (isEmptyAt g p)) cells &&
  forallb (fun u => forallb (fun v => occurrences v (valuesOf g u) =? 1) digits) allUnits.

Definition extendsb (g s : Grid) : bool :=
  forallb (fun p => isEmptyAt g p || Z.eqb (get s p.1 p.2) (get g p.1 p.2)) cells.

(** The number of clues of a puzzle grid. *)
Definition clueCount (g : Grid) : nat :=
  length (List.filter (fun p => negb (isEmptyAt g p)) cells).

(** The solved grid of the test suites. *)
Definition canonicalGrid : Grid :=
  [[5;3;4;6;7;8;9;1;2]; [6;7;2;1;9;5;3;4;8]; [1;9;8;3;4;2;5;6;7];
   [8;5;9;7;6;1;4;2;3]; [4;2;6;8;5;3;7;9;1]; [7;1;3;9;2;4;8;5;6];
   [9;6;1;5;3;7;2;8;4]; [2;8;7;4;1;9;6;3;5]; [3;4;5;2;8;6;1;7;9]]%Z.

(** Decidable membership of cells, for the checks done by computation. *)
Definition cellEq (p q : nat * nat) : bool := (p.1 =? q.1) && (p.2 =? q.2).

Definition memCell (p : nat * nat) (u : list (nat * nat)) : bool := existsb (cellEq p) u.

Fixpoint nodupCells (u : list (nat * nat)) : bool :=
  match u with
  | [] => true
  | p :: t => negb (memCell p t) && nodupCells t
  end.

Definition isDigitb (v : Z) : bool := (1 <=? v)%Z && (v <=? 9)%Z.

(** The empty cells [getHint] collects, and the number of values a cell can
    currently take. *)
Definition emptyCellsOf (g : Grid) : list (nat * nat) := List.filter (isEmptyAt g) cells.

Definition possibilityCount (g : Grid) (p : nat * nat) : nat :=
  length (getPossibleValues g p.1 p.2).

(** The cell [getHint] picks out of the scanned list [l1 ++ p :: l2]: the
    first one with at most one possible value, and without such a cell the
    first one with the fewest. *)
Definition hintChoice (g : Grid) (l1 : list (nat * nat)) (p : nat * nat)
    (l2 : list (nat * nat)) : Prop :=
  (possibilityCount g p ≤ 1 ∧ ∀ q, In q l1 → 2 ≤ possibilityCount g q) ∨
  (2 ≤ possibilityCount g p ∧
   (∀ q, In q l1 → possibilityCount g p < possibilityCount g q) ∧
   (∀ q, In q l2 → possibilityCount g p ≤ possibilityCount g q)).

(** *** Band permutations *)

(** The index map of one group step of [shuffleGrid]: position
    [3 * group + i] takes what was at [shuffled[i]], the rest stays. *)
Definition groupPerm (group : nat) (shuffled : list nat) : list nat :=
  foldl (fun acc i => <[group * 3 + i := nth i shuffled 0]> acc) (seq 0 9) (seq 0 3).

(** A permutation of 0..8 that keeps every index within its band of three. *)
Definition bandPerm (perm : list nat) : bool :=
  (length perm =? 9) &&
  forallb (fun r =>
             (nth r perm 0 <? 9) && (nth r perm 0 / 3 =? r / 3) &&
             forallb (fun r' => implb (nth r perm 0 =? nth r' perm 0) (r =? r'))
                     (seq 0 9))
          (seq 0 9).

(** The six orders of three elements. *)
Definition orders3 {A} (a b c : A) : list (list A) :=
  [[a; b; c]; [a; c; b]; [b; a; c]; [b; c; a]; [c; a; b]; [c; b; a]].

(** An index map on 0..8 that is injective and keeps every index in its band. *)
Definition bandMap (σ : nat → nat) : Prop :=
  (∀ r, r < 9 → σ r < 9 ∧ σ r / 3 = r / 3) ∧
  (∀ r r', r < 9 → r' < 9 → σ r = σ r' → r = r').

(** A complete grid, cell by cell: all digits, no clash anywhere. *)
Definition clashFree (g : Grid) : Prop :=
  wf g ∧ (∀ row col, row < 9 → col < 9 → isDigit (get g row col)) ∧
  (∀ row col, row < 9 → col < 9 → noClash g row col).

(** *** Generation *)

(** The difficulty tags of the engine. *)
Definition knownTags : list string := ["easy"; "medium"; "hard"; "expert"]%string.

(** What the removal loop maintains; [sol] is the stored solution and
    [target] the number of cells to remove. *)
Definition removalInv (sol : Grid) (target : nat) (s : RemovalState) : Prop :=
  wf (r_grid s) ∧ extends (r_grid s) sol ∧
  hasUniqueSolution (r_grid s) = Some true ∧
  r_removed s ≤ target ∧ r_attempts s ≤ 1000 ∧
  countEmpty (r_grid s) = r_removed s.

(** *** Sample grids *)

(** The canonical grid with 3 written over the 5 of its first cell: full,
    with two 3s in row 0, in column 0 and in box 0. *)
Definition clashGrid : Grid :=
  [[3;3;4;6;7;8;9;1;2]; [6;7;2;1;9;5;3;4;8]; [1;9;8;3;4;2;5;6;7];
   [8;5;9;7;6;1;4;2;3]; [4;2;6;8;5;3;7;9;1]; [7;1;3;9;2;4;8;5;6];
   [9;6;1;5;3;7;2;8;4]; [2;8;7;4;1;9;6;3;5]; [3;4;5;2;8;6;1;7;9]]%Z.

(** The canonical grid with its first cell cleared. *)
Definition oneHoleGrid : Grid :=
  [[0;3;4;6;7;8;9;1;2]; [6;7;2;1;9;5;3;4;8]; [1;9;8;3;4;2;5;6;7];
   [8;5;9;7;6;1;4;2;3]; [4;2;6;8;5;3;7;9;1]; [7;1;3;9;2;4;8;5;6];
   [9;6;1;5;3;7;2;8;4]; [2;8;7;4;1;9;6;3;5]; [3;4;5;2;8;6;1;7;9]]%Z.

(** No value twice in any unit, and still no completion: cell (0,8) needs
    the 9 that column 8 already holds. *)
Definition deadEndGrid : Grid :=
  [[1;2;3;4;5;6;7;8;0]; [0;0;0;0;0;0;0;0;9]; [0;0;0;0;0;0;0;0;0];
   [0;0;0;0;0;0;0;0;0]; [0;0;0;0;0;0;0;0;0]; [0;0;0;0;0;0;0;0;0];
   [0;0;0;0;0;0;0;0;0]; [0;0;0;0;0;0;0;0;0]; [0;0;0;0;0;0;0;0;0]]%Z.

(** Cell (0,0) can only take 1; cell (8,8) can take nothing. *)
Definition hintGrid : Grid :=
  [[0;2;3;4;5;6;7;8;9]; [0;0;0;0;0;0;0;0;0]; [0;0;0;0;0;0;0;0;0];
   [0;0;0;0;0;0;0;0;0]; [0;0;0;0;0;0;0;0;0]; [0;0;0;0;0;0;0;0;0];
   [0;0;0;0;0;0;0;0;0]; [0;0;0;0;0;0;0;0;0]; [2;3;4;5;6;7;8;1;0]]%Z.

(** Cell (0,0), the first empty one, can take nothing. *)
Definition stuckGrid : Grid :=
  [[0;2;3;4;5;6;7;8;9]; [1;0;0;0;0;0;0;0;0]; [0;0;0;0;0;0;0;0;0];
   [0;0;0;0;0;0;0;0;0]; [0;0;0;0;0;0;0;0;0]; [0;0;0;0;0;0;0;0;0];
   [0;0;0;0;0;0;0;0;0]; [0;0;0;0;0;0;0;0;0]; [0;0;0;0;0;0;0;0;0]]%Z.

(** Engines whose current grid is one of the sample grids. *)
Definition deadEndEngine : Engine := mkEngine deadEndGrid canonicalGrid deadEndGrid "medium".

Definition clashEngine : Engine := mkEngine clashGrid canonicalGrid clashGrid "medium".

(* ===================================================================== *)
(** ** Further vocabulary *)
(* ===================================================================== *)

(** *** Recorded steps *)

(** Writing a recorded step to a grid: the write the solver did when it
    recorded it (the value of a backtrack step is 0). *)
Definition applyStep (g : Grid) (s : Step) : Grid :=
  set g (step_row s) (step_col s) (step_value s).

Definition replay (g : Grid) (steps : list Step) : Grid := foldl applyStep g steps.

(** A step a search on [g] may record: on a cell that is empty in [g], a
    digit for a placement and 0 for a backtrack. *)
Definition stepOn (g : Grid) (s : Step) : Prop :=
  step_row s < 9 ∧ step_col s < 9 ∧ get g (step_row s) (step_col s) = 0%Z ∧
  match step_type s with
  | place => isDigit (step_value s)
  | backtrack => step_value s = 0%Z
  end.

(** What a call on [g] with the recorded steps [steps] returns, with [h] a
    grid that agrees with [g] on the filled cells of [g]: the steps are
    kept and steps on empty cells of [g] are added; replaying all added
    steps on [g] gives the returned grid; replaying the added placements
    alone on [h] gives the returned grid after a success, and after a
    failure still a grid that agrees with [g] on its filled cells. *)
Definition recorded (g h : Grid) (steps : list Step)
    (res : option (bool * Grid * list Step)) : Prop :=
  ∃ b g' added,
    res = Some (b, g', steps ++ added) ∧ solved g b g' ∧
    Forall (stepOn g) added ∧ replay g added = g' ∧
    let h' := replay h (List.filter isPlace added) in
    if b then h' = g' else wf h' ∧ extends g h'.

(** An engine in the middle of a game: one cell of the canonical grid is
    still to be filled. *)
Definition oneHoleEngine : Engine := mkEngine oneHoleGrid canonicalGrid oneHoleGrid "medium".

(** *** Scan order *)



(** *** Clashes *)

(** A filled cell whose value is also held by another cell of its row,
    column or box. *)
Definition clashes (g : Grid) (row col : nat) : Prop :=
  get g row col ≠ 0%Z ∧
  ∃ r c, r < 9 ∧ c < 9 ∧ (r, c) ≠ (row, col) ∧ peer row col r c = true ∧
         get g r c = get g row col.

Definition clashesb (g : Grid) (p : nat * nat) : bool :=
  negb (isEmptyAt g p) &&
  existsb (fun q => negb (cellEq q p) && peer p.1 p.2 q.1 q.2 &&
                    Z.eqb (get g q.1 q.2) (get g p.1 p.2)) cells.

(** The error entry [validatePuzzle] pushes for a cell. *)
Definition errorAt (g : Grid) (p : nat * nat) : CellError :=
  mkCellError p.1 p.2 (get g p.1 p.2).

(** What the removal loop maintains from any starting grid [start]: cells
    are only cleared, [removed] counts the cleared ones, and every kept
    removal has passed the uniqueness test. *)
Definition clearingInv (start : Grid) (s : RemovalState) : Prop :=
  wf (r_grid s) ∧ extends (r_grid s) start ∧
  countEmpty (r_grid s) = countEmpty start + r_removed s ∧
  r_attempts s ≤ 1000 ∧
  (r_removed s = 0 → r_grid s = start) ∧
  (0 < r_removed s → hasUniqueSolution (r_grid s) = Some true).

(* ===================================================================== *)
(** ** The user interface: the callers of the engine *)
(* ===================================================================== *)

(** [isGivenCell(row, col)] *)
Definition isGivenCell (e : Engine) (row col : nat) : bool :=
  negb (Z.eqb (get (initialGrid e) row col) 0).

(** The class [SudokuUI]. Its state is the engine and the fields
    [selectedCell], [selectedNumber], [gameActive], [errors] and
    [hintsUsed]. What it does to the page, the sounds, the timer and the
    modal dialog never flows back into these fields; each such call is
    kept as an entry of [log], in the order of the calls. Rows, columns and
    numbers come from the [dataset] of the cells and buttons of the page:
    the cells are those of [createGrid], with row and column 0 to 8. *)
Module SudokuUI.

Inductive Effect : Type :=
  | ClearHighlights
  | AddClass (row col : nat) (cls : string)
  | UpdateCell (row col : nat) (value : Z)
  | ShowCellError (row col : nat)
  | SelectNumber (number : Z)
  | ClearNumberSelection
  | UpdateStats (errors : nat)
  | PlaySound (soundType : string)
  | ShowModal (title : string)
  | StartTimer
  | StopTimer
  | AnimateCompletion
  | RevealLater (delay : nat) (row col : nat).

(** [validation.errors]; the name [errors] is the counter of the class below. *)
Definition reported (validation : Validation) : list CellError := errors validation.

Record UI := mkUI
  { engine : Engine;
    selectedCell : option (nat * nat);
    selectedNumber : option Z;
    gameActive : bool;
    errors : nat;
    hintsUsed : nat;
    log : list Effect }.

Definition emit (ef : Effect) (ui : UI) : UI :=
  mkUI (engine ui) (selectedCell ui) (selectedNumber ui) (gameActive ui)
       (errors ui) (hintsUsed ui) (log ui ++ [ef]).

(** [this.engine.grid = g], also for the grid a call of the engine leaves
    behind. *)
Definition setGrid (g : Grid) (ui : UI) : UI :=
  mkUI (mkEngine g (solution (engine ui)) (initialGrid (engine ui))
                 (difficulty (engine ui)))
       (selectedCell ui) (selectedNumber ui) (gameActive ui)
       (errors ui) (hintsUsed ui) (log ui).

(** The body of the double loop of [highlightRelatedCells] at cell (i, j). *)
Definition highlightCell (row col : nat) (ui : UI) (p : nat * nat) : UI :=
  let '(i, j) := p in
  let ui1 := if (i =? row) && negb (j =? col)
             then emit (AddClass i j "highlight-row") ui else ui in
  let ui2 := if (j =? col) && negb (i =? row)
             then emit (AddClass i j "highlight-col") ui1 else ui1 in
  let boxRow := row / 3 in
  let boxCol := col / 3 in
  let cellBoxRow := i / 3 in
  let cellBoxCol := j / 3 in
  if (boxRow =? cellBoxRow) && (boxCol =? cellBoxCol) &&
     (negb (i =? row) || negb (j =? col))
  then emit (AddClass i j "highlight-box") ui2 else ui2.

Definition highlightRelatedCells (row col : nat) (ui : UI) : UI :=
  foldl (highlightCell row col) ui cells.

Definition selectCell (row col : nat) (ui : UI) : UI :=
  let ui1 := emit ClearHighlights ui in
  let ui2 := mkUI (engine ui1) (Some (row, col)) (selectedNumber ui1) (gameActive ui1)
                  (errors ui1) (hintsUsed ui1) (log ui1) in
  let ui3 := emit (AddClass row col "selected") ui2 in
  highlightRelatedCells row col ui3.

Definition selectNumber (number : Z) (ui : UI) : UI :=
  emit (SelectNumber number)
       (mkUI (engine ui) (selectedCell ui) (Some number) (gameActive ui)
             (errors ui) (hintsUsed ui) (log ui)).

(** [gameComplete()]; the text of the message is not kept. *)
Definition gameComplete (ui : UI) : UI :=
  let ui1 := mkUI (engine ui) (selectedCell ui) (selectedNumber ui) false
                  (errors ui) (hintsUsed ui) (log ui) in
  emit AnimateCompletion
    (emit (PlaySound "success") (emit (ShowModal "Puzzle Complete!") (emit StopTimer ui1))).

Definition placeNumber (number : Z) (ui : UI) : UI :=
  match selectedCell ui with
  | None => ui
  | Some (row, col) =>
      if isGivenCell (engine ui) row col then emit (ShowCellError row col) ui
      else
        let ui1 := setGrid (set (grid (engine ui)) row col number) ui in
        let ui2 := emit (UpdateCell row col number) ui1 in
        if negb (Z.eqb number 0) then
          let '(g1, validation) := validatePuzzle (grid (engine ui2)) in
          let ui3 := setGrid g1 ui2 in
          match List.find (fun err => (err_row err =? row) && (err_col err =? col))
                          (reported validation) with
          | Some _ =>
              let ui4 := mkUI (engine ui3) (selectedCell ui3) (selectedNumber ui3)
                              (gameActive ui3) (errors ui3 + 1) (hintsUsed ui3) (log ui3) in
              emit (PlaySound "error")
                (emit (ShowCellError row col) (emit (UpdateStats (errors ui4)) ui4))
          | None =>
              let ui4 := emit (PlaySound "success") ui3 in
              let '(g2, complete) := isComplete (grid (engine ui4)) in
              let ui5 := setGrid g2 ui4 in
              if complete then gameComplete ui5 else ui5
          end
        else ui2
  end.

Definition handleCellClick (row col : nat) (ui : UI) : UI :=
  if isGivenCell (engine ui) row col
  then emit (ShowCellError row col) (emit (PlaySound "error") ui)
  else emit (PlaySound "click") (selectCell row col ui).

Definition handleCellRightClick (row col : nat) (ui : UI) : UI :=
  if isGivenCell (engine ui) row col then ui
  else emit (PlaySound "click") (placeNumber 0 (selectCell row col ui)).

Definition handleNumberClick (number : Z) (ui : UI) : UI :=
  let ui1 := selectNumber number ui in
  let ui2 := match selectedCell ui1 with
             | Some _ => placeNumber number ui1
             | None => ui1
             end in
  emit (PlaySound "click") ui2.

Inductive Direction := ArrowUp | ArrowDown | ArrowLeft | ArrowRight.

Definition moveSelection (direction : Direction) (ui : UI) : UI :=
  match selectedCell ui with
  | None => ui
  | Some (row, col) =>
      let '(row', col') :=
        match direction with
        | ArrowUp => (Nat.max 0 (row - 1), col)
        | ArrowDown => (Nat.min 8 (row + 1), col)
        | ArrowLeft => (row, Nat.max 0 (col - 1))
        | ArrowRight => (row, Nat.min 8 (col + 1))
        end in
      selectCell row' col' ui
  end.

(** The keys [handleKeyPress] tells apart: a digit key '1' to '9' with its
    digit, the keys '0', Delete and Backspace, the four arrow keys, and any
    other key. *)
Inductive Key :=
  | DigitKey (number : Z)
  | EraseKey
  | ArrowKey (direction : Direction)
  | OtherKey.

Definition handleKeyPress (key : Key) (ui : UI) : UI :=
  match selectedCell ui with
  | None => ui
  | Some _ =>
      match key with
      | DigitKey number => placeNumber number (selectNumber number ui)
      | EraseKey => placeNumber 0 (selectNumber 0 ui)
      | ArrowKey direction => moveSelection direction ui
      | OtherKey => ui
      end
  end.

(** [showHint()]; the delayed removal of the hint class is not kept. *)
Definition showHint (ui : UI) : UI :=
  if negb (gameActive ui) then ui
  else
    match getHint (solution (engine ui)) (grid (engine ui)) with
    | Some hint =>
        let ui1 := mkUI (engine ui) (selectedCell ui) (selectedNumber ui) (gameActive ui)
                        (errors ui) (hintsUsed ui + 1) (log ui) in
        let ui2 := emit (AddClass (hint_row hint) (hint_col hint) "hint") ui1 in
        let ui3 := setGrid (set (grid (engine ui2)) (hint_row hint) (hint_col hint)
                                (hint_value hint)) ui2 in
        let ui4 := emit (UpdateCell (hint_row hint) (hint_col hint) (hint_value hint)) ui3 in
        let ui5 := emit (PlaySound "success") ui4 in
        let '(g1, complete) := isComplete (grid (engine ui5)) in
        let ui6 := setGrid g1 ui5 in
        if complete then gameComplete ui6 else ui6
    | None => emit (ShowModal "No Hints Available") ui
    end.

Definition checkSolution (ui : UI) : UI :=
  if negb (gameActive ui) then ui
  else
    let '(g1, validation) := validatePuzzle (grid (engine ui)) in
    let ui1 := setGrid g1 ui in
    if isValid validation then
      let '(g2, complete) := isComplete (grid (engine ui1)) in
      let ui2 := setGrid g2 ui1 in
      if complete then gameComplete ui2 else emit (ShowModal "Looking Good!") ui2
    else
      let errs := reported validation in
      let ui2 := mkUI (engine ui1) (selectedCell ui1) (selectedNumber ui1) (gameActive ui1)
                      (errors ui1 + length errs) (hintsUsed ui1) (log ui1) in
      let ui3 := emit (UpdateStats (errors ui2)) ui2 in
      let ui4 := foldl (fun u err => emit (ShowCellError (err_row err) (err_col err)) u)
                       ui3 errs in
      emit (PlaySound "error") (emit (ShowModal "Errors Found") ui4).

(** [animateSolution()]: the cells that are not given, shuffled, each
    revealed [index * 100] ms later. *)
Definition animateSolution (ui : UI) (rnd : Rand) : UI * Rand :=
  let emptyCells :=
    List.filter (fun p => negb (isGivenCell (engine ui) p.1 p.2)) cells in
  let '(shuffledCells, rnd1) := shuffleArray emptyCells rnd in
  (mkUI (engine ui) (selectedCell ui) (selectedNumber ui) (gameActive ui)
        (errors ui) (hintsUsed ui)
        (log ui ++ imap (fun index cell => RevealLater (index * 100) cell.1 cell.2)
                        shuffledCells),
   rnd1).

(** [solvePuzzle()] of the user interface. *)
Definition solvePuzzle (ui : UI) (rnd : Rand) : UI * Rand :=
  if negb (gameActive ui) then (ui, rnd)
  else
    let g := foldl (fun g p => set g p.1 p.2 (get (solution (engine ui)) p.1 p.2))
                   (grid (engine ui)) cells in
    let '(ui1, rnd1) := animateSolution (setGrid g ui) rnd in
    let ui2 := mkUI (engine ui1) (selectedCell ui1) (selectedNumber ui1) false
                    (errors ui1) (hintsUsed ui1) (log ui1) in
    (emit (ShowModal "Puzzle Solved!") (emit StopTimer ui2), rnd1).

(** How [startNewGame] ends: normally, or with the [TypeError] of
    [generatePuzzle] passing through it. *)
Inductive Result :=
  | Returned (ui : UI) (rnd : Rand)
  | Thrown (ui : UI) (rnd : Rand)
  | NoFuel.

Definition displayGrid (g : Grid) (ui : UI) : UI :=
  foldl (fun u p => emit (UpdateCell p.1 p.2 (get g p.1 p.2)) u) ui cells.

(** [startNewGame(difficulty)], for the tag it ends up with: its argument,
    or else the one of the active difficulty button, or else 'medium'. *)
Definition startNewGame (difficulty : string) (ui : UI) (rnd : Rand) : Result :=
  match generatePuzzle difficulty (engine ui) rnd with
  | OutOfFuel => NoFuel
  | TypeError e rnd1 =>
      Thrown (mkUI e (selectedCell ui) (selectedNumber ui) (gameActive ui)
                   (errors ui) (hintsUsed ui) (log ui)) rnd1
  | Normal e rnd1 puzzle =>
      let ui1 := mkUI e None None true 0 0 (log ui) in
      let ui2 := displayGrid (puzzle_grid puzzle) ui1 in
      let ui3 := emit ClearHighlights ui2 in
      let ui4 := emit ClearNumberSelection ui3 in
      let ui5 := mkUI (engine ui4) (selectedCell ui4) None (gameActive ui4)
                      (errors ui4) (hintsUsed ui4) (log ui4) in
      let ui6 := emit StartTimer ui5 in
      let ui7 := emit (UpdateStats (errors ui6)) ui6 in
      Returned (emit (PlaySound "success") ui7) rnd1
  end.

(** What the player can do in a running game. *)
Inductive Action :=
  | CellClick (row col : nat)
  | CellRightClick (row col : nat)
  | NumberClick (number : Z)
  | KeyPress (key : Key)
  | HintClick
  | CheckClick
  | SolveClick.

Definition act (st : UI * Rand) (a : Action) : UI * Rand :=
  let '(ui, rnd) := st in
  match a with
  | CellClick row col => (handleCellClick row col ui, rnd)
  | CellRightClick row col => (handleCellRightClick row col ui, rnd)
  | NumberClick number => (handleNumberClick number ui, rnd)
  | KeyPress key => (handleKeyPress key ui, rnd)
  | HintClick => (showHint ui, rnd)
  | CheckClick => (checkSolution ui, rnd)
  | SolveClick => solvePuzzle ui rnd
  end.

(** The clicks come from cells of the page. *)
Definition onPage (a : Action) : Prop :=
  match a with
  | CellClick row col | CellRightClick row col => row < 9 ∧ col < 9
  | _ => True
  end.

(** A game in play: the grids are 9×9, the selected cell is on the page,
    and the given cells hold in the grid and in the solution what they held
    at the start. *)
Definition inPlay (ui : UI) : Prop :=
  wf (grid (engine ui)) ∧ wf (solution (engine ui)) ∧
  (∀ row col, selectedCell ui = Some (row, col) → row < 9 ∧ col < 9) ∧
  extends (initialGrid (engine ui)) (grid (engine ui)) ∧
  extends (initialGrid (engine ui)) (solution (engine ui)).

(** The fields of the class, without the log. *)
Definition fields (ui : UI) : Engine * option (nat * nat) * option Z * bool * nat * nat :=
  (engine ui, selectedCell ui, selectedNumber ui, gameActive ui, errors ui, hintsUsed ui).

(** The classes [highlightRelatedCells] adds to cell (i, j). *)
Definition highlightsOf (row col : nat) (p : nat * nat) : list Effect :=
  (if (p.1 =? row) && negb (p.2 =? col) then [AddClass p.1 p.2 "highlight-row"] else []) ++
  (if (p.2 =? col) && negb (p.1 =? row) then [AddClass p.1 p.2 "highlight-col"] else []) ++
  (if (row / 3 =? p.1 / 3) && (col / 3 =? p.2 / 3) && (negb (p.1 =? row) || negb (p.2 =? col))
   then [AddClass p.1 p.2 "highlight-box"] else []).

(** What no action of a running game undoes, from [ui] to [ui']: the
    solution, the initial grid and the difficulty stay, the given cells
    keep their values, the counters do not go down, and a game that is over
    stays over. *)
Definition keeps (ui ui' : UI) : Prop :=
  solution (engine ui') = solution (engine ui) ∧
  initialGrid (engine ui') = initialGrid (engine ui) ∧
  difficulty (engine ui') = difficulty (engine ui) ∧
  (∀ row col, row < 9 → col < 9 → isGivenCell (engine ui) row col = true →
              get (grid (engine ui')) row col = get (grid (engine ui)) row col) ∧
  errors ui ≤ errors ui' ∧ hintsUsed ui ≤ hintsUsed ui' ∧
  (gameActive ui = false → gameActive ui' = false).

Definition sampleUI : UI :=
  mkUI oneHoleEngine (Some (0, 0)) None true 0 0 [].

End SudokuUI.

(** The class [GameController], as far as it decides a difficulty. *)
Module GameController.

Definition difficulties : list string := ["easy"; "medium"; "hard"; "expert"]%string.

(** [array.indexOf(x)], counting from [i]. *)
Fixpoint indexOf (x : string) (l : list string) (i : Z) : Z :=
  match l with
  | [] => (-1)%Z
  | y :: rest => if String.eqb y x then i else indexOf x rest (i + 1)%Z
  end.

(** [cycleDifficulty(direction)], as a function of [this.settings.difficulty];
    the result is the new [this.settings.difficulty], which is also the tag
    of the button it makes the active one. *)
Definition cycleDifficulty (direction : Z) (current : string) : string :=
  let currentIndex := indexOf current difficulties 0 in
  let newIndex := (currentIndex + direction)%Z in
  let newIndex1 :=
    if (newIndex <? 0)%Z then (Z.of_nat (length difficulties) - 1)%Z else newIndex in
  let newIndex2 :=
    if (newIndex1 >=? Z.of_nat (length difficulties))%Z then 0%Z else newIndex1 in
  nth (Z.to_nat newIndex2) difficulties ""%string.

End GameController.
(* ===================================================================== *)
(** ** Reading and writing cells *)
(* ===================================================================== *)

Section GridAccess.

Lemma copyGrid_id (g : Grid) : copyGrid g = g.
Proof. unfold copyGrid. apply map_id. Qed.

Lemma wfb_wf (g : Grid) : wfb g = true ↔ wf g.
Proof.
  unfold wfb, wf. rewrite andb_true_iff, Nat.eqb_eq, forallb_forall.
  rewrite List.Forall_forall.
  split; intros [H1 H2]; split; auto; intros x Hx.
  - apply Nat.eqb_eq; auto.
  - apply Nat.eqb_eq; auto.
Qed.

Lemma wf_row (g : Grid) (row : nat) :
  wf g → row < 9 → ∃ cs, g !! row = Some cs ∧ length cs = 9.
Proof.
  intros [Hlen Hrows] Hrow.
  destruct (lookup_lt_is_Some_2 g row) as [cs Hcs]; [lia|].
  exists cs. split; [done|].
  rewrite Forall_lookup in Hrows. eauto.
Qed.

Lemma wf_set (g : Grid) row col v : wf g → wf (set g row col v).
Proof.
  intros [Hlen Hrows]. unfold set. split.
  - by rewrite length_insert.
  - destruct (decide (row < length g)) as [Hlt|Hge].
    + apply Forall_insert; [done|]. cbv beta. rewrite length_insert.
      destruct (lookup_lt_is_Some_2 g row Hlt) as [cs Hcs].
      rewrite (nth_lookup_Some _ _ _ _ Hcs).
      rewrite Forall_lookup in Hrows. eauto.
    + rewrite list_insert_ge; [done|lia].
Qed.

Lemma get_set_eq (g : Grid) row col v :
  wf g → row < 9 → col < 9 → get (set g row col v) row col = v.
Proof.
  intros Hwf Hr Hc. destruct (wf_row g row Hwf Hr) as (cs & Hcs & Hlen).
  unfold get, set. rewrite (nth_lookup_Some _ _ _ _ Hcs).
  destruct Hwf as [Hg _].
  rewrite (nth_lookup_Some _ row [] (<[col:=v]> cs)).
  - apply nth_lookup_Some. apply list_lookup_insert_eq. lia.
  - apply list_lookup_insert_eq. lia.
Qed.

Lemma get_set_ne (g : Grid) row col v row' col' :
  (row, col) ≠ (row', col') → get (set g row col v) row' col' = get g row' col'.
Proof.
  intros Hne. unfold get, set.
  destruct (decide (row = row')) as [->|Hr].
  - destruct (decide (row' < length g)) as [Hlt|Hge].
    + rewrite (nth_lookup_Some _ row' [] (<[col:=v]> (nth row' g []))).
      * rewrite !(nth_lookup _ col'). rewrite list_lookup_insert_ne; [done|].
        intros ->. by apply Hne.
      * by apply list_lookup_insert_eq.
    + rewrite list_insert_ge; [done|lia].
  - rewrite !(nth_lookup _ row'). by rewrite list_lookup_insert_ne.
Qed.

Lemma set_id (g : Grid) row col :
  wf g → row < 9 → col < 9 → set g row col (get g row col) = g.
Proof.
  intros Hwf Hr Hc. destruct (wf_row g row Hwf Hr) as (cs & Hcs & Hlen).
  unfold get, set. rewrite (nth_lookup_Some _ _ _ _ Hcs).
  apply list_insert_id. rewrite Hcs. f_equal.
  symmetry. apply list_insert_id.
  destruct (lookup_lt_is_Some_2 cs col) as [x Hx]; [lia|].
  by rewrite (nth_lookup_Some _ _ _ _ Hx).
Qed.

Lemma set_set (g : Grid) row col v w :
  wf g → row < 9 → col < 9 → set (set g row col v) row col w = set g row col w.
Proof.
  intros Hwf Hr Hc. destruct (wf_row g row Hwf Hr) as (cs & Hcs & Hlen).
  destruct Hwf as [Hg _].
  unfold set. rewrite list_insert_insert_eq. f_equal.
  rewrite (nth_lookup_Some _ row [] (<[col:=v]> (nth row g []))).
  - by rewrite list_insert_insert_eq.
  - apply list_lookup_insert_eq. lia.
Qed.

(** Clearing a cell and writing its old value back restores the grid. *)
Lemma set_restore (g : Grid) row col v :
  wf g → row < 9 → col < 9 → set (set g row col v) row col (get g row col) = g.
Proof. intros. rewrite set_set by done. by apply set_id. Qed.

Lemma grid_ext (g g' : Grid) :
  wf g → wf g' →
  (∀ row col, row < 9 → col < 9 → get g row col = get g' row col) → g = g'.
Proof.
  intros Hwf Hwf' Heq. apply list_eq. intros row.
  destruct (decide (row < 9)) as [Hr|Hr].
  - destruct (wf_row g row Hwf Hr) as (cs & Hcs & Hlen).
    destruct (wf_row g' row Hwf' Hr) as (cs' & Hcs' & Hlen').
    rewrite Hcs, Hcs'. f_equal. apply list_eq. intros col.
    destruct (decide (col < 9)) as [Hc|Hc].
    + specialize (Heq row col Hr Hc). unfold get in Heq.
      rewrite (nth_lookup_Some _ _ _ _ Hcs), (nth_lookup_Some _ _ _ _ Hcs') in Heq.
      destruct (lookup_lt_is_Some_2 cs col) as [x Hx]; [lia|].
      destruct (lookup_lt_is_Some_2 cs' col) as [x' Hx']; [lia|].
      rewrite (nth_lookup_Some _ _ _ _ Hx), (nth_lookup_Some _ _ _ _ Hx') in Heq.
      congruence.
    + rewrite !lookup_ge_None_2; [done|lia|lia].
  - destruct Hwf as [Hg _], Hwf' as [Hg' _].
    rewrite !lookup_ge_None_2; [done|lia|lia].
Qed.

End GridAccess.

(* ===================================================================== *)
(** ** The row-major scan *)
(* ===================================================================== *)

Section Scan.

Lemma in_cells (row col : nat) : In (row, col) cells ↔ row < 9 ∧ col < 9.
Proof.
  unfold cells. rewrite in_flat_map. split.
  - intros (r & Hr & Hin). apply in_map_iff in Hin as (c & Heq & Hc).
    apply in_seq in Hr, Hc. inversion Heq; subst. lia.
  - intros [Hr Hc]. exists row. split; [apply in_seq; lia|].
    apply in_map_iff. exists col. split; [done|apply in_seq; lia].
Qed.

Lemma cells_NoDup : List.NoDup cells.
Proof.
  assert (H : ∀ l : list (nat * nat),
             (fix nd (l : list (nat * nat)) : bool :=
                match l with
                | [] => true
                | p :: t =>
                    negb (existsb (fun q => (p.1 =? q.1) && (p.2 =? q.2)) t) && nd t
                end) l = true → List.NoDup l).
  { induction l as [|p t IH]; intros Hb; [constructor|].
    apply andb_true_iff in Hb as [Hn Ht]. constructor; [|by apply IH].
    intros Hin. apply negb_true_iff in Hn.
    assert (existsb (fun q => (p.1 =? q.1) && (p.2 =? q.2)) t = true) as Hx; [|congruence].
    apply existsb_exists. exists p. split; [done|]. by rewrite !Nat.eqb_refl. }
  apply H. vm_compute. reflexivity.
Qed.

Lemma findEmptyCell_Some (g : Grid) row col :
  findEmptyCell g = Some (row, col) → row < 9 ∧ col < 9 ∧ get g row col = 0%Z.
Proof.
  unfold findEmptyCell. intros H. apply find_some in H as [Hin He].
  apply in_cells in Hin. unfold isEmptyAt in He. simpl in He.
  apply Z.eqb_eq in He. tauto.
Qed.

Lemma findEmptyCell_None (g : Grid) :
  findEmptyCell g = None → ∀ row col, row < 9 → col < 9 → get g row col ≠ 0%Z.
Proof.
  unfold findEmptyCell. intros H row col Hr Hc.
  pose proof (find_none _ _ H (row, col) (proj2 (in_cells row col) (conj Hr Hc))) as He.
  unfold isEmptyAt in He. simpl in He. by apply Z.eqb_neq in He.
Qed.

Lemma findEmptyCell_None_iff (g : Grid) :
  findEmptyCell g = None ↔ ∀ row col, row < 9 → col < 9 → get g row col ≠ 0%Z.
Proof.
  split; [apply findEmptyCell_None|].
  intros H. destruct (findEmptyCell g) as [[row col]|] eqn:E; [|done].
  apply findEmptyCell_Some in E as (Hr & Hc & Hz). by destruct (H row col Hr Hc).
Qed.

End Scan.

(* ===================================================================== *)
(** ** What isValidMove checks *)
(* ===================================================================== *)

Section ValidMove.

Lemma existsb_false {A} (f : A → bool) (l : list A) :
  existsb f l = false ↔ ∀ x, In x l → f x = false.
Proof.
  split.
  - intros H x Hx. destruct (f x) eqn:E; [|done].
    rewrite <- H. symmetry. apply existsb_exists. eauto.
  - intros H. destruct (existsb f l) eqn:E; [|done].
    apply existsb_exists in E as (x & Hx & Hfx). rewrite H in Hfx; done.
Qed.

Lemma peer_sym row col row' col' : peer row col row' col' = peer row' col' row col.
Proof.
  unfold peer. rewrite (Nat.eqb_sym row), (Nat.eqb_sym col),
    (Nat.eqb_sym (row / 3)), (Nat.eqb_sym (col / 3)). done.
Qed.

Lemma box_anchor (n : nat) : n - n mod 3 = 3 * (n / 3).
Proof. pose proof (Nat.div_mod_eq n 3). lia. Qed.

Lemma isValidMove_spec (g : Grid) row col num :
  row < 9 → col < 9 →
  isValidMove g row col num = true ↔
  ∀ r c, r < 9 → c < 9 → peer row col r c = true → get g r c ≠ num.
Proof.
  intros Hrow Hcol. unfold isValidMove. rewrite !box_anchor.
  destruct (existsb (λ x, (get g row x =? num)%Z) (seq 0 9)) eqn:E1.
  { split; [done|]. intros H. exfalso.
    apply existsb_exists in E1 as (x & Hx & Hv). apply in_seq in Hx.
    apply Z.eqb_eq in Hv. apply (H row x); [lia..| |done].
    unfold peer. by rewrite Nat.eqb_refl. }
  destruct (existsb (λ x, (get g x col =? num)%Z) (seq 0 9)) eqn:E2.
  { split; [done|]. intros H. exfalso.
    apply existsb_exists in E2 as (x & Hx & Hv). apply in_seq in Hx.
    apply Z.eqb_eq in Hv. apply (H x col); [lia..| |done].
    unfold peer. by rewrite Nat.eqb_refl, orb_true_r. }
  destruct (existsb (λ i, existsb _ (seq 0 3)) (seq 0 3)) eqn:E3.
  { split; [done|]. intros H. exfalso.
    apply existsb_exists in E3 as (i & Hi & E3).
    apply existsb_exists in E3 as (j & Hj & Hv).
    apply in_seq in Hi, Hj. apply Z.eqb_eq in Hv.
    assert (row / 3 < 3) by (apply Nat.Div0.div_lt_upper_bound; lia).
    assert (col / 3 < 3) by (apply Nat.Div0.div_lt_upper_bound; lia).
    apply (H (i + 3 * (row / 3)) (j + 3 * (col / 3))); [lia..| |done].
    unfold peer.
    replace ((i + 3 * (row / 3)) / 3) with (row / 3).
    2:{ apply (Nat.div_unique _ 3 _ i); lia. }
    replace ((j + 3 * (col / 3)) / 3) with (col / 3).
    2:{ apply (Nat.div_unique _ 3 _ j); lia. }
    by rewrite !Nat.eqb_refl, orb_true_r. }
  split; [|done]. intros _ r c Hr Hc Hp. apply Z.eqb_neq.
  rewrite existsb_false in E1, E2, E3.
  unfold peer in Hp. apply orb_true_iff in Hp as [Hp|Hp].
  - apply orb_true_iff in Hp as [Hp|Hp]; apply Nat.eqb_eq in Hp; subst.
    + apply (E1 c). apply in_seq. lia.
    + apply (E2 r). apply in_seq. lia.
  - apply andb_true_iff in Hp as [Hp1 Hp2]. apply Nat.eqb_eq in Hp1, Hp2.
    pose proof (Nat.div_mod_eq r 3) as Hdr. pose proof (Nat.div_mod_eq c 3) as Hdc.
    pose proof (Nat.mod_upper_bound r 3). pose proof (Nat.mod_upper_bound c 3).
    assert (In (r mod 3) (seq 0 3)) as Hi by (apply in_seq; lia).
    assert (In (c mod 3) (seq 0 3)) as Hj by (apply in_seq; lia).
    pose proof (E3 _ Hi) as E4. rewrite existsb_false in E4.
    pose proof (E4 _ Hj) as E5. cbv beta in E5.
    replace (r mod 3 + 3 * (row / 3)) with r in E5 by lia.
    replace (c mod 3 + 3 * (col / 3)) with c in E5 by lia.
    done.
Qed.

End ValidMove.

Section Fills.

Lemma in_digits (v : Z) : In v digits ↔ isDigit v.
Proof. unfold digits, isDigit. simpl. lia. Qed.

Lemma filter_length_drop {A} (f f' : A → bool) (l : list A) (p : A) :
  List.NoDup l → In p l → f p = true → f' p = false →
  (∀ q, q ≠ p → f' q = f q) →
  S (length (List.filter f' l)) = length (List.filter f l).
Proof.
  intros Hnd Hin Hp Hp' Hother. induction l as [|a l IH]; [done|].
  inversion Hnd as [|? ? Hnotin Hnd']; subst. simpl.
  destruct Hin as [->|Hin].
  - rewrite Hp, Hp'. simpl. f_equal. f_equal.
    clear IH Hnd. induction l as [|b l IH]; [done|]. simpl.
    inversion Hnd'; subst.
    rewrite Hother by (intros ->; apply Hnotin; by left).
    destruct (f b); simpl; [f_equal|]; apply IH; auto;
      intros Hx; apply Hnotin; by right.
  - assert (a ≠ p) as Hne by (intros ->; done).
    rewrite (Hother a Hne). destruct (f a); simpl; [f_equal|]; by apply IH.
Qed.

Lemma countEmpty_set (g : Grid) row col v :
  wf g → row < 9 → col < 9 → get g row col = 0%Z → v ≠ 0%Z →
  S (countEmpty (set g row col v)) = countEmpty g.
Proof.
  intros Hwf Hr Hc Hz Hv. unfold countEmpty.
  apply (filter_length_drop _ _ _ (row, col)).
  - apply cells_NoDup.
  - by apply in_cells.
  - unfold isEmptyAt. simpl. by apply Z.eqb_eq.
  - unfold isEmptyAt. simpl. rewrite get_set_eq by done. by apply Z.eqb_neq.
  - intros [r c] Hne. unfold isEmptyAt. simpl. by rewrite get_set_ne.
Qed.

Lemma fills_nonzero (g s : Grid) row col :
  wf g → fills g s → row < 9 → col < 9 → get s row col ≠ 0%Z.
Proof.
  intros Hwf (Hs & Hext & Hnew) Hr Hc.
  destruct (decide (get g row col = 0%Z)) as [Hz|Hnz].
  - destruct (Hnew row col Hr Hc Hz) as [Hd _]. unfold isDigit in Hd. lia.
  - by rewrite Hext.
Qed.

Lemma fills_full (g s : Grid) :
  wf g → findEmptyCell g = None → fills g s ↔ s = g.
Proof.
  intros Hwf Hfull. pose proof (findEmptyCell_None g Hfull) as Hnz. split.
  - intros (Hs & Hext & _). apply grid_ext; auto.
  - intros ->. split; [done|]. split; [by intros ? ? ? ? ?|].
    intros row col Hr Hc Hz. by destruct (Hnz row col Hr Hc).
Qed.

(** One search step: the fillings of [g] are the fillings of the grids that
    place a digit accepted by [isValidMove] on an empty cell. *)
Lemma fills_step (g s : Grid) row col :
  wf g → row < 9 → col < 9 → get g row col = 0%Z →
  fills g s ↔
  ∃ num, In num digits ∧ isValidMove g row col num = true ∧
         fills (set g row col num) s ∧ get s row col = num.
Proof.
  intros Hwf Hr Hc Hz. split.
  - intros (Hs & Hext & Hnew). exists (get s row col).
    destruct (Hnew row col Hr Hc Hz) as [Hd Hclash].
    split; [by apply in_digits|]. split; [|split; [|done]].
    + apply isValidMove_spec; [done..|]. intros r c Hr' Hc' Hp Hv.
      assert (get g r c ≠ 0%Z) as Hnz by (unfold isDigit in Hd; lia).
      assert ((r, c) ≠ (row, col)) as Hne by (intros [= -> ->]; done).
      apply (Hclash r c Hr' Hc' Hne Hp). by rewrite Hext.
    + split; [done|]. split.
      * intros r c Hr' Hc' Hnz. destruct (decide ((row, col) = (r, c))) as [[= <- <-]|Hne].
        -- by rewrite get_set_eq.
        -- rewrite get_set_ne in * by done. by apply Hext.
      * intros r c Hr' Hc' Hz'. destruct (decide ((row, col) = (r, c))) as [[= <- <-]|Hne].
        -- rewrite get_set_eq in Hz' by done. unfold isDigit in Hd. lia.
        -- rewrite get_set_ne in Hz' by done. by apply Hnew.
  - intros (num & Hnum & Hvalid & (Hs & Hext & Hnew) & Hsv).
    apply in_digits in Hnum.
    assert (num ≠ 0%Z) as Hnum0 by (unfold isDigit in Hnum; lia).
    split; [done|]. split.
    + intros r c Hr' Hc' Hnz.
      assert ((row, col) ≠ (r, c)) as Hne by (intros [= <- <-]; done).
      rewrite <- (get_set_ne g row col num r c Hne).
      apply Hext; [done..|]. by rewrite get_set_ne.
    + intros r c Hr' Hc' Hz'. destruct (decide ((row, col) = (r, c))) as [[= <- <-]|Hne].
      * rewrite Hsv. split; [done|].
        intros r c Hr2 Hc2 Hne Hp. rewrite Hsv.
        destruct (decide (get (set g row col num) r c = 0%Z)) as [Hz2|Hnz2].
        -- destruct (Hnew r c Hr2 Hc2 Hz2) as [_ Hclash]. intros Heq.
           apply (Hclash row col Hr Hc); [congruence| |congruence].
           by rewrite peer_sym.
        -- rewrite (Hext r c Hr2 Hc2 Hnz2). rewrite get_set_ne by congruence.
           rewrite isValidMove_spec in Hvalid by done. by apply Hvalid.
      * apply Hnew; [done..|]. by rewrite get_set_ne.
Qed.

End Fills.

(* ===================================================================== *)
(** ** Backtracking helpers *)
(* ===================================================================== *)

Section Backtracking.

(** Backtracking: clearing the cell just tried gives the grid back. *)
Lemma set_clear (g : Grid) row col v :
  wf g → row < 9 → col < 9 → get g row col = 0%Z →
  set (set g row col v) row col 0 = g.
Proof. intros Hwf Hr Hc Hz. rewrite <- Hz. by apply set_restore. Qed.

Lemma fills_wf (g s : Grid) : fills g s → wf s.
Proof. by intros [? _]. Qed.

Lemma solved_wf (g : Grid) b g' : wf g → solved g b g' → wf g'.
Proof. intros Hwf. destruct b; simpl; [apply fills_wf|by intros [-> _]]. Qed.

Lemma digits_nonzero (num : Z) : In num digits → num ≠ 0%Z.
Proof. intros H%in_digits. unfold isDigit in H. lia. Qed.

End Backtracking.

(* ===================================================================== *)
(** ** The candidate loops *)
(* ===================================================================== *)

Section CandidateLoops.

(** The loops run at an empty cell (row, col) of a grid [g] with at most
    [n] empty cells; [n] bounds what the recursive calls are trusted for. *)
Context (n : nat) (g : Grid) (row col : nat).
Hypothesis Hwf : wf g.
Hypothesis Hrow : row < 9.
Hypothesis Hcol : col < 9.
Hypothesis Hempty : get g row col = 0%Z.
Hypothesis Hdepth : countEmpty g ≤ n.

Lemma tried_nil : tried g row col [] false g.
Proof. split; [done|]. by intros ? ? []. Qed.

Lemma tried_skip (num : Z) (rest : list Z) b g' :
  isValidMove g row col num = false →
  tried g row col rest b g' → tried g row col (num :: rest) b g'.
Proof.
  intros Hv. destruct b; simpl.
  - intros (x & Hx & ?). exists x. split; [by right|done].
  - intros [-> Hres]. split; [done|].
    intros x s [<-|Hx] Hvx; [congruence|by apply Hres].
Qed.

Lemma tried_backtrack (num : Z) (rest : list Z) b g' :
  (∀ s, ¬ fills (set g row col num) s) →
  tried g row col rest b g' → tried g row col (num :: rest) b g'.
Proof.
  intros Hnone. destruct b; simpl.
  - intros (x & Hx & ?). exists x. split; [by right|done].
  - intros [-> Hres]. split; [done|].
    intros x s [<-|Hx] Hvx; [apply Hnone|by apply Hres].
Qed.

Lemma placed_depth (num : Z) : num ≠ 0%Z → countEmpty (set g row col num) < n.
Proof. intros Hnum. pose proof (countEmpty_set g row col num Hwf Hrow Hcol Hempty Hnum). lia. Qed.

Lemma tryAscending_spec (rec : Grid → list Step → option (bool * Grid * list Step)) :
  (∀ g1 steps1, wf g1 → countEmpty g1 < n →
     ∃ b g' steps', rec g1 steps1 = Some (b, g', steps') ∧ solved g1 b g') →
  ∀ nums steps, (∀ num, In num nums → num ≠ 0%Z) →
  ∃ b g' steps',
    tryAscending rec row col nums g steps = Some (b, g', steps') ∧
    tried g row col nums b g'.
Proof.
  intros Hrec nums.
  induction nums as [|num rest IH]; intros steps Hnz; simpl.
  - exists false, g, steps. split; [done|apply tried_nil].
  - assert (∀ x, In x rest → x ≠ 0%Z) as Hnz' by (intros; apply Hnz; by right).
    destruct (isValidMove g row col num) eqn:Hv.
    + assert (num ≠ 0%Z) as Hnum by (apply Hnz; by left).
      destruct (Hrec (set g row col num) (steps ++ [mkStep row col num place]))
        as (b & g' & steps' & -> & Hsolved); [by apply wf_set|by apply placed_depth|].
      destruct b; simpl in Hsolved.
      * exists true, g', steps'. split; [done|]. exists num. auto with datatypes.
      * destruct Hsolved as [-> Hnone]. rewrite set_clear by done.
        destruct (IH (steps' ++ [mkStep row col 0 backtrack]) Hnz')
          as (b & g' & steps2 & -> & Hres).
        exists b, g', steps2. split; [done|by apply tried_backtrack].
    + destruct (IH steps Hnz') as (b & g' & steps2 & -> & Hres).
      exists b, g', steps2. split; [done|by apply tried_skip].
Qed.

Lemma tryShuffled_spec (rec : Grid → Rand → option (bool * Grid * Rand)) :
  (∀ g1 rnd1, wf g1 → countEmpty g1 < n →
     ∃ b g' rnd', rec g1 rnd1 = Some (b, g', rnd') ∧ solved g1 b g') →
  ∀ nums rnd, (∀ num, In num nums → num ≠ 0%Z) →
  ∃ b g' rnd',
    tryShuffled rec row col nums g rnd = Some (b, g', rnd') ∧
    tried g row col nums b g'.
Proof.
  intros Hrec nums.
  induction nums as [|num rest IH]; intros rnd Hnz; simpl.
  - exists false, g, rnd. split; [done|apply tried_nil].
  - assert (∀ x, In x rest → x ≠ 0%Z) as Hnz' by (intros; apply Hnz; by right).
    destruct (isValidMove g row col num) eqn:Hv.
    + assert (num ≠ 0%Z) as Hnum by (apply Hnz; by left).
      destruct (Hrec (set g row col num) rnd)
        as (b & g' & rnd' & -> & Hsolved); [by apply wf_set|by apply placed_depth|].
      destruct b; simpl in Hsolved.
      * exists true, g', rnd'. split; [done|]. exists num. auto with datatypes.
      * destruct Hsolved as [-> Hnone]. rewrite set_clear by done.
        destruct (IH rnd' Hnz') as (b & g' & rnd2 & -> & Hres).
        exists b, g', rnd2. split; [done|by apply tried_backtrack].
    + destruct (IH rnd Hnz') as (b & g' & rnd2 & -> & Hres).
      exists b, g', rnd2. split; [done|by apply tried_skip].
Qed.

(** A loop that tried all digits decides whether [g] can be filled. *)
Lemma tried_digits (nums : list Z) b g' :
  (∀ num, In num nums ↔ In num digits) →
  tried g row col nums b g' → solved g b g'.
Proof.
  intros Hmem. destruct b; simpl.
  - intros (num & Hnum & Hv & Hf).
    apply (fills_step g g' row col Hwf Hrow Hcol Hempty). exists num.
    split; [by apply Hmem|]. split; [done|]. split; [done|].
    destruct Hf as (Hs & Hext & _).
    rewrite Hext; [by rewrite get_set_eq|done|done|].
    rewrite get_set_eq by done. apply digits_nonzero. by apply Hmem.
  - intros [-> Hres]. split; [done|]. intros s Hs.
    apply (fills_step g s row col Hwf Hrow Hcol Hempty) in Hs
      as (num & Hnum & Hv & Hf & _).
    apply (Hres num s); [by apply Hmem|done..].
Qed.

(** The enumerating loop against a reference enumeration [E] of the
    recursive calls. *)
Lemma tryEnumerate_spec (rec : Grid → list Grid → option (Grid * list Grid * bool))
    (E : Grid → list Grid) (maxSolutions : nat) :
  (∀ g1 sols1, wf g1 → countEmpty g1 < n → length sols1 < maxSolutions →
     rec g1 sols1 =
     Some (g1, firstn maxSolutions (sols1 ++ E g1),
           length (sols1 ++ E g1) <? maxSolutions)) →
  ∀ nums sols, (∀ num, In num nums → num ≠ 0%Z) → length sols < maxSolutions →
  let found :=
    sols ++ flat_map (fun num => if isValidMove g row col num
                                 then E (set g row col num) else []) nums in
  tryEnumerate rec row col nums g sols =
  Some (g, firstn maxSolutions found, length found <? maxSolutions).
Proof.
  intros Hrec nums.
  induction nums as [|num rest IH]; intros sols Hnz Hlen found; subst found; simpl.
  - rewrite app_nil_r. rewrite firstn_all2 by lia.
    by rewrite (proj2 (Nat.ltb_lt _ _) Hlen).
  - assert (∀ x, In x rest → x ≠ 0%Z) as Hnz' by (intros; apply Hnz; by right).
    destruct (isValidMove g row col num) eqn:Hv; [|by apply IH].
    assert (num ≠ 0%Z) as Hnum by (apply Hnz; by left).
    rewrite Hrec; [|by apply wf_set|by apply placed_depth|done].
    rewrite set_clear by done. rewrite (app_assoc sols).
    destruct (length (sols ++ E (set g row col num)) <? maxSolutions) eqn:Hflag.
    + apply Nat.ltb_lt in Hflag. rewrite (firstn_all2 (n:=maxSolutions)) by lia.
      by apply IH.
    + apply Nat.ltb_ge in Hflag.
      rewrite (firstn_app maxSolutions (sols ++ E (set g row col num))).
      replace (maxSolutions - length (sols ++ E (set g row col num))) with 0 by lia.
      rewrite firstn_O, app_nil_r. f_equal. f_equal.
      symmetry. apply Nat.ltb_ge. rewrite length_app. lia.
Qed.

End CandidateLoops.

(* ===================================================================== *)
(** ** The two solvers *)
(* ===================================================================== *)

Section Solvers.

Lemma solvePuzzleWithSteps_S (fuel : nat) (g : Grid) (steps : list Step) :
  solvePuzzleWithSteps (S fuel) g steps =
  match findEmptyCell g with
  | None => Some (true, g, steps)
  | Some (row, col) => tryAscending (solvePuzzleWithSteps fuel) row col digits g steps
  end.
Proof. reflexivity. Qed.

(** [solvePuzzleWithSteps] returns whenever the fuel exceeds the number of
    empty cells, and then it is sound and complete. *)
Lemma solvePuzzleWithSteps_spec (fuel : nat) :
  ∀ g steps, wf g → countEmpty g < fuel →
  ∃ b g' steps', solvePuzzleWithSteps fuel g steps = Some (b, g', steps') ∧ solved g b g'.
Proof.
  induction fuel as [|fuel IH]; intros g steps Hwf Hfuel; [lia|].
  rewrite solvePuzzleWithSteps_S.
  destruct (findEmptyCell g) as [[row col]|] eqn:Hfind.
  - apply findEmptyCell_Some in Hfind as (Hr & Hc & Hz).
    destruct (tryAscending_spec fuel g row col Hwf Hr Hc Hz ltac:(lia)
                (solvePuzzleWithSteps fuel) IH digits steps digits_nonzero)
      as (b & g' & steps' & -> & Hres).
    exists b, g', steps'. split; [done|].
    by apply (tried_digits g row col Hwf Hr Hc Hz digits).
  - exists true, g, steps. split; [done|]. simpl. by apply fills_full.
Qed.

Lemma swap_In {A} (l : list A) (i j : nat) (x : A) : In x (swap l i j) ↔ In x l.
Proof.
  unfold swap. destruct (l !! i) as [a|] eqn:Hi; [|done].
  destruct (l !! j) as [b|] eqn:Hj; [|done].
  pose proof (lookup_lt_Some _ _ _ Hi) as Hli.
  pose proof (lookup_lt_Some _ _ _ Hj) as Hlj.
  rewrite <- !list_elem_of_In, !list_elem_of_lookup. split.
  - intros [k Hk]. destruct (decide (k = j)) as [->|Hkj].
    + rewrite list_lookup_insert_eq in Hk by (by rewrite length_insert).
      exists i. congruence.
    + rewrite list_lookup_insert_ne in Hk by done.
      destruct (decide (k = i)) as [->|Hki].
      * rewrite list_lookup_insert_eq in Hk by done. exists j. congruence.
      * rewrite list_lookup_insert_ne in Hk by done. eauto.
  - intros [k Hk]. destruct (decide (k = i)) as [->|Hki].
    + exists j. rewrite list_lookup_insert_eq by (by rewrite length_insert). congruence.
    + destruct (decide (k = j)) as [->|Hkj].
      * exists i. rewrite list_lookup_insert_ne by done.
        rewrite list_lookup_insert_eq by done. congruence.
      * exists k. by rewrite !list_lookup_insert_ne.
Qed.

Lemma shuffleFrom_In {A} (i : nat) :
  ∀ (l : list A) rnd x, In x (shuffleFrom i l rnd).1 ↔ In x l.
Proof.
  induction i as [|i IH]; intros l rnd x; [done|].
  simpl. rewrite IH. apply swap_In.
Qed.

(** The shuffled array holds the elements of the given one. *)
Lemma shuffleArray_In {A} (l : list A) rnd x : In x (shuffleArray l rnd).1 ↔ In x l.
Proof. apply shuffleFrom_In. Qed.

Lemma solvePuzzle_S (fuel : nat) (g : Grid) (rnd : Rand) :
  solvePuzzle (S fuel) g rnd =
  match findEmptyCell g with
  | None => Some (true, g, rnd)
  | Some (row, col) =>
      let '(numbers, rnd1) := shuffleArray digits rnd in
      tryShuffled (solvePuzzle fuel) row col numbers g rnd1
  end.
Proof. reflexivity. Qed.

(** [solvePuzzle] likewise, whatever the random draws. *)
Lemma solvePuzzle_spec (fuel : nat) :
  ∀ g rnd, wf g → countEmpty g < fuel →
  ∃ b g' rnd', solvePuzzle fuel g rnd = Some (b, g', rnd') ∧ solved g b g'.
Proof.
  induction fuel as [|fuel IH]; intros g rnd Hwf Hfuel; [lia|].
  rewrite solvePuzzle_S.
  destruct (findEmptyCell g) as [[row col]|] eqn:Hfind.
  - apply findEmptyCell_Some in Hfind as (Hr & Hc & Hz).
    pose proof (shuffleArray_In digits rnd) as Hmem.
    destruct (shuffleArray digits rnd) as [numbers rnd1]. simpl in Hmem.
    destruct (tryShuffled_spec fuel g row col Hwf Hr Hc Hz ltac:(lia)
                (solvePuzzle fuel) IH numbers rnd1)
      as (b & g' & rnd' & -> & Hres).
    { intros num Hnum. apply digits_nonzero. by apply Hmem. }
    exists b, g', rnd'. split; [done|].
    by apply (tried_digits g row col Hwf Hr Hc Hz numbers).
  - exists true, g, rnd. split; [done|]. simpl. by apply fills_full.
Qed.

End Solvers.

(* ===================================================================== *)
(** ** The bounded enumeration *)
(* ===================================================================== *)

Section Enumeration.

Lemma fills_set_value (g s : Grid) row col num :
  wf g → row < 9 → col < 9 → num ≠ 0%Z →
  fills (set g row col num) s → get s row col = num.
Proof.
  intros Hwf Hr Hc Hnum (_ & Hext & _).
  rewrite Hext; [by rewrite get_set_eq|done|done|].
  by rewrite get_set_eq.
Qed.

Lemma allSolutions_In (fuel : nat) :
  ∀ g s, wf g → countEmpty g < fuel → In s (allSolutions fuel g) ↔ fills g s.
Proof.
  induction fuel as [|fuel IH]; intros g s Hwf Hfuel; [lia|]. cbn [allSolutions].
  destruct (findEmptyCell g) as [[row col]|] eqn:Hfind.
  - apply findEmptyCell_Some in Hfind as (Hr & Hc & Hz).
    rewrite (fills_step g s row col Hwf Hr Hc Hz), in_flat_map.
    split; intros (num & Hnum & H); exists num; (split; [done|]).
    + destruct (isValidMove g row col num) eqn:Hv; [|done].
      pose proof (digits_nonzero num Hnum) as Hnz.
      pose proof (countEmpty_set g row col num Hwf Hr Hc Hz Hnz) as Hcnt.
      apply IH in H; [|by apply wf_set|lia].
      split; [done|]. split; [done|]. by apply (fills_set_value g).
    + destruct H as (Hv & Hf & _). rewrite Hv.
      pose proof (digits_nonzero num Hnum) as Hnz.
      pose proof (countEmpty_set g row col num Hwf Hr Hc Hz Hnz) as Hcnt.
      apply IH; [by apply wf_set|lia|done].
  - rewrite (fills_full g s Hwf Hfind). simpl. intuition.
Qed.

Lemma NoDup_flat_map_keyed {A B} (key : B → A) (f : A → list B) (l : list A) :
  List.NoDup l →
  (∀ a, In a l → List.NoDup (f a)) →
  (∀ a b, In a l → In b (f a) → key b = a) →
  List.NoDup (flat_map f l).
Proof.
  induction l as [|a l IH]; intros Hnd Hf Hkey; simpl; [constructor|].
  inversion Hnd as [|? ? Hnotin Hnd']; subst.
  apply List.NoDup_app.
  - apply Hf; by left.
  - apply IH; [done|intros; apply Hf; by right|intros; apply Hkey; [by right|done]].
  - intros b Hb Hb'. apply in_flat_map in Hb' as (a' & Ha' & Hb').
    assert (key b = a) by (apply Hkey; [by left|done]).
    assert (key b = a') by (apply Hkey; [by right|done]).
    congruence.
Qed.

Lemma digits_NoDup : List.NoDup digits.
Proof.
  unfold digits. repeat (constructor; [simpl; intros H; lia|]). constructor.
Qed.

Lemma allSolutions_NoDup (fuel : nat) :
  ∀ g, wf g → countEmpty g < fuel → List.NoDup (allSolutions fuel g).
Proof.
  induction fuel as [|fuel IH]; intros g Hwf Hfuel; [lia|]. cbn [allSolutions].
  destruct (findEmptyCell g) as [[row col]|] eqn:Hfind.
  - apply findEmptyCell_Some in Hfind as (Hr & Hc & Hz).
    apply (NoDup_flat_map_keyed (fun s => get s row col)); [apply digits_NoDup|..].
    + intros num Hnum. destruct (isValidMove g row col num); [|constructor].
      pose proof (digits_nonzero num Hnum) as Hnz.
      pose proof (countEmpty_set g row col num Hwf Hr Hc Hz Hnz) as Hcnt.
      apply IH; [by apply wf_set|lia].
    + intros num s Hnum Hs. destruct (isValidMove g row col num); [|done].
      pose proof (digits_nonzero num Hnum) as Hnz.
      pose proof (countEmpty_set g row col num Hwf Hr Hc Hz Hnz) as Hcnt.
      apply allSolutions_In in Hs; [|by apply wf_set|lia].
      by apply (fills_set_value g).
  - repeat constructor. by intros [].
Qed.

Lemma flat_map_ext_In {A B} (f f' : A → list B) (l : list A) :
  (∀ a, In a l → f a = f' a) → flat_map f l = flat_map f' l.
Proof.
  induction l as [|a l IH]; intros H; simpl; [done|].
  rewrite H by (by left). f_equal. apply IH. intros; apply H; by right.
Qed.

(** The fuel does not matter once it exceeds the number of empty cells. *)
Lemma allSolutions_fuel (fuel : nat) :
  ∀ fuel' g, wf g → countEmpty g < fuel → countEmpty g < fuel' →
  allSolutions fuel g = allSolutions fuel' g.
Proof.
  induction fuel as [|fuel IH]; intros fuel' g Hwf Hfuel Hfuel'; [lia|].
  destruct fuel' as [|fuel']; [lia|]. cbn [allSolutions].
  destruct (findEmptyCell g) as [[row col]|] eqn:Hfind; [|done].
  apply findEmptyCell_Some in Hfind as (Hr & Hc & Hz).
  apply flat_map_ext_In. intros num Hnum.
  destruct (isValidMove g row col num); [|done].
  pose proof (digits_nonzero num Hnum) as Hnz.
  pose proof (countEmpty_set g row col num Hwf Hr Hc Hz Hnz) as Hcnt.
  apply IH; [by apply wf_set|lia..].
Qed.

Lemma findAllSolutions_S (fuel : nat) (g : Grid) (solutions : list Grid) (maxSolutions : nat) :
  findAllSolutions (S fuel) g solutions maxSolutions =
  if maxSolutions <=? length solutions then Some (g, solutions, false)
  else
    match findEmptyCell g with
    | None =>
        let solutions' := solutions ++ [copyGrid g] in
        Some (g, solutions', length solutions' <? maxSolutions)
    | Some (row, col) =>
        tryEnumerate (fun g' sols => findAllSolutions fuel g' sols maxSolutions)
                     row col digits g solutions
    end.
Proof. reflexivity. Qed.

(** [findAllSolutions] leaves its grid as it found it and records the first
    [maxSolutions] entries of the exhaustive ascending enumeration. *)
Lemma findAllSolutions_spec (fuel maxSolutions : nat) :
  ∀ g sols, wf g → countEmpty g < fuel → length sols < maxSolutions →
  findAllSolutions fuel g sols maxSolutions =
  Some (g, firstn maxSolutions (sols ++ allSolutions fuel g),
        length (sols ++ allSolutions fuel g) <? maxSolutions).
Proof.
  induction fuel as [|fuel IH]; intros g sols Hwf Hfuel Hlen; [lia|].
  rewrite findAllSolutions_S. cbn [allSolutions].
  rewrite (proj2 (Nat.leb_gt _ _) Hlen).
  destruct (findEmptyCell g) as [[row col]|] eqn:Hfind.
  - apply findEmptyCell_Some in Hfind as (Hr & Hc & Hz).
    apply (tryEnumerate_spec fuel g row col Hwf Hr Hc Hz ltac:(lia) _
             (allSolutions fuel) maxSolutions IH); [apply digits_nonzero|done].
  - cbv zeta. rewrite copyGrid_id. f_equal. f_equal. f_equal.
    rewrite firstn_all2; [done|]. rewrite length_app. simpl. lia.
Qed.

End Enumeration.

(* ===================================================================== *)
(** ** Units and clashes *)
(* ===================================================================== *)

Section Units.

Lemma cellEq_eq (p q : nat * nat) : cellEq p q = true ↔ p = q.
Proof.
  destruct p, q. unfold cellEq. simpl. rewrite andb_true_iff, !Nat.eqb_eq.
  split; [intros [-> ->]; done|intros [= -> ->]; done].
Qed.

Lemma memCell_In (p : nat * nat) u : memCell p u = true ↔ In p u.
Proof.
  unfold memCell. rewrite existsb_exists. split.
  - intros (q & Hq & Heq). apply cellEq_eq in Heq. by subst.
  - intros H. exists p. split; [done|]. by apply cellEq_eq.
Qed.

Lemma nodupCells_NoDup u : nodupCells u = true → List.NoDup u.
Proof.
  induction u as [|p t IH]; simpl; [constructor|].
  intros [Hn Ht]%andb_true_iff. constructor; [|by apply IH].
  rewrite <- memCell_In. by destruct (memCell p t).
Qed.

(** The units are nine distinct cells of the grid. *)
Lemma unit_shape (u : list (nat * nat)) :
  In u allUnits → List.NoDup u ∧ length u = 9 ∧ ∀ p, In p u → In p cells.
Proof.
  assert (forallb (fun u => nodupCells u && (length u =? 9) &&
                            forallb (fun p => memCell p cells) u) allUnits = true)
    as H by (vm_compute; reflexivity).
  rewrite forallb_forall in H. intros Hu. specialize (H u Hu).
  apply andb_true_iff in H as [[H1 H2]%andb_true_iff H3].
  split; [by apply nodupCells_NoDup|]. split; [by apply Nat.eqb_eq|].
  rewrite forallb_forall in H3. intros p Hp. apply memCell_In. by apply H3.
Qed.

(** Two cells of one unit are peers. *)
Lemma unit_peers (u : list (nat * nat)) p q :
  In u allUnits → In p u → In q u → peer p.1 p.2 q.1 q.2 = true.
Proof.
  assert (forallb (fun u => forallb (fun p => forallb (fun q =>
            peer p.1 p.2 q.1 q.2) u) u) allUnits = true)
    as H by (vm_compute; reflexivity).
  rewrite forallb_forall in H. intros Hu Hp Hq. specialize (H u Hu).
  rewrite forallb_forall in H. specialize (H p Hp).
  rewrite forallb_forall in H. by apply H.
Qed.

(** Two peers lie in a common unit. *)
Lemma peers_unit (p q : nat * nat) :
  In p cells → In q cells → peer p.1 p.2 q.1 q.2 = true →
  ∃ u, In u allUnits ∧ In p u ∧ In q u.
Proof.
  assert (forallb (fun p => forallb (fun q =>
            implb (peer p.1 p.2 q.1 q.2)
                  (existsb (fun u => memCell p u && memCell q u) allUnits))
            cells) cells = true)
    as H by (vm_compute; reflexivity).
  rewrite forallb_forall in H. intros Hp Hq Hpeer. specialize (H p Hp).
  rewrite forallb_forall in H. specialize (H q Hq).
  rewrite Hpeer in H. cbn [implb] in H. apply existsb_exists in H as (u & Hu & H).
  apply andb_true_iff in H as [H1 H2]. exists u.
  by rewrite <- !memCell_In.
Qed.

Lemma occurrences_cons (v x : Z) (l : list Z) :
  occurrences v (x :: l) = (if Z.eqb v x then 1 else 0) + occurrences v l.
Proof. unfold occurrences. simpl. by destruct (Z.eqb v x). Qed.

Lemma occurrences_pos {A} (f : A → Z) (v : Z) (l : list A) (p : A) :
  In p l → f p = v → 1 ≤ occurrences v (map f l).
Proof.
  induction l as [|a l IH]; intros Hin Hv; [done|]. simpl.
  rewrite occurrences_cons. destruct Hin as [->|Hin].
  - rewrite Hv, Z.eqb_refl. lia.
  - specialize (IH Hin Hv). lia.
Qed.

(** A value occurs at most once in a unit iff no two cells of it hold it. *)
Lemma occurrences_le_1 {A} (f : A → Z) (v : Z) (l : list A) :
  List.NoDup l →
  occurrences v (map f l) ≤ 1 ↔
  ∀ p q, In p l → In q l → p ≠ q → f p = v → f q ≠ v.
Proof.
  intros Hnd. induction Hnd as [|a l Hnotin Hnd IH]; simpl.
  - split; [by intros _ ? ? []|intros _; unfold occurrences; simpl; lia].
  - rewrite occurrences_cons. split.
    + intros Hle p q [->|Hp] [->|Hq] Hne Hfp Hfq; [done|..].
      * rewrite Hfp, Z.eqb_refl in Hle.
        pose proof (occurrences_pos f v l q Hq Hfq). lia.
      * rewrite Hfq, Z.eqb_refl in Hle.
        pose proof (occurrences_pos f v l p Hp Hfp). lia.
      * assert (occurrences v (map f l) ≤ 1) as Hle' by lia.
        by apply (proj1 IH Hle' p q).
    + intros H. assert (occurrences v (map f l) ≤ 1) as Hle.
      { apply IH. intros p q Hp Hq. apply H; by right. }
      destruct (Z.eqb_spec v (f a)) as [Heq|Hne]; [|lia].
      assert (occurrences v (map f l) = 0); [|lia].
      destruct (occurrences v (map f l)) as [|n] eqn:Hocc; [done|exfalso].
      unfold occurrences in Hocc.
      destruct (List.filter (Z.eqb v) (map f l)) as [|x t] eqn:Hfil; [done|].
      assert (In x (List.filter (Z.eqb v) (map f l))) as Hx by (rewrite Hfil; by left).
      apply filter_In in Hx as [Hx Hvx]. apply Z.eqb_eq in Hvx. subst x.
      apply in_map_iff in Hx as (q & Hfq & Hq).
      apply (H a q); [by left|by right|by intros ->|done|done].
Qed.

End Units.

Section Pigeonhole.

Lemma isDigitb_spec (v : Z) : isDigitb v = true ↔ isDigit v.
Proof. unfold isDigitb, isDigit. rewrite andb_true_iff, !Z.leb_le. done. Qed.

Lemma digit_indicator (x : Z) :
  list_sum (map (fun v => if Z.eqb v x then 1 else 0) digits) =
  if isDigitb x then 1 else 0.
Proof.
  unfold digits. unfold list_sum; cbn [map fold_right].
  repeat (match goal with
          | |- context [Z.eqb ?d x] => destruct (Z.eqb_spec d x) as [<-|?]; [reflexivity|]
          end).
  destruct (isDigitb x) eqn:E; [|reflexivity].
  apply isDigitb_spec in E. unfold isDigit in E. lia.
Qed.

(** Counting the digits of a list value by value. *)
Lemma occurrences_sum (l : list Z) :
  list_sum (map (fun v => occurrences v l) digits) = length (List.filter isDigitb l).
Proof.
  induction l as [|x l IH]; [reflexivity|].
  cbn [List.filter]. pose proof (digit_indicator x) as Hx.
  unfold digits in *. unfold list_sum in *; cbn [map fold_right] in *. rewrite !occurrences_cons.
  revert Hx. destruct (isDigitb x); intros Hx; cbn [length]; lia.
Qed.

Lemma filter_length_all {A} (f : A → bool) (l : list A) :
  length (List.filter f l) = length l → ∀ x, In x l → f x = true.
Proof.
  induction l as [|a l IH]; intros Hlen x Hx; [done|]. simpl in Hlen.
  pose proof (filter_length_le f l) as Hle.
  destruct (f a) eqn:Ha; simpl in Hlen; [|lia].
  destruct Hx as [->|Hx]; [done|]. apply IH; [lia|done].
Qed.

Lemma filter_all_length {A} (f : A → bool) (l : list A) :
  (∀ x, In x l → f x = true) → length (List.filter f l) = length l.
Proof.
  induction l as [|a l IH]; intros H; [done|]. simpl.
  rewrite H by (by left). simpl. f_equal. apply IH. intros; apply H; by right.
Qed.

(** Nine cells holding each digit once hold nothing but digits. *)
Lemma exactly_once_digits (l : list Z) :
  length l = 9 → (∀ v, In v digits → occurrences v l = 1) →
  ∀ x, In x l → isDigit x.
Proof.
  intros Hlen Hocc x Hx. apply isDigitb_spec.
  apply (filter_length_all isDigitb l); [|done].
  rewrite <- occurrences_sum, Hlen. unfold digits in *. unfold list_sum; cbn [map fold_right].
  rewrite !Hocc; [reflexivity|simpl; tauto..].
Qed.

(** Nine digits, none of them twice, are each digit once. *)
Lemma at_most_once_exactly (l : list Z) :
  length l = 9 → (∀ x, In x l → isDigit x) →
  (∀ v, In v digits → occurrences v l ≤ 1) →
  ∀ v, In v digits → occurrences v l = 1.
Proof.
  intros Hlen Hd Hocc.
  pose proof (occurrences_sum l) as Hsum.
  rewrite (filter_all_length isDigitb l), Hlen in Hsum
    by (intros; apply isDigitb_spec; by apply Hd).
  unfold digits in *. unfold list_sum in Hsum; cbn [map fold_right] in Hsum.
  pose proof (Hocc 1%Z ltac:(simpl; tauto)). pose proof (Hocc 2%Z ltac:(simpl; tauto)).
  pose proof (Hocc 3%Z ltac:(simpl; tauto)). pose proof (Hocc 4%Z ltac:(simpl; tauto)).
  pose proof (Hocc 5%Z ltac:(simpl; tauto)). pose proof (Hocc 6%Z ltac:(simpl; tauto)).
  pose proof (Hocc 7%Z ltac:(simpl; tauto)). pose proof (Hocc 8%Z ltac:(simpl; tauto)).
  pose proof (Hocc 9%Z ltac:(simpl; tauto)).
  intros v Hv. simpl in Hv.
  destruct Hv as [<-|[<-|[<-|[<-|[<-|[<-|[<-|[<-|[<-|[]]]]]]]]]]; lia.
Qed.

End Pigeonhole.

Section Completions.

Lemma completeGrid_clashFree (s : Grid) :
  completeGrid s ↔
  wf s ∧ (∀ row col, row < 9 → col < 9 → isDigit (get s row col)) ∧
  (∀ row col, row < 9 → col < 9 → noClash s row col).
Proof.
  split.
  - intros (Hwf & Hnz & Hocc).
    assert (∀ row col, row < 9 → col < 9 → isDigit (get s row col)) as Hdig.
    { intros row col Hr Hc.
      destruct (peers_unit (row, col) (row, col)) as (u & Hu & Hp & _);
        [by apply in_cells..|unfold peer; simpl; by rewrite Nat.eqb_refl|].
      destruct (unit_shape u Hu) as (_ & Hlen & _).
      apply (exactly_once_digits (valuesOf s u)).
      - unfold valuesOf. by rewrite length_map.
      - intros v Hv. by apply Hocc.
      - unfold valuesOf. apply in_map_iff. by exists (row, col). }
    split; [done|]. split; [done|].
    intros row col Hr Hc r c Hr' Hc' Hne Hpeer.
    destruct (peers_unit (row, col) (r, c)) as (u & Hu & Hp & Hq);
      [by apply in_cells..|done|].
    destruct (unit_shape u Hu) as (Hnd & _ & _).
    assert (occurrences (get s row col) (valuesOf s u) ≤ 1) as Hle.
    { rewrite Hocc; [lia|done|]. apply in_digits. by apply Hdig. }
    unfold valuesOf in Hle. rewrite occurrences_le_1 in Hle by done.
    apply (Hle (row, col) (r, c)); [done|done|congruence|done].
  - intros (Hwf & Hdig & Hclash). split; [done|]. split.
    + intros row col Hr Hc. specialize (Hdig row col Hr Hc). unfold isDigit in Hdig. lia.
    + intros u v Hu Hv. destruct (unit_shape u Hu) as (Hnd & Hlen & Hcells).
      apply at_most_once_exactly; [unfold valuesOf; by rewrite length_map|..|done].
      * intros x Hx. unfold valuesOf in Hx. apply in_map_iff in Hx as ([r c] & <- & Hp).
        apply Hcells, in_cells in Hp as [Hr Hc]. by apply Hdig.
      * intros w Hw. unfold valuesOf. apply occurrences_le_1; [done|].
        intros [r c] [r' c'] Hp Hq Hne Hfp. simpl in *.
        pose proof (unit_peers u _ _ Hu Hp Hq) as Hpeer. simpl in Hpeer.
        apply Hcells, in_cells in Hp as [Hr Hc].
        apply Hcells, in_cells in Hq as [Hr' Hc'].
        rewrite <- Hfp. apply (Hclash r c Hr Hc r' c' Hr' Hc'); [congruence|done].
Qed.

(** No two filled peers of a grid satisfying the constraints hold the same digit. *)
Lemma atMostOnce_peers (g : Grid) row col r c :
  atMostOnce g → row < 9 → col < 9 → r < 9 → c < 9 →
  (r, c) ≠ (row, col) → peer row col r c = true → isDigit (get g row col) →
  get g r c ≠ get g row col.
Proof.
  intros Hg Hr Hc Hr' Hc' Hne Hpeer Hdig.
  destruct (peers_unit (row, col) (r, c)) as (u & Hu & Hp & Hq);
    [by apply in_cells..|done|].
  destruct (unit_shape u Hu) as (Hnd & _ & _).
  assert (occurrences (get g row col) (valuesOf g u) ≤ 1) as Hle
    by (apply Hg; [done|by apply in_digits]).
  unfold valuesOf in Hle. rewrite occurrences_le_1 in Hle by done.
  apply (Hle (row, col) (r, c)); [done|done|congruence|done].
Qed.

(** On a grid within the data model whose filled cells satisfy the
    constraints, what the searches look for is a completion. *)
Lemma fills_completion (g s : Grid) :
  wf g → inRange g → atMostOnce g → fills g s ↔ completion g s.
Proof.
  intros Hwf Hrange Hg. unfold completion. rewrite completeGrid_clashFree. split.
  - intros (Hs & Hext & Hnew).
    assert (∀ row col, row < 9 → col < 9 → isDigit (get s row col)) as Hdig.
    { intros row col Hr Hc. destruct (decide (get g row col = 0%Z)) as [Hz|Hnz].
      - by apply Hnew.
      - rewrite Hext by done. specialize (Hrange row col Hr Hc). unfold isDigit. lia. }
    split; [|done]. split; [done|]. split; [done|].
    intros row col Hr Hc. destruct (decide (get g row col = 0%Z)) as [Hz|Hnz].
    { by apply Hnew. }
    intros r c Hr' Hc' Hne Hpeer.
    destruct (decide (get g r c = 0%Z)) as [Hz'|Hnz'].
    + destruct (Hnew r c Hr' Hc' Hz') as [_ Hclash]. intros Heq.
      apply (Hclash row col Hr Hc); [congruence|by rewrite peer_sym|done].
    + rewrite !Hext by done. apply atMostOnce_peers; try done.
      rewrite <- Hext by done. by apply Hdig.
  - intros ((Hs & Hdig & Hclash) & Hext). split; [done|]. split; [done|].
    intros row col Hr Hc _. split; [by apply Hdig|by apply Hclash].
Qed.

Lemma wf_emptyGrid : wf emptyGrid.
Proof. apply wfb_wf. reflexivity. Qed.

End Completions.

(* ===================================================================== *)
(** ** Uniqueness check *)
(* ===================================================================== *)

Section Uniqueness.

Lemma countEmpty_le (g : Grid) : countEmpty g ≤ 81.
Proof. unfold countEmpty. apply (filter_length_le (isEmptyAt g) cells). Qed.

Lemma countEmpty_fuel (g : Grid) : countEmpty g < searchFuel.
Proof. pose proof (countEmpty_le g). unfold searchFuel. lia. Qed.

(** [hasUniqueSolution] always returns, with the grid it copied untouched,
    and says whether the exhaustive enumeration has exactly one entry. *)
Lemma hasUniqueSolution_allSolutions (g : Grid) :
  wf g → hasUniqueSolution g = Some (length (allSolutions searchFuel g) =? 1).
Proof.
  intros Hwf. unfold hasUniqueSolution. rewrite copyGrid_id.
  rewrite findAllSolutions_spec; [|done|apply countEmpty_fuel|simpl; lia].
  cbn [app]. f_equal. rewrite length_firstn.
  destruct (allSolutions searchFuel g) as [|a [|b l]]; reflexivity.
Qed.

Lemma length_one_unique {A} (l : list A) :
  List.NoDup l → length l = 1 ↔ ∃ x, In x l ∧ ∀ y, In y l → y = x.
Proof.
  intros Hnd. split.
  - destruct l as [|x [|y l]]; simpl; try lia. intros _. exists x.
    split; [by left|]. by intros y [->|[]].
  - intros (x & Hx & Hall). destruct l as [|a [|b l]]; [done|done|exfalso].
    assert (a = x) by (apply Hall; by left).
    assert (b = x) by (apply Hall; right; by left).
    subst. inversion Hnd as [|? ? Hnotin _]. apply Hnotin. by left.
Qed.

Lemma hasUniqueSolution_fills (g : Grid) :
  wf g →
  ∃ b, hasUniqueSolution g = Some b ∧
       (b = true ↔ ∃ s, fills g s ∧ ∀ s', fills g s' → s' = s).
Proof.
  intros Hwf. eexists. split; [by apply hasUniqueSolution_allSolutions|].
  rewrite Nat.eqb_eq.
  rewrite length_one_unique by (apply allSolutions_NoDup; [done|apply countEmpty_fuel]).
  split; intros (s & Hs & Hall); exists s.
  - split; [by apply (allSolutions_In searchFuel); [|apply countEmpty_fuel|]|].
    intros s' Hs'. apply Hall.
    by apply (allSolutions_In searchFuel); [|apply countEmpty_fuel|].
  - split; [by apply (allSolutions_In searchFuel); [|apply countEmpty_fuel|]|].
    intros s' Hs'. apply Hall.
    by apply (allSolutions_In searchFuel) in Hs'; [|done|apply countEmpty_fuel].
Qed.

(** A full grid is its own single filling, whatever it holds. *)
Lemma hasUniqueSolution_full (g : Grid) :
  wf g → findEmptyCell g = None → hasUniqueSolution g = Some true.
Proof.
  intros Hwf Hfull. rewrite hasUniqueSolution_allSolutions by done.
  unfold searchFuel. cbn [allSolutions]. by rewrite Hfull.
Qed.

End Uniqueness.

(* ===================================================================== *)
(** ** The executable checks *)
(* ===================================================================== *)

Section Checks.

Lemma inRangeb_spec (g : Grid) : inRangeb g = true ↔ inRange g.
Proof.
  unfold inRangeb, inRange. rewrite forallb_forall. split.
  - intros H row col Hr Hc.
    specialize (H (row, col) (proj2 (in_cells row col) (conj Hr Hc))). simpl in H. lia.
  - intros H [row col] Hin. apply in_cells in Hin as [Hr Hc].
    specialize (H row col Hr Hc). simpl. lia.
Qed.

Lemma atMostOnceb_spec (g : Grid) : atMostOnceb g = true ↔ atMostOnce g.
Proof.
  unfold atMostOnceb, atMostOnce. rewrite forallb_forall. split.
  - intros H u v Hu Hv. specialize (H u Hu). rewrite forallb_forall in H.
    apply Nat.leb_le. by apply H.
  - intros H u Hu. apply forallb_forall. intros v Hv. apply Nat.leb_le. by apply H.
Qed.

Lemma completeGridb_spec (g : Grid) : completeGridb g = true ↔ completeGrid g.
Proof.
  unfold completeGridb, completeGrid.
  rewrite !andb_true_iff, wfb_wf, !forallb_forall. split.
  - intros [[Hwf Hnz] Hocc]. split; [done|]. split.
    + intros row col Hr Hc.
      specialize (Hnz (row, col) (proj2 (in_cells row col) (conj Hr Hc))).
      unfold isEmptyAt in Hnz. simpl in Hnz. apply negb_true_iff, Z.eqb_neq in Hnz. done.
    + intros u v Hu Hv. specialize (Hocc u Hu). rewrite forallb_forall in Hocc.
      apply Nat.eqb_eq. by apply Hocc.
  - intros (Hwf & Hnz & Hocc). split; [split; [done|]|].
    + intros [row col] Hin. apply in_cells in Hin as [Hr Hc].
      unfold isEmptyAt. simpl. apply negb_true_iff, Z.eqb_neq. by apply Hnz.
    + intros u Hu. apply forallb_forall. intros v Hv. apply Nat.eqb_eq. by apply Hocc.
Qed.

Lemma extendsb_spec (g s : Grid) : extendsb g s = true ↔ extends g s.
Proof.
  unfold extendsb, extends. rewrite forallb_forall. split.
  - intros H row col Hr Hc Hnz.
    specialize (H (row, col) (proj2 (in_cells row col) (conj Hr Hc))).
    unfold isEmptyAt in H. simpl in H. apply orb_true_iff in H as [H|H]; lia.
  - intros H [row col] Hin. apply in_cells in Hin as [Hr Hc].
    unfold isEmptyAt. simpl. destruct (Z.eqb_spec (get g row col) 0); [done|].
    simpl. apply Z.eqb_eq. by apply H.
Qed.

Lemma completeGrid_canonical : completeGrid canonicalGrid.
Proof. apply completeGridb_spec. vm_compute. reflexivity. Qed.

(** The empty grid can be filled: the canonical grid is one way. *)
Lemma fills_emptyGrid_canonical : fills emptyGrid canonicalGrid.
Proof.
  apply fills_completion.
  - apply wf_emptyGrid.
  - apply inRangeb_spec. vm_compute. reflexivity.
  - apply atMostOnceb_spec. vm_compute. reflexivity.
  - split; [apply completeGrid_canonical|].
    apply extendsb_spec. vm_compute. reflexivity.
Qed.

End Checks.

(* ===================================================================== *)
(** ** validatePuzzle and isComplete *)
(* ===================================================================== *)

Section Validation.

(** Every cell visit of [validatePuzzle] hands the grid on as it got it. *)
Lemma validateCell_grid (g : Grid) (errs : list CellError) (p : nat * nat) :
  wf g → In p cells → (validateCell (g, errs) p).1 = g.
Proof.
  intros Hwf Hp. destruct p as [row col]. apply in_cells in Hp as [Hr Hc].
  unfold validateCell. destruct (Z.eqb (get g row col) 0); [done|].
  simpl. by apply set_restore.
Qed.

Lemma foldl_validateCell_grid (g : Grid) (l : list (nat * nat)) :
  wf g → (∀ p, In p l → In p cells) →
  ∀ errs, (foldl validateCell (g, errs) l).1 = g.
Proof.
  intros Hwf. induction l as [|p l IH]; intros Hl errs; [done|]. cbn [foldl].
  pose proof (validateCell_grid g errs p Hwf (Hl p ltac:(by left))) as Hg.
  destruct (validateCell (g, errs) p) as [g' errs']. simpl in Hg. subst g'.
  apply IH. intros; apply Hl; by right.
Qed.

Lemma validatePuzzle_grid (g : Grid) : wf g → (validatePuzzle g).1 = g.
Proof.
  intros Hwf. unfold validatePuzzle.
  pose proof (foldl_validateCell_grid g cells Hwf ltac:(done) []) as H.
  by destruct (foldl validateCell (g, []) cells).
Qed.

(** On a cell without a clash the visit records nothing. *)
Lemma validateCell_clean (g : Grid) (errs : list CellError) row col :
  wf g → row < 9 → col < 9 → noClash g row col →
  validateCell (g, errs) (row, col) = (g, errs).
Proof.
  intros Hwf Hr Hc Hclash. unfold validateCell.
  destruct (Z.eqb_spec (get g row col) 0) as [Hz|Hnz]; [done|]. simpl.
  rewrite set_restore by done.
  assert (isValidMove (set g row col 0) row col (get g row col) = true) as ->; [|done].
  apply isValidMove_spec; [done..|]. intros r c Hr' Hc' Hpeer.
  destruct (decide ((row, col) = (r, c))) as [[= <- <-]|Hne].
  - rewrite get_set_eq by done. congruence.
  - rewrite get_set_ne by done. apply Hclash; [done|done|congruence|done].
Qed.

Lemma validatePuzzle_clean (g : Grid) :
  wf g → (∀ row col, row < 9 → col < 9 → noClash g row col) →
  validatePuzzle g = (g, mkValidation true []).
Proof.
  intros Hwf Hclash. unfold validatePuzzle.
  assert (∀ l, (∀ p, In p l → In p cells) → foldl validateCell (g, []) l = (g, [])) as H.
  { induction l as [|[row col] l IH]; intros Hl; [done|]. cbn [foldl].
    destruct (proj1 (in_cells row col) (Hl _ ltac:(by left))) as [Hr Hc].
    rewrite validateCell_clean by auto. apply IH. intros; apply Hl; by right. }
  by rewrite H.
Qed.

Lemma existsb_isEmptyAt (g : Grid) :
  existsb (isEmptyAt g) cells = false ↔
  ∀ row col, row < 9 → col < 9 → get g row col ≠ 0%Z.
Proof.
  rewrite existsb_false. split.
  - intros H row col Hr Hc.
    specialize (H (row, col) (proj2 (in_cells row col) (conj Hr Hc))).
    unfold isEmptyAt in H. simpl in H. by apply Z.eqb_neq.
  - intros H [row col] Hin. apply in_cells in Hin as [Hr Hc].
    unfold isEmptyAt. simpl. apply Z.eqb_neq. by apply H.
Qed.

Lemma completeGrid_validates (g : Grid) :
  completeGrid g →
  validatePuzzle g = (g, mkValidation true []) ∧ isComplete g = (g, true).
Proof.
  intros Hcomplete. pose proof Hcomplete as (_ & Hnz & _).
  apply completeGrid_clashFree in Hcomplete as (Hwf & Hdig & Hclash).
  pose proof (validatePuzzle_clean g Hwf Hclash) as Hv. split; [done|].
  unfold isComplete. rewrite (proj2 (existsb_isEmptyAt g) Hnz). by rewrite Hv.
Qed.

End Validation.

(* ===================================================================== *)
(** ** getHint *)
(* ===================================================================== *)

Section Hints.

Lemma possibilityCount_le (g : Grid) (p : nat * nat) : possibilityCount g p ≤ 9.
Proof.
  unfold possibilityCount, getPossibleValues.
  apply (filter_length_le (fun num => isValidMove g p.1 p.2 num) digits).
Qed.

(** Nothing is below zero possibilities: the scan keeps its choice. *)
Lemma scanCells_zero (g : Grid) (cs : list (nat * nat)) best :
  scanCells g cs best 0 = (best, 0).
Proof. induction cs as [|cell rest IH]; [done|]. simpl. apply IH. Qed.

Lemma scanCells_spec (g : Grid) (cs : list (nat * nat)) :
  ∀ pre best m,
  2 ≤ m →
  (∀ q, In q pre → m ≤ possibilityCount g q) →
  match best with
  | None => pre = [] ∧ m = 10
  | Some p => ∃ l1 l2, pre = l1 ++ p :: l2 ∧ possibilityCount g p = m ∧
                       ∀ q, In q l1 → m < possibilityCount g q
  end →
  match (scanCells g cs best m).1 with
  | None => pre ++ cs = []
  | Some p => ∃ l1 l2, pre ++ cs = l1 ++ p :: l2 ∧ hintChoice g l1 p l2
  end.
Proof.
  induction cs as [|cell rest IH]; intros pre best m Hm Hpre Hbest.
  - simpl. rewrite app_nil_r. destruct best as [p|]; [|tauto].
    destruct Hbest as (l1 & l2 & -> & Hp & Hl1). exists l1, l2. split; [done|].
    right. rewrite Hp. split; [done|]. split; [done|].
    intros q Hq. apply Hpre. apply in_app_iff. right. by right.
  - cbn [scanCells]. fold (possibilityCount g cell).
    pose proof (possibilityCount_le g cell) as Hle.
    destruct (possibilityCount g cell <? m) eqn:Hlt.
    + apply Nat.ltb_lt in Hlt.
      assert (∀ q, In q pre → 2 ≤ possibilityCount g q) as Hpre2
        by (intros q Hq; specialize (Hpre q Hq); lia).
      destruct (possibilityCount g cell =? 1) eqn:Hone.
      { apply Nat.eqb_eq in Hone. simpl. exists pre, rest. split; [done|].
        left. split; [lia|done]. }
      apply Nat.eqb_neq in Hone.
      destruct (possibilityCount g cell) as [|k] eqn:Hk.
      { rewrite scanCells_zero. simpl. exists pre, rest. split; [done|].
        left. split; [lia|done]. }
      rewrite <- Hk in *.
      specialize (IH (pre ++ [cell]) (Some cell) (possibilityCount g cell)).
      rewrite <- app_assoc in IH. apply IH; [lia| |].
      * intros q [Hq|[<-|[]]]%in_app_iff; [|lia]. specialize (Hpre q Hq). lia.
      * exists pre, []. split; [done|]. split; [done|].
        intros q Hq. specialize (Hpre q Hq). lia.
    + apply Nat.ltb_ge in Hlt.
      specialize (IH (pre ++ [cell]) best m). rewrite <- app_assoc in IH.
      apply IH; [done| |].
      * intros q [Hq|[<-|[]]]%in_app_iff; [by apply Hpre|done].
      * destruct best as [p|]; [|lia].
        destruct Hbest as (l1 & l2 & -> & Hp & Hl1).
        exists l1, (l2 ++ [cell]). by rewrite <- app_assoc.
Qed.

Lemma getHint_None (sol g : Grid) : getHint sol g = None ↔ emptyCellsOf g = [].
Proof.
  unfold getHint. fold (emptyCellsOf g).
  pose proof (scanCells_spec g (emptyCellsOf g) [] None 10 ltac:(lia)
                ltac:(by intros ? []) ltac:(done)) as H.
  destruct (emptyCellsOf g) as [|c l] eqn:E; [done|].
  cbn [length Nat.eqb]. cbn [app] in H.
  destruct (scanCells g (c :: l) None 10).1 as [[row col]|]; [done|done].
Qed.

Lemma getHint_Some (sol g : Grid) (h : Hint) :
  getHint sol g = Some h →
  hint_value h = get sol (hint_row h) (hint_col h) ∧
  ∃ l1 l2, emptyCellsOf g = l1 ++ (hint_row h, hint_col h) :: l2 ∧
           hintChoice g l1 (hint_row h, hint_col h) l2.
Proof.
  unfold getHint. fold (emptyCellsOf g).
  pose proof (scanCells_spec g (emptyCellsOf g) [] None 10 ltac:(lia)
                ltac:(by intros ? []) ltac:(done)) as H.
  destruct (length (emptyCellsOf g) =? 0); [done|]. cbn [app] in H.
  destruct (scanCells g (emptyCellsOf g) None 10).1 as [[row col]|]; [|done].
  intros [= <-]. simpl. done.
Qed.

Lemma emptyCellsOf_In (g : Grid) row col :
  In (row, col) (emptyCellsOf g) ↔ row < 9 ∧ col < 9 ∧ get g row col = 0%Z.
Proof.
  unfold emptyCellsOf. rewrite filter_In, in_cells. unfold isEmptyAt. simpl.
  rewrite Z.eqb_eq. tauto.
Qed.

End Hints.

(* ===================================================================== *)
(** ** shuffleGrid keeps a complete grid complete *)
(* ===================================================================== *)

Section Shuffle.

Lemma shuffleArray_three {A} (a b c : A) (rnd : Rand) :
  In (shuffleArray [a; b; c] rnd).1 (orders3 a b c).
Proof.
  unfold shuffleArray, orders3. cbn [length Nat.sub shuffleFrom randomBelow Nat.add].
  pose proof (Nat.mod_upper_bound (rnd 0) 3 ltac:(lia)) as H1.
  pose proof (Nat.mod_upper_bound (rnd 1) 2 ltac:(lia)) as H2.
  destruct (rnd 0 mod 3) as [|[|[|?]]]; [| | |lia];
    (destruct (rnd 1 mod 2) as [|[|?]]; [| |lia]); simpl; tauto.
Qed.

Lemma list9 {A} (l : list A) :
  length l = 9 →
  ∃ a0 a1 a2 a3 a4 a5 a6 a7 a8, l = [a0; a1; a2; a3; a4; a5; a6; a7; a8].
Proof.
  intros H. do 9 (destruct l as [|? l]; [done|]). destruct l; [|done].
  by do 9 eexists.
Qed.

Lemma bandPerm_group (k : nat) (sh : list nat) :
  k < 3 → In sh (orders3 (k * 3) (k * 3 + 1) (k * 3 + 2)) →
  bandPerm (groupPerm k sh) = true.
Proof.
  intros Hk Hsh. destruct k as [|[|[|?]]]; [| | |lia];
    simpl in Hsh; intuition (subst; vm_compute; reflexivity).
Qed.

Lemma shuffleRowGroup_map (k : nat) (g : Grid) (rnd : Rand) :
  length g = 9 → k < 3 →
  (shuffleRowGroup k g rnd).1 =
  map (fun x => nth x g []) (groupPerm k (shuffleArray [k * 3; k * 3 + 1; k * 3 + 2] rnd).1).
Proof.
  intros Hlen Hk. unfold shuffleRowGroup. rewrite copyGrid_id.
  pose proof (shuffleArray_three (k * 3) (k * 3 + 1) (k * 3 + 2) rnd) as Hsh.
  destruct (shuffleArray [k * 3; k * 3 + 1; k * 3 + 2] rnd) as [sh rnd'].
  cbn [fst] in *.
  destruct (list9 g Hlen) as (r0 & r1 & r2 & r3 & r4 & r5 & r6 & r7 & r8 & ->).
  destruct k as [|[|[|?]]]; [| | |lia];
    simpl in Hsh; intuition (subst; reflexivity).
Qed.

Lemma shuffleColRow_map (k : nat) (sh : list nat) (cs : list Z) :
  length cs = 9 → k < 3 → In sh (orders3 (k * 3) (k * 3 + 1) (k * 3 + 2)) →
  foldl (fun acc i => <[k * 3 + i := nth (nth i sh 0) cs 0%Z]> acc) cs (seq 0 3) =
  map (fun x => nth x cs 0%Z) (groupPerm k sh).
Proof.
  intros Hlen Hk Hsh.
  destruct (list9 cs Hlen) as (r0 & r1 & r2 & r3 & r4 & r5 & r6 & r7 & r8 & ->).
  destruct k as [|[|[|?]]]; [| | |lia];
    simpl in Hsh; intuition (subst; reflexivity).
Qed.

Lemma nth_insert_row (g : Grid) (row : nat) (cs : list Z) :
  row < length g → nth row (<[row := cs]> g) [] = cs.
Proof. intros H. apply nth_lookup_Some. by apply list_lookup_insert_eq. Qed.

(** Three writes to one row are one write of the row. *)
Lemma set_row_fold (g : Grid) (row : nat) (f : nat → nat) (tempRow : list Z) (l : list nat) :
  row < length g →
  foldl (fun acc i => set acc row (f i) (nth (nth i l 0) tempRow 0%Z)) g (seq 0 3) =
  <[row := foldl (fun acc i => <[f i := nth (nth i l 0) tempRow 0%Z]> acc)
                 (nth row g []) (seq 0 3)]> g.
Proof.
  intros Hrow. cbn [seq foldl]. unfold set.
  rewrite !nth_insert_row by (rewrite ?length_insert; done).
  by rewrite !list_insert_insert_eq.
Qed.

Lemma foldl_ext_inv {A B} (P : A → Prop) (f f' : A → B → A) (l : list B) :
  (∀ acc x, In x l → P acc → f acc x = f' acc x) →
  (∀ acc x, In x l → P acc → P (f' acc x)) →
  ∀ a, P a → foldl f a l = foldl f' a l.
Proof.
  induction l as [|x l IH]; intros Heq Hinv a Ha; [done|]. cbn [foldl].
  rewrite Heq by (done || by left). apply IH.
  - intros; apply Heq; [by right|done].
  - intros; apply Hinv; [by right|done].
  - apply Hinv; [by left|done].
Qed.

Lemma foldl_rows (F : list Z → list Z) (g : Grid) :
  length g = 9 →
  foldl (fun acc row => <[row := F (nth row acc [])]> acc) g (seq 0 9) = map F g.
Proof.
  intros Hlen.
  destruct (list9 g Hlen) as (r0 & r1 & r2 & r3 & r4 & r5 & r6 & r7 & r8 & ->).
  reflexivity.
Qed.

Lemma shuffleColGroup_map (k : nat) (g : Grid) (rnd : Rand) :
  wf g → k < 3 →
  (shuffleColGroup k g rnd).1 =
  map (fun row => map (fun x => nth x row 0%Z)
                      (groupPerm k (shuffleArray [k * 3; k * 3 + 1; k * 3 + 2] rnd).1)) g.
Proof.
  intros [Hlen Hrows] Hk. unfold shuffleColGroup.
  pose proof (shuffleArray_three (k * 3) (k * 3 + 1) (k * 3 + 2) rnd) as Hsh.
  destruct (shuffleArray [k * 3; k * 3 + 1; k * 3 + 2] rnd) as [sh rnd'].
  cbn [fst] in *.
  pose (F := fun cs : list Z =>
               foldl (fun a i => <[k * 3 + i := nth (nth i sh 0) cs 0%Z]> a) cs (seq 0 3)).
  transitivity (map F g).
  - rewrite <- (foldl_rows F g Hlen).
    apply (foldl_ext_inv (fun acc : Grid => length acc = 9)); [| |done].
    + intros acc row Hrow%in_seq Hacc. cbv beta zeta.
      rewrite (set_row_fold acc row (fun i => k * 3 + i)) by lia. done.
    + intros acc row _ Hacc. by rewrite length_insert.
  - apply map_ext_in. intros cs Hcs. unfold F.
    apply shuffleColRow_map; [|done..].
    rewrite List.Forall_forall in Hrows. by apply Hrows.
Qed.

Lemma bandMap_id : bandMap (fun r => r).
Proof. split; [intros; split; [done|done]|done]. Qed.

Lemma bandPerm_bandMap (perm : list nat) :
  bandPerm perm = true → length perm = 9 ∧ bandMap (fun r => nth r perm 0).
Proof.
  unfold bandPerm. intros [Hlen H]%andb_true_iff. apply Nat.eqb_eq in Hlen.
  rewrite forallb_forall in H. split; [done|]. split.
  - intros r Hr. specialize (H r ltac:(apply in_seq; lia)).
    apply andb_true_iff in H as [[H1 H2]%andb_true_iff _].
    apply Nat.ltb_lt in H1. apply Nat.eqb_eq in H2. done.
  - intros r r' Hr Hr' Heq. specialize (H r ltac:(apply in_seq; lia)).
    apply andb_true_iff in H as [_ H]. rewrite forallb_forall in H.
    specialize (H r' ltac:(apply in_seq; lia)).
    rewrite Heq, Nat.eqb_refl in H. simpl in H. by apply Nat.eqb_eq.
Qed.

Lemma peer_bandMap (ρ κ : nat → nat) row col r c :
  bandMap ρ → bandMap κ → row < 9 → col < 9 → r < 9 → c < 9 →
  peer row col r c = true → peer (ρ row) (κ col) (ρ r) (κ c) = true.
Proof.
  intros [Hρ _] [Hκ _] Hrow Hcol Hr Hc. unfold peer.
  destruct (Hρ row Hrow) as [_ E1]. destruct (Hρ r Hr) as [_ E2].
  destruct (Hκ col Hcol) as [_ E3]. destruct (Hκ c Hc) as [_ E4].
  rewrite E1, E2, E3, E4.
  intros [[->%Nat.eqb_eq| ->%Nat.eqb_eq]%orb_true_iff|H]%orb_true_iff.
  - by rewrite Nat.eqb_refl.
  - by rewrite Nat.eqb_refl, orb_true_r.
  - rewrite H. by rewrite orb_true_r.
Qed.

(** Moving rows and columns within their bands keeps a grid complete. *)
Lemma clashFree_transport (ρ κ : nat → nat) (g g' : Grid) :
  bandMap ρ → bandMap κ → wf g' →
  (∀ row col, row < 9 → col < 9 → get g' row col = get g (ρ row) (κ col)) →
  clashFree g → clashFree g'.
Proof.
  intros Hρ Hκ Hwf' Hget (Hwf & Hdig & Hclash).
  pose proof Hρ as [Hρ1 Hρ2]. pose proof Hκ as [Hκ1 Hκ2].
  split; [done|]. split.
  - intros row col Hr Hc. rewrite Hget by done.
    apply Hdig; [by apply Hρ1|by apply Hκ1].
  - intros row col Hrow Hcol r c Hr Hc Hne Hpeer. rewrite !Hget by done.
    apply Hclash; [by apply Hρ1|by apply Hκ1|by apply Hρ1|by apply Hκ1| |].
    + intros [= E1 E2]. apply Hne. f_equal; [by apply Hρ2|by apply Hκ2].
    + by apply peer_bandMap.
Qed.

Lemma rowPerm_clashFree (perm : list nat) (g : Grid) :
  bandPerm perm = true → clashFree g →
  clashFree (map (fun x => nth x g []) perm).
Proof.
  intros [Hlen Hσ]%bandPerm_bandMap Hg. pose proof Hg as (Hwf & _).
  assert (∀ row, row < 9 →
            nth row (map (fun x => nth x g []) perm) [] = nth (nth row perm 0) g []) as Hrow.
  { intros row Hr.
    rewrite (nth_indep _ [] ((fun x => nth x g []) 0)) by (rewrite length_map; lia).
    apply (map_nth (fun x => nth x g [])). }
  apply (clashFree_transport (fun r => nth r perm 0) (fun c => c) g);
    [done|apply bandMap_id| |by intros row col Hr Hc; unfold get; rewrite Hrow|done].
  split; [by rewrite length_map|]. apply List.Forall_forall. intros cs Hcs.
  apply in_map_iff in Hcs as (x & <- & Hx).
  apply (In_nth _ _ 0) in Hx as (i & Hi & <-).
  destruct Hσ as [Hσ _]. destruct (Hσ i ltac:(lia)) as [Hlt _].
  destruct (wf_row g _ Hwf Hlt) as (cs & Hcs & Hl).
  by rewrite (nth_lookup_Some _ _ _ _ Hcs).
Qed.

Lemma colPerm_clashFree (perm : list nat) (g : Grid) :
  bandPerm perm = true → clashFree g →
  clashFree (map (fun row => map (fun x => nth x row 0%Z) perm) g).
Proof.
  intros [Hlen Hσ]%bandPerm_bandMap Hg. pose proof Hg as (Hwf & _).
  pose proof Hwf as [Hglen _].
  apply (clashFree_transport (fun r => r) (fun c => nth c perm 0) g);
    [apply bandMap_id|done| | |done].
  - split; [by rewrite length_map|]. apply List.Forall_forall. intros cs Hcs.
    apply in_map_iff in Hcs as (x & <- & Hx). by rewrite length_map.
  - intros row col Hr Hc. unfold get.
    rewrite (nth_indep _ [] ((fun row => map (fun x => nth x row 0%Z) perm) []))
      by (rewrite length_map; lia).
    rewrite (map_nth (fun row => map (fun x => nth x row 0%Z) perm)).
    rewrite (nth_indep _ 0%Z ((fun x => nth x (nth row g []) 0%Z) 0))
      by (rewrite length_map; lia).
    apply (map_nth (fun x => nth x (nth row g []) 0%Z)).
Qed.

Lemma clashFree_wf (g : Grid) : clashFree g → wf g.
Proof. by intros [? _]. Qed.

Lemma shuffleRowGroup_clashFree (k : nat) (g : Grid) (rnd : Rand) :
  k < 3 → clashFree g → clashFree (shuffleRowGroup k g rnd).1.
Proof.
  intros Hk Hg. pose proof (clashFree_wf g Hg) as [Hlen _].
  rewrite shuffleRowGroup_map by done.
  apply rowPerm_clashFree; [|done].
  apply bandPerm_group; [done|apply shuffleArray_three].
Qed.

Lemma shuffleColGroup_clashFree (k : nat) (g : Grid) (rnd : Rand) :
  k < 3 → clashFree g → clashFree (shuffleColGroup k g rnd).1.
Proof.
  intros Hk Hg. rewrite shuffleColGroup_map by (done || by apply clashFree_wf).
  apply colPerm_clashFree; [|done].
  apply bandPerm_group; [done|apply shuffleArray_three].
Qed.

Lemma foldl_groups_clashFree (step : nat → Grid → Rand → Grid * Rand) (l : list nat) :
  (∀ k g rnd, k < 3 → clashFree g → clashFree (step k g rnd).1) →
  (∀ k, In k l → k < 3) →
  ∀ st : Grid * Rand,
    clashFree st.1 → clashFree (foldl (fun st k => step k st.1 st.2) st l).1.
Proof.
  intros Hstep. induction l as [|k l IH]; intros Hl st Hst; [done|]. cbn [foldl].
  apply IH; [intros; apply Hl; by right|].
  apply Hstep; [apply Hl; by left|done].
Qed.

Lemma shuffleGrid_clashFree (g : Grid) (rnd : Rand) :
  clashFree g → clashFree (shuffleGrid g rnd).1.
Proof.
  intros Hg. unfold shuffleGrid.
  pose proof (foldl_groups_clashFree shuffleRowGroup (seq 0 3)
                shuffleRowGroup_clashFree ltac:(intros k Hk%in_seq; lia) (g, rnd) Hg) as H1.
  destruct (foldl _ (g, rnd) (seq 0 3)) as [g1 rnd1].
  apply (foldl_groups_clashFree shuffleColGroup (seq 0 3)
           shuffleColGroup_clashFree ltac:(intros k Hk%in_seq; lia) (g1, rnd1) H1).
Qed.

(** [generateCompleteGrid] always returns, with a complete grid. *)
Lemma generateCompleteGrid_complete (rnd : Rand) :
  ∃ g rnd', generateCompleteGrid rnd = Some (g, rnd') ∧ completeGrid g.
Proof.
  unfold generateCompleteGrid.
  destruct (solvePuzzle_spec searchFuel emptyGrid rnd wf_emptyGrid
              (countEmpty_fuel emptyGrid)) as (b & g & rnd1 & -> & Hsolved).
  destruct (shuffleGrid g rnd1) as [g' rnd'] eqn:Hshuffle.
  exists g', rnd'. split; [done|].
  destruct b; simpl in Hsolved.
  - apply completeGrid_clashFree. change g' with (g', rnd').1.
    rewrite <- Hshuffle. apply shuffleGrid_clashFree.
    destruct Hsolved as (Hwf & _ & Hnew). split; [done|].
    assert (∀ row col, row < 9 → col < 9 → get emptyGrid row col = 0%Z) as Hempty.
    { intros row col Hr Hc.
      assert (forallb (isEmptyAt emptyGrid) cells = true) as H by (vm_compute; reflexivity).
      rewrite forallb_forall in H.
      specialize (H (row, col) (proj2 (in_cells row col) (conj Hr Hc))).
      unfold isEmptyAt in H. simpl in H. by apply Z.eqb_eq. }
    split; intros row col Hr Hc; by apply Hnew; [| |apply Hempty].
  - destruct Hsolved as [_ Hnone]. destruct (Hnone _ fills_emptyGrid_canonical).
Qed.

End Shuffle.

(* ===================================================================== *)
(** ** createPuzzle and generatePuzzle *)
(* ===================================================================== *)

Section Generation.

Lemma filter_partition_length {A} (f : A → bool) (l : list A) :
  length (List.filter (fun x => negb (f x)) l) + length (List.filter f l) = length l.
Proof.
  induction l as [|a l IH]; [done|]. simpl. destruct (f a); simpl; lia.
Qed.

Lemma clueCount_countEmpty (g : Grid) : clueCount g + countEmpty g = 81.
Proof. unfold clueCount, countEmpty. by rewrite filter_partition_length. Qed.

Lemma randomBelow_lt (n : nat) (rnd : Rand) : 0 < n → (randomBelow n rnd).1 < n.
Proof. intros H. unfold randomBelow. simpl. apply Nat.mod_upper_bound. lia. Qed.

Lemma removalLoop_eq (fuel : nat) (cellsToRemove : option nat) (s : RemovalState) :
  removalLoop fuel cellsToRemove s =
  if belowTarget (r_removed s) cellsToRemove && (r_attempts s <? 1000) then
    match fuel with
    | 0 => None
    | S fuel' =>
        let '(row, rnd1) := randomBelow 9 (r_rnd s) in
        let '(col, rnd2) := randomBelow 9 rnd1 in
        let g := r_grid s in
        if negb (Z.eqb (get g row col) 0) then
          let backup := get g row col in
          let g1 := set g row col 0 in
          match hasUniqueSolution g1 with
          | None => None
          | Some true =>
              removalLoop fuel' cellsToRemove
                (mkRemoval g1 (r_attempts s + 1) (r_removed s + 1) rnd2)
          | Some false =>
              removalLoop fuel' cellsToRemove
                (mkRemoval (set g1 row col backup) (r_attempts s + 1) (r_removed s) rnd2)
          end
        else
          removalLoop fuel' cellsToRemove
            (mkRemoval g (r_attempts s + 1) (r_removed s) rnd2)
    end
  else Some s.
Proof. destruct fuel; reflexivity. Qed.

(** The loop returns, keeps its invariant, and stops with the target
    reached or the 1000 attempts used. *)
Lemma removalLoop_spec (sol : Grid) (target : nat) (fuel : nat) :
  ∀ s, removalInv sol target s → 1000 ≤ r_attempts s + fuel →
  ∃ s', removalLoop fuel (Some target) s = Some s' ∧ removalInv sol target s' ∧
        (r_removed s' = target ∨ r_attempts s' = 1000).
Proof.
  induction fuel as [|fuel IH]; intros s Hinv Hfuel; rewrite removalLoop_eq;
    pose proof Hinv as (Hwf & Hext & Huniq & Hrem & Hatt & Hcnt); cbn [belowTarget].
  - destruct (r_removed s <? target) eqn:E1; [|exists s; apply Nat.ltb_ge in E1; split; [done|split; [done|lia]]].
    destruct (r_attempts s <? 1000) eqn:E2; [apply Nat.ltb_lt in E2; lia|].
    exists s. apply Nat.ltb_ge in E2. simpl. split; [done|split; [done|lia]].
  - destruct (r_removed s <? target) eqn:E1; [|exists s; apply Nat.ltb_ge in E1; split; [done|split; [done|lia]]].
    destruct (r_attempts s <? 1000) eqn:E2;
      [|exists s; apply Nat.ltb_ge in E2; simpl; split; [done|split; [done|lia]]].
    apply Nat.ltb_lt in E1, E2. cbn [andb].
    pose proof (randomBelow_lt 9 (r_rnd s) ltac:(lia)) as Hr.
    destruct (randomBelow 9 (r_rnd s)) as [row rnd1]. cbn [fst] in Hr.
    pose proof (randomBelow_lt 9 rnd1 ltac:(lia)) as Hc.
    destruct (randomBelow 9 rnd1) as [col rnd2]. cbn [fst] in Hc. cbv zeta.
    destruct (Z.eqb_spec (get (r_grid s) row col) 0) as [Hz|Hnz]; cbn [negb].
    + apply IH; [|simpl; lia]. unfold removalInv. simpl. split_and!; try done; lia.
    + pose proof (wf_set (r_grid s) row col 0 Hwf) as Hwf1.
      rewrite (hasUniqueSolution_allSolutions _ Hwf1).
      destruct (length (allSolutions searchFuel (set (r_grid s) row col 0)) =? 1) eqn:Hu.
      * apply IH; [|simpl; lia]. split; [done|]. split; [|split; [|split; [|split]]]; simpl.
        -- intros r c Hr' Hc' Hne.
           destruct (decide ((row, col) = (r, c))) as [[= <- <-]|Hcell].
           ++ by rewrite get_set_eq in Hne.
           ++ rewrite get_set_ne in * by done. by apply Hext.
        -- rewrite (hasUniqueSolution_allSolutions _ Hwf1). by rewrite Hu.
        -- lia.
        -- lia.
        -- pose proof (countEmpty_set (set (r_grid s) row col 0) row col
                         (get (r_grid s) row col) Hwf1 Hr Hc
                         ltac:(by rewrite get_set_eq) Hnz) as Hc1.
           rewrite set_restore in Hc1 by done. lia.
      * rewrite set_restore by done. apply IH; [|simpl; lia].
        unfold removalInv. simpl. split_and!; try done; lia.
Qed.

(** A puzzle inside a complete grid is within the data model and satisfies
    the constraints. *)
Lemma subgrid_consistent (g sol : Grid) :
  wf g → completeGrid sol → extends g sol → inRange g ∧ atMostOnce g.
Proof.
  intros Hwf Hsol Hext. apply completeGrid_clashFree in Hsol as (Hs & Hdig & Hclash).
  split.
  - intros row col Hr Hc. destruct (decide (get g row col = 0%Z)) as [->|Hnz]; [lia|].
    rewrite <- Hext by done. specialize (Hdig row col Hr Hc). unfold isDigit in Hdig. lia.
  - intros u v Hu Hv. destruct (unit_shape u Hu) as (Hnd & _ & Hcells).
    unfold valuesOf. apply occurrences_le_1; [done|].
    intros [r c] [r' c'] Hp Hq Hne Hfp Hfq. simpl in *.
    pose proof (unit_peers u _ _ Hu Hp Hq) as Hpeer. simpl in Hpeer.
    apply Hcells, in_cells in Hp as [Hr Hc]. apply Hcells, in_cells in Hq as [Hr' Hc'].
    pose proof (digits_nonzero v Hv) as Hv0.
    apply (Hclash r c Hr Hc r' c' Hr' Hc'); [congruence|done|].
    rewrite !Hext by congruence. congruence.
Qed.

Lemma completeGrid_full (g : Grid) : completeGrid g → findEmptyCell g = None.
Proof. intros (_ & Hnz & _). by apply findEmptyCell_None_iff. Qed.

Lemma countEmpty_full (g : Grid) : findEmptyCell g = None → countEmpty g = 0.
Proof.
  intros H. unfold countEmpty, findEmptyCell in *.
  destruct (List.filter (isEmptyAt g) cells) as [|p l] eqn:E; [done|].
  assert (In p (List.filter (isEmptyAt g) cells)) as Hp by (rewrite E; by left).
  apply filter_In in Hp as [Hp He]. by rewrite (find_none _ _ H p Hp) in He.
Qed.

Lemma extends_refl (g : Grid) : extends g g.
Proof. by intros ? ? ? ? ?. Qed.

(** A run of [generatePuzzle] with one of the engine's own settings. *)
Lemma generatePuzzle_run (tag : string) (clues : nat) (e : Engine) (rnd : Rand) :
  difficultySettings tag = OwnSetting clues →
  ∃ sol rnd1 g rnd2 attempts removed,
    generateCompleteGrid rnd = Some (sol, rnd1) ∧ completeGrid sol ∧
    createPuzzle (mkEngine sol sol (initialGrid e) tag) rnd1 =
      Normal (mkEngine g sol (initialGrid e) tag) rnd2 (attempts, removed) ∧
    generatePuzzle tag e rnd =
      Normal (mkEngine g sol g tag) rnd2 (mkPuzzle g sol tag) ∧
    removalInv sol (81 - clues) (mkRemoval g attempts removed rnd2) ∧
    (removed = 81 - clues ∨ attempts = 1000).
Proof.
  intros Htag. destruct (generateCompleteGrid_complete rnd) as (sol & rnd1 & Hgen & Hsol).
  pose proof Hsol as (Hwf & _).
  destruct (removalLoop_spec sol (81 - clues) 1000 (mkRemoval sol 0 0 rnd1))
    as ([g attempts removed rnd2] & Hloop & Hinv & Hexit).
  { split; [done|]. split; [apply extends_refl|]. simpl.
    split; [apply hasUniqueSolution_full; [done|by apply completeGrid_full]|].
    split; [lia|]. split; [lia|]. by apply countEmpty_full, completeGrid_full. }
  { simpl. lia. }
  exists sol, rnd1, g, rnd2, attempts, removed.
  assert (createPuzzle (mkEngine sol sol (initialGrid e) tag) rnd1 =
          Normal (mkEngine g sol (initialGrid e) tag) rnd2 (attempts, removed)) as Hcreate.
  { unfold createPuzzle. cbn [difficulty grid solution initialGrid]. rewrite Htag.
    cbn [cellsToRemoveOf]. by rewrite Hloop. }
  split; [done|]. split; [done|]. split; [done|]. split; [|done].
  unfold generatePuzzle. rewrite Hgen. cbn [difficulty grid solution initialGrid].
  rewrite !copyGrid_id, Hcreate. cbn [difficulty grid solution initialGrid].
  by rewrite copyGrid_id.
Qed.

Lemma generatePuzzle_undefined (tag : string) (e : Engine) (rnd : Rand) :
  difficultySettings tag = UndefinedSetting →
  ∃ sol rnd1,
    generateCompleteGrid rnd = Some (sol, rnd1) ∧ completeGrid sol ∧
    generatePuzzle tag e rnd = TypeError (mkEngine sol sol (initialGrid e) tag) rnd1.
Proof.
  intros Htag. destruct (generateCompleteGrid_complete rnd) as (sol & rnd1 & Hgen & Hsol).
  exists sol, rnd1. split; [done|]. split; [done|].
  unfold generatePuzzle. rewrite Hgen. cbn [difficulty grid solution initialGrid].
  rewrite !copyGrid_id. unfold createPuzzle. cbn [difficulty]. by rewrite Htag.
Qed.

Lemma generatePuzzle_inherited (tag : string) (e : Engine) (rnd : Rand) :
  difficultySettings tag = InheritedProperty →
  ∃ sol rnd1,
    generateCompleteGrid rnd = Some (sol, rnd1) ∧ completeGrid sol ∧
    generatePuzzle tag e rnd =
      Normal (mkEngine sol sol sol tag) rnd1 (mkPuzzle sol sol tag).
Proof.
  intros Htag. destruct (generateCompleteGrid_complete rnd) as (sol & rnd1 & Hgen & Hsol).
  exists sol, rnd1. split; [done|]. split; [done|].
  unfold generatePuzzle. rewrite Hgen. cbn [difficulty grid solution initialGrid].
  rewrite !copyGrid_id. unfold createPuzzle. cbn [difficulty]. rewrite Htag.
  cbn [cellsToRemoveOf]. rewrite removalLoop_eq. cbn [belowTarget andb].
  cbn [r_grid r_rnd r_attempts r_removed grid solution initialGrid difficulty].
  by rewrite copyGrid_id.
Qed.

Lemma knownTags_settings (tag : string) :
  In tag knownTags →
  ∃ clues, difficultySettings tag = OwnSetting clues ∧
           In (tag, clues) [("easy", 45); ("medium", 35); ("hard", 25); ("expert", 17)]%string.
Proof.
  simpl. intros [<-|[<-|[<-|[<-|[]]]]]; eexists; (split; [reflexivity|]); simpl; tauto.
Qed.

End Generation.

(* ===================================================================== *)
(** ** The properties of the engine *)
(* ===================================================================== *)

Section SolveCurrent.

(** [solveCurrentPuzzle] always returns; it succeeds exactly when the empty
    cells can be filled, and then with such a filling. *)
Lemma solveCurrentPuzzle_fills (e : Engine) :
  wf (grid e) →
  ∃ r, solveCurrentPuzzle e = Some r ∧
       (success r = true → ∃ s, solved_grid r = Some s ∧ fills (grid e) s) ∧
       (success r = false → solved_grid r = None ∧ ∀ s, ¬ fills (grid e) s).
Proof.
  intros Hwf. unfold solveCurrentPuzzle. rewrite copyGrid_id.
  destruct (solvePuzzleWithSteps_spec searchFuel (grid e) [] Hwf (countEmpty_fuel _))
    as (b & g' & steps & -> & Hsolved).
  eexists. split; [done|]. destruct b; simpl in *.
  - split; [|done]. intros _. by exists g'.
  - split; [done|]. intros _. by destruct Hsolved.
Qed.

Lemma full_completion_self (g s : Grid) :
  wf g → findEmptyCell g = None → completion g s → s = g.
Proof.
  intros Hwf Hfull [(Hs & _) Hext]. apply grid_ext; [done..|].
  intros row col Hr Hc. apply Hext; [done..|]. by apply findEmptyCell_None.
Qed.

Lemma clashGrid_no_completion : ¬ ∃ s, completion clashGrid s.
Proof.
  intros [s Hs].
  assert (s = clashGrid) as ->.
  { apply full_completion_self; [by apply wfb_wf|by vm_compute|done]. }
  destruct Hs as [Hc%completeGridb_spec _]. vm_compute in Hc. done.
Qed.

End SolveCurrent.

(** C1. For each of the tags easy, medium, hard and expert, whatever the
    engine state and the random draws, [generatePuzzle] returns a puzzle in
    which every filled cell of the grid equals that cell of the solution,
    [hasUniqueSolution] holds of the grid, and the solution is a completion of
    the grid and the only one. *)
Theorem generatePuzzle_unique_completion (tag : string) (e : Engine) (rnd : Rand) :
  In tag knownTags →
  ∃ e' rnd' p,
    generatePuzzle tag e rnd = Normal e' rnd' p ∧
    puzzle_grid p = grid e' ∧ puzzle_solution p = solution e' ∧
    extends (puzzle_grid p) (puzzle_solution p) ∧
    hasUniqueSolution (puzzle_grid p) = Some true ∧
    completion (puzzle_grid p) (puzzle_solution p) ∧
    ∀ s, completion (puzzle_grid p) s → s = puzzle_solution p.
Proof.
  intros Htag. destruct (knownTags_settings tag Htag) as (clues & Hset & _).
  destruct (generatePuzzle_run tag clues e rnd Hset)
    as (sol & rnd1 & g & rnd2 & attempts & removed & _ & Hsol & _ & Hgen & Hinv & _).
  destruct Hinv as (Hwf & Hext & Huniq & _). cbn [r_grid] in *.
  eexists _, _, _. split; [exact Hgen|]. cbn [puzzle_grid puzzle_solution grid solution].
  split; [done|]. split; [done|]. split; [done|]. split; [done|]. split; [done|].
  destruct (subgrid_consistent g sol Hwf Hsol Hext) as [Hrange Hcons].
  destruct (hasUniqueSolution_fills g Hwf) as (b & Hb & Hiff).
  rewrite Huniq in Hb. injection Hb as <-.
  destruct (proj1 Hiff eq_refl) as (s0 & Hs0 & Hall).
  intros s Hs. apply fills_completion in Hs; [|done..].
  rewrite (Hall s Hs). symmetry. apply Hall.
  apply fills_completion; [done..|]. by split.
Qed.

Lemma generatePuzzle_unique_completion_witness :
  In "easy"%string knownTags ∧
  ∃ e' rnd' p,
    generatePuzzle "easy" newEngine (fun _ => 0) = Normal e' rnd' p ∧
    puzzle_grid p = grid e' ∧ puzzle_solution p = solution e' ∧
    extends (puzzle_grid p) (puzzle_solution p) ∧
    hasUniqueSolution (puzzle_grid p) = Some true ∧
    completion (puzzle_grid p) (puzzle_solution p) ∧
    ∀ s, completion (puzzle_grid p) s → s = puzzle_solution p.
Proof.
  split; [simpl; tauto|].
  apply (generatePuzzle_unique_completion "easy" newEngine (fun _ => 0)).
  simpl. tauto.
Defined.

(** C2, as the code has it. For every well-formed grid with values in [0,9]
    whose filled cells hold no value twice in a row, column or box,
    [hasUniqueSolution] returns, and returns true exactly when the grid has
    one and only one completion; the enumeration behind it leaves the grid
    as it was and records the first two entries, or all if there are fewer,
    of the exhaustive enumeration in ascending candidate order. *)
Theorem hasUniqueSolution_iff_unique_completion (g : Grid) :
  wf g → inRange g → atMostOnce g →
  (∃ b, hasUniqueSolution g = Some b ∧
        (b = true ↔ ∃ s, completion g s ∧ ∀ s', completion g s' → s' = s)) ∧
  findAllSolutions searchFuel (copyGrid g) [] 2 =
    Some (g, firstn 2 (allSolutions searchFuel g),
          length (allSolutions searchFuel g) <? 2).
Proof.
  intros Hwf Hrange Hcons. split.
  - destruct (hasUniqueSolution_fills g Hwf) as (b & Hb & Hiff).
    exists b. split; [done|]. rewrite Hiff.
    split; intros (s & Hs & Hall); exists s.
    + split; [by apply fills_completion|].
      intros s' Hs'. apply Hall. by apply fills_completion.
    + split; [by apply fills_completion|].
      intros s' Hs'. apply Hall. by apply fills_completion in Hs'.
  - rewrite copyGrid_id.
    by rewrite findAllSolutions_spec; [|done|apply countEmpty_fuel|simpl; lia].
Qed.

Lemma hasUniqueSolution_iff_unique_completion_witness :
  wf oneHoleGrid ∧ inRange oneHoleGrid ∧ atMostOnce oneHoleGrid ∧
  (∃ b, hasUniqueSolution oneHoleGrid = Some b ∧
        (b = true ↔ ∃ s, completion oneHoleGrid s ∧
                         ∀ s', completion oneHoleGrid s' → s' = s)) ∧
  findAllSolutions searchFuel (copyGrid oneHoleGrid) [] 2 =
    Some (oneHoleGrid, firstn 2 (allSolutions searchFuel oneHoleGrid),
          length (allSolutions searchFuel oneHoleGrid) <? 2).
Proof.
  assert (wf oneHoleGrid) as H1 by (apply wfb_wf; vm_compute; reflexivity).
  assert (inRange oneHoleGrid) as H2 by (apply inRangeb_spec; vm_compute; reflexivity).
  assert (atMostOnce oneHoleGrid) as H3 by (apply atMostOnceb_spec; vm_compute; reflexivity).
  split; [exact H1|]. split; [exact H2|]. split; [exact H3|].
  exact (hasUniqueSolution_iff_unique_completion oneHoleGrid H1 H2 H3).
Defined.

(** C2 as stated fails on a full grid with a duplicate: it is a 9x9 grid with
    values in [0,9] and has no completion, and [hasUniqueSolution] returns
    true on it. *)
Lemma hasUniqueSolution_clash_counterexample :
  wf clashGrid ∧ inRange clashGrid ∧
  hasUniqueSolution clashGrid = Some true ∧ ¬ ∃ s, completion clashGrid s.
Proof.
  split; [apply wfb_wf; vm_compute; reflexivity|].
  split; [apply inRangeb_spec; vm_compute; reflexivity|].
  split; [vm_compute; reflexivity|apply clashGrid_no_completion].
Qed.


(** C3. On every complete grid (no empty cell, each value 1-9 exactly once
    in each row, column and box) [validatePuzzle] leaves the grid as it is
    and returns [{isValid: true, errors: []}], and [isComplete] returns true;
    this holds of the canonical solved grid and of the solution of every
    puzzle [generatePuzzle] returns, which is such a grid. *)
Theorem complete_grid_validates :
  (∀ g, completeGrid g →
        validatePuzzle g = (g, mkValidation true []) ∧ isComplete g = (g, true)) ∧
  (validatePuzzle canonicalGrid = (canonicalGrid, mkValidation true []) ∧
   isComplete canonicalGrid = (canonicalGrid, true)) ∧
  (∀ tag e rnd, In tag knownTags →
     ∃ e' rnd' p,
       generatePuzzle tag e rnd = Normal e' rnd' p ∧
       completeGrid (puzzle_solution p) ∧
       validatePuzzle (puzzle_solution p) = (puzzle_solution p, mkValidation true []) ∧
       isComplete (puzzle_solution p) = (puzzle_solution p, true)).
Proof.
  split; [apply completeGrid_validates|].
  split; [apply completeGrid_validates, completeGrid_canonical|].
  intros tag e rnd Htag. destruct (knownTags_settings tag Htag) as (clues & Hset & _).
  destruct (generatePuzzle_run tag clues e rnd Hset)
    as (sol & rnd1 & g & rnd2 & attempts & removed & _ & Hsol & _ & Hgen & _).
  eexists _, _, _. split; [exact Hgen|]. cbn [puzzle_solution].
  split; [done|]. by apply completeGrid_validates.
Qed.

Lemma complete_grid_validates_witness :
  completeGrid canonicalGrid ∧
  validatePuzzle canonicalGrid = (canonicalGrid, mkValidation true []) ∧
  isComplete canonicalGrid = (canonicalGrid, true).
Proof.
  assert (completeGrid canonicalGrid) as H
    by (apply completeGridb_spec; vm_compute; reflexivity).
  split; [exact H|]. exact (proj1 complete_grid_validates canonicalGrid H).
Defined.

(** C4, as the code has it. A tag that names no property of
    [difficultySettings], neither one of the four settings nor one inherited
    from [Object.prototype], makes [generatePuzzle] throw a TypeError, and no
    default difficulty is used; but the throw comes from [createPuzzle], after
    [generateCompleteGrid] has run: by then [this.difficulty] is the tag and
    [this.grid] and [this.solution] hold a new complete grid, and only
    [this.initialGrid] is as before. *)
Theorem generatePuzzle_unknown_tag (tag : string) (e : Engine) (rnd : Rand) :
  difficultySettings tag = UndefinedSetting →
  ∃ sol rnd1,
    generateCompleteGrid rnd = Some (sol, rnd1) ∧ completeGrid sol ∧
    generatePuzzle tag e rnd = TypeError (mkEngine sol sol (initialGrid e) tag) rnd1.
Proof. apply generatePuzzle_undefined. Qed.

Lemma generatePuzzle_unknown_tag_witness :
  difficultySettings "invalid" = UndefinedSetting ∧
  ∃ sol rnd1,
    generateCompleteGrid (fun _ => 0) = Some (sol, rnd1) ∧ completeGrid sol ∧
    generatePuzzle "invalid" newEngine (fun _ => 0) =
      TypeError (mkEngine sol sol (initialGrid newEngine) "invalid") rnd1.
Proof.
  split; [reflexivity|].
  apply (generatePuzzle_unknown_tag "invalid"%string newEngine (fun _ => 0)).
  reflexivity.
Defined.

(** C4 as stated fails: with the tag "foo" on a new engine the call does end
    in a TypeError, but the engine is not as it was before the call, its grid
    and solution having been regenerated; and with the tag "constructor",
    which is none of the four, the call is not rejected at all. *)
Lemma generatePuzzle_fail_fast_counterexample :
  ¬ In "foo"%string knownTags ∧
  (∃ e' rnd',
     generatePuzzle "foo" newEngine (fun _ => 0) = TypeError e' rnd' ∧
     grid e' ≠ grid newEngine ∧ solution e' ≠ solution newEngine ∧
     e' ≠ mkEngine (grid newEngine) (solution newEngine) (initialGrid newEngine) "foo") ∧
  ¬ In "constructor"%string knownTags ∧
  (∃ e' rnd' p, generatePuzzle "constructor" newEngine (fun _ => 0) = Normal e' rnd' p).
Proof.
  split; [simpl; intuition discriminate|]. split.
  - destruct (generatePuzzle_undefined "foo" newEngine (fun _ => 0) eq_refl)
      as (sol & rnd1 & _ & (_ & Hnz & _) & Hgen).
    eexists _, _. split; [exact Hgen|]. clear Hgen.
    assert (sol ≠ emptyGrid) as Hne.
    { intros ->. apply (Hnz 0 0); [lia..|reflexivity]. }
    cbn [grid solution initialGrid newEngine].
    split; [exact Hne|]. split; [exact Hne|].
    intros [= H _]. exact (Hne H).
  - split; [simpl; intuition discriminate|].
    destruct (generatePuzzle_inherited "constructor" newEngine (fun _ => 0) eq_refl)
      as (sol & rnd1 & _ & _ & Hgen).
    eexists _, _, _. exact Hgen.
Qed.

(** C5, as the code has it. [solveCurrentPuzzle] always returns (it never
    throws) and works on a copy of the engine's grid. For a grid with values
    in [0,9] whose filled cells hold no value twice in a row, column or box:
    if the grid has no completion the result is [success = false] with
    [solution = null], and a success carries a completion of the grid. The
    filled cells themselves are never checked against each other. *)
Theorem solveCurrentPuzzle_unsolvable (e : Engine) :
  wf (grid e) → inRange (grid e) → atMostOnce (grid e) →
  ∃ r, solveCurrentPuzzle e = Some r ∧
       ((¬ ∃ s, completion (grid e) s) → success r = false ∧ solved_grid r = None) ∧
       (success r = true → ∃ s, solved_grid r = Some s ∧ completion (grid e) s).
Proof.
  intros Hwf Hrange Hcons.
  destruct (solveCurrentPuzzle_fills e Hwf) as (r & Hr & Htrue & Hfalse).
  exists r. split; [done|]. split.
  - intros Hnone. destruct (success r) eqn:Hs.
    + destruct (Htrue eq_refl) as (s & _ & Hfill). exfalso. apply Hnone.
      exists s. by apply fills_completion.
    + split; [done|]. by apply Hfalse.
  - intros Hs. destruct (Htrue Hs) as (s & Hsol & Hfill).
    exists s. split; [done|]. by apply fills_completion.
Qed.

Lemma solveCurrentPuzzle_unsolvable_witness :
  wf (grid deadEndEngine) ∧ inRange (grid deadEndEngine) ∧
  atMostOnce (grid deadEndEngine) ∧
  ∃ r, solveCurrentPuzzle deadEndEngine = Some r ∧
       ((¬ ∃ s, completion (grid deadEndEngine) s) →
        success r = false ∧ solved_grid r = None) ∧
       (success r = true →
        ∃ s, solved_grid r = Some s ∧ completion (grid deadEndEngine) s).
Proof.
  assert (wf (grid deadEndEngine)) as H1 by (apply wfb_wf; vm_compute; reflexivity).
  assert (inRange (grid deadEndEngine)) as H2
    by (apply inRangeb_spec; vm_compute; reflexivity).
  assert (atMostOnce (grid deadEndEngine)) as H3
    by (apply atMostOnceb_spec; vm_compute; reflexivity).
  split; [exact H1|]. split; [exact H2|]. split; [exact H3|].
  exact (solveCurrentPuzzle_unsolvable deadEndEngine H1 H2 H3).
Defined.

(** C5 as stated fails on a grid whose placed values violate the
    constraints: the full grid with a duplicate has no completion, and
    [solveCurrentPuzzle] reports success and returns it as the solution. *)
Lemma solveCurrentPuzzle_clash_counterexample :
  wf (grid clashEngine) ∧ inRange (grid clashEngine) ∧
  (¬ ∃ s, completion (grid clashEngine) s) ∧
  solveCurrentPuzzle clashEngine = Some (mkSolveResult true (Some clashGrid) []).
Proof.
  change (grid clashEngine) with clashGrid.
  split; [apply wfb_wf; vm_compute; reflexivity|].
  split; [apply inRangeb_spec; vm_compute; reflexivity|].
  split; [apply clashGrid_no_completion|vm_compute; reflexivity].
Qed.


(** C6, as the code has it. [getHint] returns null exactly when the grid has
    no empty cell. Otherwise it returns an empty cell with the value the
    stored solution has there, chosen in row-major order as follows: the
    first empty cell with at most one possible value if there is one (the
    scan stops at a cell with exactly one), and else the first of the empty
    cells with the fewest possible values. *)
Theorem getHint_choice (sol g : Grid) :
  wf sol → wf g →
  (getHint sol g = None ↔ ∀ row col, row < 9 → col < 9 → get g row col ≠ 0%Z) ∧
  ∀ h, getHint sol g = Some h →
       hint_value h = get sol (hint_row h) (hint_col h) ∧
       ∃ l1 l2, emptyCellsOf g = l1 ++ (hint_row h, hint_col h) :: l2 ∧
                hintChoice g l1 (hint_row h, hint_col h) l2.
Proof.
  intros _ _. split; [|apply getHint_Some].
  rewrite getHint_None. split.
  - intros Hnil row col Hr Hc Hz.
    assert (In (row, col) (emptyCellsOf g)) as Hin by (by apply emptyCellsOf_In).
    rewrite Hnil in Hin. destruct Hin.
  - intros Hfull. destruct (emptyCellsOf g) as [|[row col] l] eqn:E; [done|].
    assert (In (row, col) (emptyCellsOf g)) as Hin by (rewrite E; by left).
    apply emptyCellsOf_In in Hin as (Hr & Hc & Hz). by destruct (Hfull row col).
Qed.

Lemma getHint_choice_witness :
  wf canonicalGrid ∧ wf hintGrid ∧
  getHint canonicalGrid hintGrid = Some (mkHint 0 0 5) ∧
  (5%Z = get canonicalGrid 0 0 ∧
   ∃ l1 l2, emptyCellsOf hintGrid = l1 ++ (0, 0) :: l2 ∧ hintChoice hintGrid l1 (0, 0) l2).
Proof.
  assert (wf canonicalGrid) as H1 by (apply wfb_wf; vm_compute; reflexivity).
  assert (wf hintGrid) as H2 by (apply wfb_wf; vm_compute; reflexivity).
  assert (getHint canonicalGrid hintGrid = Some (mkHint 0 0 5)) as H
    by (vm_compute; reflexivity).
  split; [exact H1|]. split; [exact H2|]. split; [exact H|].
  exact (proj2 (getHint_choice canonicalGrid hintGrid H1 H2) (mkHint 0 0 5) H).
Defined.

(** C6 as stated fails where a cell with one possible value comes before a
    cell with none: the scan stops at the first, which is then returned
    although another empty cell has fewer possible values. *)
Lemma getHint_fewest_counterexample :
  wf canonicalGrid ∧ wf hintGrid ∧ inRange hintGrid ∧
  getHint canonicalGrid hintGrid = Some (mkHint 0 0 5) ∧
  possibilityCount hintGrid (0, 0) = 1 ∧
  In (8, 8) (emptyCellsOf hintGrid) ∧ possibilityCount hintGrid (8, 8) = 0.
Proof.
  split; [apply wfb_wf; vm_compute; reflexivity|].
  split; [apply wfb_wf; vm_compute; reflexivity|].
  split; [apply inRangeb_spec; vm_compute; reflexivity|].
  split; [vm_compute; reflexivity|]. split; [vm_compute; reflexivity|].
  split; [|vm_compute; reflexivity].
  apply emptyCellsOf_In. split; [lia|]. split; [lia|reflexivity].
Qed.

(** C7. On a cell of the grid that holds a nonzero value [v], [isValidMove]
    with that value returns false: the row scan meets the cell itself. With
    the cell cleared first, as [validatePuzzle] does, the call tells whether
    another cell of the row, column or box holds [v]. *)
Theorem isValidMove_occupied (g : Grid) (row col : nat) (v : Z) :
  wf g → row < 9 → col < 9 → get g row col = v → v ≠ 0%Z →
  isValidMove g row col v = false ∧
  (isValidMove (set g row col 0) row col v = true ↔ noClash g row col).
Proof.
  intros Hwf Hr Hc Hv Hnz. split.
  - unfold isValidMove.
    assert (existsb (fun x => Z.eqb (get g row x) v) (seq 0 9) = true) as ->; [|done].
    apply existsb_exists. exists col. split; [apply in_seq; lia|by apply Z.eqb_eq].
  - rewrite isValidMove_spec by done. unfold noClash. rewrite Hv. split.
    + intros H r c Hr' Hc' Hne Hpeer.
      rewrite <- (get_set_ne g row col 0 r c) by congruence. by apply H.
    + intros H r c Hr' Hc' Hpeer.
      destruct (decide ((row, col) = (r, c))) as [[= <- <-]|Hne].
      * rewrite get_set_eq by done. congruence.
      * rewrite get_set_ne by done. apply H; [done|done|congruence|done].
Qed.

Lemma isValidMove_occupied_witness :
  wf canonicalGrid ∧ 0 < 9 ∧ 0 < 9 ∧ get canonicalGrid 0 0 = 5%Z ∧ 5%Z ≠ 0%Z ∧
  isValidMove canonicalGrid 0 0 5 = false ∧
  (isValidMove (set canonicalGrid 0 0 0) 0 0 5 = true ↔ noClash canonicalGrid 0 0).
Proof.
  assert (wf canonicalGrid) as H0 by (apply wfb_wf; vm_compute; reflexivity).
  assert (0 < 9) as H1 by lia.
  assert (get canonicalGrid 0 0 = 5%Z) as H2 by reflexivity.
  assert (5%Z ≠ 0%Z) as H3 by lia.
  split; [exact H0|]. split; [exact H1|]. split; [exact H1|].
  split; [exact H2|]. split; [exact H3|].
  exact (isValidMove_occupied canonicalGrid 0 0 5 H0 H1 H1 H2 H3).
Defined.

(** C8. For each of the four tags, whatever the random draws, the removal
    loop of [createPuzzle] ends after at most 1000 attempts with at most
    81 - target removals; the puzzle grid has 81 minus the removals clues,
    so at least the target (easy 45, medium 35, hard 25, expert 17): exactly
    the target when fewer than 1000 attempts were made, and more than the
    target only when all 1000 were. *)
Theorem createPuzzle_clue_count (tag : string) (e : Engine) (rnd : Rand) :
  In tag knownTags →
  ∃ clues sol rnd1 e' rnd2 attempts removed,
    difficultySettings tag = OwnSetting clues ∧
    In (tag, clues) [("easy", 45); ("medium", 35); ("hard", 25); ("expert", 17)]%string ∧
    generateCompleteGrid rnd = Some (sol, rnd1) ∧
    createPuzzle (mkEngine sol sol (initialGrid e) tag) rnd1 =
      Normal e' rnd2 (attempts, removed) ∧
    (∃ e'' p, generatePuzzle tag e rnd = Normal e'' rnd2 p ∧ puzzle_grid p = grid e') ∧
    attempts ≤ 1000 ∧ removed ≤ 81 - clues ∧
    clueCount (grid e') = 81 - removed ∧ clues ≤ clueCount (grid e') ∧
    (attempts < 1000 → clueCount (grid e') = clues) ∧
    (clues < clueCount (grid e') → attempts = 1000).
Proof.
  intros Htag. destruct (knownTags_settings tag Htag) as (clues & Hset & Htable).
  destruct (generatePuzzle_run tag clues e rnd Hset)
    as (sol & rnd1 & g & rnd2 & attempts & removed & Hcomplete & _ & Hcreate & Hgen &
        Hinv & Hexit).
  destruct Hinv as (_ & _ & _ & Hrem & Hatt & Hcnt). cbn [r_grid r_removed r_attempts] in *.
  pose proof (clueCount_countEmpty g) as Hsum.
  assert (clues ≤ 81) as Hclues.
  { simpl in Htable. destruct Htable as [[= _ <-]|[[= _ <-]|[[= _ <-]|[[= _ <-]|[]]]]]; lia. }
  exists clues, sol, rnd1, (mkEngine g sol (initialGrid e) tag), rnd2, attempts, removed.
  split; [done|]. split; [done|]. split; [done|]. split; [exact Hcreate|].
  cbn [grid]. split; [by eexists _, _|]. lia.
Qed.

Lemma createPuzzle_clue_count_witness :
  In "expert"%string knownTags ∧
  ∃ clues sol rnd1 e' rnd2 attempts removed,
    difficultySettings "expert" = OwnSetting clues ∧
    In ("expert"%string, clues)
       [("easy", 45); ("medium", 35); ("hard", 25); ("expert", 17)]%string ∧
    generateCompleteGrid (fun _ => 0) = Some (sol, rnd1) ∧
    createPuzzle (mkEngine sol sol (initialGrid newEngine) "expert") rnd1 =
      Normal e' rnd2 (attempts, removed) ∧
    (∃ e'' p, generatePuzzle "expert" newEngine (fun _ => 0) = Normal e'' rnd2 p ∧
              puzzle_grid p = grid e') ∧
    attempts ≤ 1000 ∧ removed ≤ 81 - clues ∧
    clueCount (grid e') = 81 - removed ∧ clues ≤ clueCount (grid e') ∧
    (attempts < 1000 → clueCount (grid e') = clues) ∧
    (clues < clueCount (grid e') → attempts = 1000).
Proof.
  assert (In "expert"%string knownTags) as H by (simpl; tauto).
  split; [exact H|].
  exact (createPuzzle_clue_count "expert" newEngine (fun _ => 0) H).
Defined.

(** C9. [validatePuzzle] hands back the grid it was given, all 81 cells as
    they were, and a second call on it returns what the first returned. *)
Theorem validatePuzzle_restores (g : Grid) :
  wf g →
  (validatePuzzle g).1 = g ∧
  (∀ row col, row < 9 → col < 9 → get (validatePuzzle g).1 row col = get g row col) ∧
  validatePuzzle (validatePuzzle g).1 = validatePuzzle g.
Proof.
  intros Hwf. pose proof (validatePuzzle_grid g Hwf) as H.
  split; [done|]. by rewrite H.
Qed.

Lemma validatePuzzle_restores_witness :
  wf clashGrid ∧
  (validatePuzzle clashGrid).1 = clashGrid ∧
  (∀ row col, row < 9 → col < 9 →
     get (validatePuzzle clashGrid).1 row col = get clashGrid row col) ∧
  validatePuzzle (validatePuzzle clashGrid).1 = validatePuzzle clashGrid.
Proof.
  assert (wf clashGrid) as H by (apply wfb_wf; vm_compute; reflexivity).
  split; [exact H|]. exact (validatePuzzle_restores clashGrid H).
Defined.

(** C10. On a grid with an empty cell [getHint] returns a hint, on an empty
    cell of the grid and with the value the stored solution has there,
    whatever the grid and the solution hold; the chosen cell may have no
    legal value at all and the hinted value may clash with the values
    placed, as on the sample grid. *)
Theorem getHint_nonnull :
  (∀ sol g, wf sol → wf g → (∃ row col, row < 9 ∧ col < 9 ∧ get g row col = 0%Z) →
     ∃ h, getHint sol g = Some h ∧
          hint_row h < 9 ∧ hint_col h < 9 ∧ get g (hint_row h) (hint_col h) = 0%Z ∧
          hint_value h = get sol (hint_row h) (hint_col h)) ∧
  (∃ h, wf stuckGrid ∧ inRange stuckGrid ∧
        getHint canonicalGrid stuckGrid = Some h ∧
        getPossibleValues stuckGrid (hint_row h) (hint_col h) = [] ∧
        isValidMove stuckGrid (hint_row h) (hint_col h) (hint_value h) = false ∧
        ¬ extends stuckGrid canonicalGrid).
Proof.
  split.
  - intros sol g _ _ (row & col & Hr & Hc & Hz).
    destruct (getHint sol g) as [h|] eqn:Hh.
    + exists h. split; [done|]. apply getHint_Some in Hh as (Hv & l1 & l2 & Hcells & _).
      assert (In (hint_row h, hint_col h) (emptyCellsOf g)) as Hin
        by (rewrite Hcells; apply in_app_iff; right; by left).
      apply emptyCellsOf_In in Hin. tauto.
    + apply getHint_None in Hh.
      assert (In (row, col) (emptyCellsOf g)) as Hin by (by apply emptyCellsOf_In).
      rewrite Hh in Hin. destruct Hin.
  - exists (mkHint 0 0 5). split; [apply wfb_wf; vm_compute; reflexivity|].
    split; [apply inRangeb_spec; vm_compute; reflexivity|].
    split; [vm_compute; reflexivity|].
    split; [vm_compute; reflexivity|]. split; [vm_compute; reflexivity|].
    intros Hext. specialize (Hext 0 1 ltac:(lia) ltac:(lia)). vm_compute in Hext.
    assert (3%Z = 2%Z) by (apply Hext; discriminate). done.
Qed.

Lemma getHint_nonnull_witness :
  wf canonicalGrid ∧ wf stuckGrid ∧
  (∃ row col, row < 9 ∧ col < 9 ∧ get stuckGrid row col = 0%Z) ∧
  ∃ h, getHint canonicalGrid stuckGrid = Some h ∧
       hint_row h < 9 ∧ hint_col h < 9 ∧
       get stuckGrid (hint_row h) (hint_col h) = 0%Z ∧
       hint_value h = get canonicalGrid (hint_row h) (hint_col h).
Proof.
  assert (∃ row col, row < 9 ∧ col < 9 ∧ get stuckGrid row col = 0%Z) as H.
  { exists 0, 0. split; [lia|]. split; [lia|reflexivity]. }
  assert (wf canonicalGrid) as H1 by (apply wfb_wf; vm_compute; reflexivity).
  assert (wf stuckGrid) as H2 by (apply wfb_wf; vm_compute; reflexivity).
  split; [exact H1|]. split; [exact H2|]. split; [exact H|].
  exact (proj1 getHint_nonnull canonicalGrid stuckGrid H1 H2 H).
Defined.

(* ===================================================================== *)
(** ** shuffleArray *)
(* ===================================================================== *)

Section ShuffleArray.

Context {A : Type}.

(** Overwriting one position trades the old element for the new one. *)
Lemma insert_Permutation (l : list A) (i : nat) (x y : A) :
  l !! i = Some x → x :: <[i := y]> l ≡ₚ y :: l.
Proof.
  intros Hi. pose proof (lookup_lt_Some _ _ _ Hi) as Hlen.
  rewrite insert_take_drop by done.
  rewrite <- (take_drop_middle l i x Hi) at 3.
  rewrite <- !Permutation_middle. apply perm_swap.
Qed.

Lemma swap_Permutation (l : list A) (i j : nat) : swap l i j ≡ₚ l.
Proof.
  unfold swap. destruct (l !! i) as [x|] eqn:Hi; [|done].
  destruct (l !! j) as [y|] eqn:Hj; [|done].
  destruct (decide (i = j)) as [->|Hne].
  - assert (x = y) as -> by congruence.
    rewrite (list_insert_id l j y Hi). by rewrite list_insert_id.
  - apply (Permutation_cons_inv (a := y)).
    rewrite (insert_Permutation (<[i := y]> l) j y x)
      by (by rewrite list_lookup_insert_ne).
    by apply insert_Permutation.
Qed.

Lemma shuffleFrom_Permutation (i : nat) :
  ∀ (l : list A) rnd, (shuffleFrom i l rnd).1 ≡ₚ l.
Proof.
  induction i as [|i IH]; intros l rnd; [done|].
  simpl. rewrite IH. apply swap_Permutation.
Qed.

End ShuffleArray.

(** X1. Whatever the random draws, [shuffleArray] returns a rearrangement of
    the array it is given: the same elements, each as often as before. *)
Theorem shuffleArray_Permutation {A} (array : list A) (rnd : Rand) :
  (shuffleArray array rnd).1 ≡ₚ array ∧
  length (shuffleArray array rnd).1 = length array.
Proof.
  assert ((shuffleArray array rnd).1 ≡ₚ array) as H by apply shuffleFrom_Permutation.
  split; [done|]. by rewrite H.
Qed.


(** X2. [shuffleGrid] keeps the Sudoku invariants: whatever the random
    draws, a complete grid comes out as a complete grid. *)
Theorem shuffleGrid_complete (g : Grid) (rnd : Rand) :
  completeGrid g → completeGrid (shuffleGrid g rnd).1.
Proof.
  rewrite !completeGrid_clashFree. apply shuffleGrid_clashFree.
Qed.

Lemma shuffleGrid_complete_witness :
  completeGrid canonicalGrid ∧ completeGrid (shuffleGrid canonicalGrid (fun i => i)).1.
Proof.
  assert (completeGrid canonicalGrid) as H
    by (apply completeGridb_spec; vm_compute; reflexivity).
  split; [exact H|]. exact (shuffleGrid_complete canonicalGrid (fun i => i) H).
Defined.

(** X3. Whatever the random draws, [generateCompleteGrid] returns, and what
    it stores in [this.grid] is a complete grid: no empty cell, each value
    1-9 exactly once in each row, column and box. *)
Theorem generateCompleteGrid_total (rnd : Rand) :
  ∃ g rnd', generateCompleteGrid rnd = Some (g, rnd') ∧ completeGrid g ∧
            findEmptyCell g = None ∧ inRange g.
Proof.
  destruct (generateCompleteGrid_complete rnd) as (g & rnd' & Hgen & Hg).
  exists g, rnd'. split; [done|]. split; [done|].
  split; [by apply completeGrid_full|].
  apply completeGrid_clashFree in Hg as (_ & Hdig & _).
  intros row col Hr Hc. specialize (Hdig row col Hr Hc). unfold isDigit in Hdig. lia.
Qed.

(** X4. [solvePuzzle] on a grid with values in [0,9] whose filled cells hold
    no value twice in a row, column or box: whatever the order in which the
    candidates are shuffled, it returns true exactly when the grid has a
    completion; with true the grid has become a completion of what it was,
    and with false the grid is back as it was. *)
Theorem solvePuzzle_decides (fuel : nat) (g : Grid) (rnd : Rand) :
  wf g → inRange g → atMostOnce g → countEmpty g < fuel →
  ∃ b g' rnd',
    solvePuzzle fuel g rnd = Some (b, g', rnd') ∧
    (b = true ↔ ∃ s, completion g s) ∧
    (b = true → completion g g') ∧
    (b = false → g' = g).
Proof.
  intros Hwf Hrange Hcons Hfuel.
  destruct (solvePuzzle_spec fuel g rnd Hwf Hfuel) as (b & g' & rnd' & Hrun & Hsolved).
  exists b, g', rnd'. split; [done|]. destruct b; simpl in Hsolved.
  - apply fills_completion in Hsolved; [|done..].
    split; [split; [by exists g'|done]|]. split; [done|discriminate].
  - destruct Hsolved as [-> Hnone]. split; [|split; [discriminate|done]].
    split; [discriminate|]. intros [s Hs]. destruct (Hnone s).
    by apply fills_completion.
Qed.

Lemma solvePuzzle_decides_witness :
  wf oneHoleGrid ∧ inRange oneHoleGrid ∧ atMostOnce oneHoleGrid ∧
  countEmpty oneHoleGrid < 82 ∧
  ∃ b g' rnd',
    solvePuzzle 82 oneHoleGrid (fun i => i) = Some (b, g', rnd') ∧
    (b = true ↔ ∃ s, completion oneHoleGrid s) ∧
    (b = true → completion oneHoleGrid g') ∧
    (b = false → g' = oneHoleGrid).
Proof.
  assert (wf oneHoleGrid) as H1 by (apply wfb_wf; vm_compute; reflexivity).
  assert (inRange oneHoleGrid) as H2 by (apply inRangeb_spec; vm_compute; reflexivity).
  assert (atMostOnce oneHoleGrid) as H3 by (apply atMostOnceb_spec; vm_compute; reflexivity).
  assert (countEmpty oneHoleGrid < 82) as H4 by (vm_compute; lia).
  split; [exact H1|]. split; [exact H2|]. split; [exact H3|]. split; [exact H4|].
  exact (solvePuzzle_decides 82 oneHoleGrid (fun i => i) H1 H2 H3 H4).
Defined.

(* ===================================================================== *)
(** ** The recorded steps *)
(* ===================================================================== *)

Section Steps.

Lemma replay_app (g : Grid) (l1 l2 : list Step) :
  replay g (l1 ++ l2) = replay (replay g l1) l2.
Proof. unfold replay. apply foldl_app. Qed.

Lemma replay_cons (g : Grid) (s : Step) (l : list Step) :
  replay g (s :: l) = replay (applyStep g s) l.
Proof. reflexivity. Qed.

Lemma extends_set (g h : Grid) row col num :
  wf g → wf h → row < 9 → col < 9 → extends g h →
  extends (set g row col num) (set h row col num).
Proof.
  intros Hg Hh Hr Hc Hext r c Hr' Hc' Hnz.
  destruct (decide ((row, col) = (r, c))) as [[= <- <-]|Hne].
  - by rewrite !get_set_eq.
  - rewrite !get_set_ne in * by done. by apply Hext.
Qed.

Lemma extends_unset (g h : Grid) row col num :
  wf g → row < 9 → col < 9 → get g row col = 0%Z →
  extends (set g row col num) h → extends g h.
Proof.
  intros Hg Hr Hc Hz Hext r c Hr' Hc' Hnz.
  assert ((row, col) ≠ (r, c)) as Hne by (intros [= <- <-]; done).
  rewrite <- (get_set_ne g row col num r c Hne).
  apply Hext; [done..|]. by rewrite get_set_ne.
Qed.

Lemma stepOn_unset (g : Grid) row col num (s : Step) :
  wf g → row < 9 → col < 9 → num ≠ 0%Z →
  stepOn (set g row col num) s → stepOn g s.
Proof.
  intros Hg Hr Hc Hnum (Hsr & Hsc & Hz & Hv). split; [done|]. split; [done|].
  split; [|done].
  destruct (decide ((row, col) = (step_row s, step_col s))) as [[= E1 E2]|Hne].
  - rewrite <- E1, <- E2 in Hz. by rewrite get_set_eq in Hz.
  - by rewrite get_set_ne in Hz.
Qed.

Lemma tryAscending_recorded (rec : Grid → list Step → option (bool * Grid * list Step))
    (n : nat) (g : Grid) row col :
  (∀ g1 h1 steps1, wf g1 → wf h1 → extends g1 h1 → countEmpty g1 < n →
     recorded g1 h1 steps1 (rec g1 steps1)) →
  wf g → row < 9 → col < 9 → get g row col = 0%Z → countEmpty g ≤ n →
  ∀ nums h steps, (∀ num, In num nums → isDigit num) → wf h → extends g h →
  ∃ b g' added,
    tryAscending rec row col nums g steps = Some (b, g', steps ++ added) ∧
    tried g row col nums b g' ∧
    Forall (stepOn g) added ∧ replay g added = g' ∧
    let h' := replay h (List.filter isPlace added) in
    if b then h' = g' else wf h' ∧ extends g h'.
Proof.
  intros Hrec Hwf Hr Hc Hz Hn nums.
  induction nums as [|num rest IH]; intros h steps Hdig Hh Hext; cbn [tryAscending].
  - exists false, g, []. rewrite app_nil_r. split; [done|].
    split; [by apply tried_nil|]. split; [constructor|]. split; [done|].
    cbn. by split.
  - assert (∀ x, In x rest → isDigit x) as Hdig' by (intros; apply Hdig; by right).
    destruct (isValidMove g row col num) eqn:Hv.
    2:{ destruct (IH h steps Hdig' Hh Hext) as (b & g' & added & -> & Htried & Hrest).
        exists b, g', added. split; [done|]. split; [by apply tried_skip|done]. }
    assert (isDigit num) as Hnum by (apply Hdig; by left).
    assert (num ≠ 0%Z) as Hnum0 by (unfold isDigit in Hnum; lia).
    pose proof (countEmpty_set g row col num Hwf Hr Hc Hz Hnum0) as Hcnt.
    set (p := mkStep row col num place).
    assert (stepOn g p) as Hp by (unfold stepOn, p; simpl; by split_and!).
    destruct (Hrec (set g row col num) (set h row col num) (steps ++ [p]))
      as (b & g1 & added1 & -> & Hsolved & Hon & Hall & Hplaces);
      [by apply wf_set|by apply wf_set|by apply extends_set|lia|].
    assert (Forall (stepOn g) added1) as Hon'.
    { eapply Forall_impl; [exact Hon|]. intros s. by apply stepOn_unset. }
    destruct b; cbn zeta in Hplaces.
    + exists true, g1, (p :: added1). rewrite <- app_assoc. split; [done|].
      split; [exists num; split; [by left|done]|].
      split; [by constructor|]. split; [exact Hall|exact Hplaces].
    + destruct Hsolved as [-> Hnone]. destruct Hplaces as [Hh1 Hext1].
      rewrite set_clear by done.
      set (q := mkStep row col 0 backtrack).
      assert (stepOn g q) as Hq by (unfold stepOn, q; simpl; by split_and!).
      destruct (IH (replay (set h row col num) (List.filter isPlace added1))
                   ((steps ++ [p]) ++ added1 ++ [q]) Hdig' Hh1)
        as (b & g' & added2 & Hrun & Htried & Hon2 & Hall2 & Hplaces2).
      { by apply (extends_unset g _ row col num). }
      rewrite <- (app_assoc (steps ++ [p])), Hrun.
      exists b, g', (p :: added1 ++ q :: added2).
      split; [f_equal; f_equal; by rewrite <- !app_assoc|].
      split; [by apply tried_backtrack|].
      split; [constructor; [done|]; apply Forall_app; split; [done|by constructor]|].
      split.
      * rewrite replay_cons, replay_app, replay_cons.
        change (applyStep g p) with (set g row col num). rewrite Hall.
        change (applyStep (set g row col num) q) with (set (set g row col num) row col 0).
        rewrite set_clear by done. exact Hall2.
      * cbn zeta. change (List.filter isPlace (p :: added1 ++ q :: added2))
          with (p :: List.filter isPlace (added1 ++ q :: added2)).
        rewrite List.filter_app.
        change (List.filter isPlace (q :: added2)) with (List.filter isPlace added2).
        rewrite replay_cons, replay_app. exact Hplaces2.
Qed.

Lemma solvePuzzleWithSteps_recorded (fuel : nat) :
  ∀ g h steps, wf g → wf h → extends g h → countEmpty g < fuel →
  recorded g h steps (solvePuzzleWithSteps fuel g steps).
Proof.
  induction fuel as [|fuel IH]; intros g h steps Hwf Hh Hext Hfuel; [lia|].
  rewrite solvePuzzleWithSteps_S.
  destruct (findEmptyCell g) as [[row col]|] eqn:Hfind.
  - apply findEmptyCell_Some in Hfind as (Hr & Hc & Hz).
    destruct (tryAscending_recorded (solvePuzzleWithSteps fuel) fuel g row col IH
                Hwf Hr Hc Hz ltac:(lia) digits h steps
                ltac:(intros; by apply in_digits) Hh Hext)
      as (b & g' & added & Hrun & Htried & Hrest).
    exists b, g', added. split; [done|].
    split; [by apply (tried_digits g row col Hwf Hr Hc Hz digits)|done].
  - exists true, g, []. rewrite app_nil_r. split; [done|].
    split; [by apply fills_full|]. split; [constructor|]. split; [done|].
    cbn. apply grid_ext; [done..|]. intros row col Hr Hc. apply Hext; [done..|].
    by apply findEmptyCell_None.
Qed.

End Steps.

(** X5. The steps [solvePuzzleWithSteps] records are a faithful log: the
    steps it was given are kept, each added step is on a cell that was empty
    in the given grid (a digit for a placement, 0 for a backtrack), and
    writing the added steps in order to the given grid gives the grid the
    call leaves behind, which after a failure is the given grid. *)
Theorem solvePuzzleWithSteps_replay (fuel : nat) (g : Grid) (steps : list Step) :
  wf g → countEmpty g < fuel →
  ∃ b g' added,
    solvePuzzleWithSteps fuel g steps = Some (b, g', steps ++ added) ∧
    Forall (stepOn g) added ∧ replay g added = g' ∧ (b = false → g' = g).
Proof.
  intros Hwf Hfuel.
  destruct (solvePuzzleWithSteps_recorded fuel g g steps Hwf Hwf (extends_refl g) Hfuel)
    as (b & g' & added & Hrun & Hsolved & Hon & Hall & _).
  exists b, g', added. split; [done|]. split; [done|]. split; [done|].
  intros ->. by destruct Hsolved.
Qed.

Lemma solvePuzzleWithSteps_replay_witness :
  wf deadEndGrid ∧ countEmpty deadEndGrid < 82 ∧
  ∃ b g' added,
    solvePuzzleWithSteps 82 deadEndGrid [] = Some (b, g', [] ++ added) ∧
    Forall (stepOn deadEndGrid) added ∧ replay deadEndGrid added = g' ∧
    (b = false → g' = deadEndGrid).
Proof.
  assert (wf deadEndGrid) as H1 by (apply wfb_wf; vm_compute; reflexivity).
  assert (countEmpty deadEndGrid < 82) as H2 by (vm_compute; lia).
  split; [exact H1|]. split; [exact H2|].
  exact (solvePuzzleWithSteps_replay 82 deadEndGrid [] H1 H2).
Defined.

(** X6. The steps [solveCurrentPuzzle] returns are placements of digits on
    cells that are empty in the engine's grid, and after a success writing
    them in order to that grid gives the returned solution: the placements
    that were backtracked are overwritten by later ones. *)
Theorem solveCurrentPuzzle_placements (e : Engine) :
  wf (grid e) →
  ∃ r, solveCurrentPuzzle e = Some r ∧
       Forall (fun s => step_type s = place ∧ stepOn (grid e) s) (placements r) ∧
       (∀ s, solved_grid r = Some s → replay (grid e) (placements r) = s) ∧
       (solved_grid r = None → success r = false).
Proof.
  intros Hwf. unfold solveCurrentPuzzle. rewrite copyGrid_id.
  destruct (solvePuzzleWithSteps_recorded searchFuel (grid e) (grid e) [] Hwf Hwf
              (extends_refl _) (countEmpty_fuel _))
    as (b & g' & added & -> & Hsolved & Hon & Hall & Hplaces).
  eexists. split; [reflexivity|]. cbn [placements solved_grid success app].
  split; [|split].
  - apply List.Forall_forall. intros s [Hs Hp]%filter_In.
    rewrite List.Forall_forall in Hon. split; [|by apply Hon].
    unfold isPlace in Hp. by destruct (step_type s).
  - intros s Hs. destruct b; [|done]. injection Hs as <-. exact Hplaces.
  - by destruct b.
Qed.

Lemma solveCurrentPuzzle_placements_witness :
  wf (grid oneHoleEngine) ∧
  ∃ r, solveCurrentPuzzle oneHoleEngine = Some r ∧
       Forall (fun s => step_type s = place ∧ stepOn (grid oneHoleEngine) s)
              (placements r) ∧
       (∀ s, solved_grid r = Some s → replay (grid oneHoleEngine) (placements r) = s) ∧
       (solved_grid r = None → success r = false).
Proof.
  assert (wf (grid oneHoleEngine)) as H1 by (apply wfb_wf; vm_compute; reflexivity).
  split; [exact H1|]. exact (solveCurrentPuzzle_placements oneHoleEngine H1).
Defined.

(* ===================================================================== *)
(** ** findEmptyCell and getPossibleValues *)
(* ===================================================================== *)

Section FirstEmpty.





End FirstEmpty.





(* ===================================================================== *)
(** ** What validatePuzzle reports *)
(* ===================================================================== *)

Section Reports.

Lemma clashesb_spec (g : Grid) (row col : nat) :
  clashesb g (row, col) = true ↔ clashes g row col.
Proof.
  unfold clashesb, clashes, isEmptyAt. cbn [fst snd].
  rewrite andb_true_iff, negb_true_iff, Z.eqb_neq, existsb_exists. split.
  - intros [Hnz ([r c] & Hin & H)]. split; [done|]. apply in_cells in Hin as [Hr Hc].
    cbn [fst snd] in H.
    apply andb_true_iff in H as [[Hne Hpeer]%andb_true_iff Hv].
    exists r, c. split; [done|]. split; [done|]. split.
    + intros Heq. apply negb_true_iff in Hne.
      by rewrite (proj2 (cellEq_eq _ _) Heq) in Hne.
    + split; [done|by apply Z.eqb_eq].
  - intros [Hnz (r & c & Hr & Hc & Hne & Hpeer & Hv)]. split; [done|].
    exists (r, c). split; [by apply in_cells|]. cbn [fst snd].
    rewrite Hpeer, Hv, Z.eqb_refl, !andb_true_r. apply negb_true_iff.
    destruct (cellEq (r, c) (row, col)) eqn:E; [|done].
    by apply cellEq_eq in E.
Qed.

(** With the cell cleared, [isValidMove] with its value looks for a clash. *)
Lemma isValidMove_cleared (g : Grid) (row col : nat) :
  wf g → row < 9 → col < 9 → get g row col ≠ 0%Z →
  isValidMove (set g row col 0) row col (get g row col) = negb (clashesb g (row, col)).
Proof.
  intros Hwf Hr Hc Hnz. destruct (clashesb g (row, col)) eqn:E; cbn [negb].
  - apply clashesb_spec in E as [_ (r & c & Hr' & Hc' & Hne & Hpeer & Hv)].
    destruct (isValidMove _ row col _) eqn:Hvalid; [exfalso|done].
    rewrite isValidMove_spec in Hvalid by done.
    apply (Hvalid r c Hr' Hc' Hpeer). by rewrite get_set_ne by congruence.
  - apply isValidMove_spec; [done..|]. intros r c Hr' Hc' Hpeer.
    destruct (decide ((row, col) = (r, c))) as [[= <- <-]|Hne].
    + rewrite get_set_eq by done. congruence.
    + rewrite get_set_ne by done. intros Hv.
      assert (clashesb g (row, col) = true) as Ht; [|congruence].
      apply clashesb_spec. split; [done|]. exists r, c. split_and!; (done || congruence).
Qed.

Lemma validateCell_reports (g : Grid) (errs : list CellError) (p : nat * nat) :
  wf g → In p cells →
  validateCell (g, errs) p =
  (g, if clashesb g p then errs ++ [errorAt g p] else errs).
Proof.
  intros Hwf Hp. destruct p as [row col]. apply in_cells in Hp as [Hr Hc].
  unfold validateCell. destruct (Z.eqb_spec (get g row col) 0) as [Hz|Hnz]; cbn [negb].
  - unfold clashesb, isEmptyAt. cbn [fst snd]. by rewrite Hz.
  - rewrite set_restore by done. rewrite isValidMove_cleared by done.
    rewrite negb_involutive. done.
Qed.

Lemma foldl_validateCell_reports (g : Grid) (l : list (nat * nat)) :
  wf g → (∀ p, In p l → In p cells) →
  ∀ errs, foldl validateCell (g, errs) l =
          (g, errs ++ map (errorAt g) (List.filter (clashesb g) l)).
Proof.
  intros Hwf. induction l as [|p l IH]; intros Hl errs; cbn [foldl List.filter map].
  - by rewrite app_nil_r.
  - rewrite validateCell_reports by (done || apply Hl; by left).
    rewrite IH by (intros; apply Hl; by right).
    destruct (clashesb g p); [|done]. cbn [map]. by rewrite <- app_assoc.
Qed.

(** The errors of [validatePuzzle] are the clashing cells in scan order. *)
Lemma validatePuzzle_reports (g : Grid) :
  wf g →
  validatePuzzle g =
  (g, let errs := map (errorAt g) (List.filter (clashesb g) cells) in
      mkValidation (length errs =? 0) errs).
Proof.
  intros Hwf. unfold validatePuzzle.
  by rewrite foldl_validateCell_reports.
Qed.

Lemma reported_iff (g : Grid) (row col : nat) (v : Z) :
  In (mkCellError row col v) (map (errorAt g) (List.filter (clashesb g) cells)) ↔
  row < 9 ∧ col < 9 ∧ v = get g row col ∧ clashes g row col.
Proof.
  rewrite in_map_iff. split.
  - intros ([r c] & [= -> -> <-] & [Hin Hcl]%filter_In).
    apply in_cells in Hin as [Hr Hc]. by apply clashesb_spec in Hcl.
  - intros (Hr & Hc & -> & Hcl). exists (row, col). split; [done|].
    apply filter_In. split; [by apply in_cells|by apply clashesb_spec].
Qed.

End Reports.

(** X9. The errors [validatePuzzle] returns are, in row-major order and each
    once, the filled cells whose value another cell of their row, column or
    box holds too, with that value; and [isValid] is true exactly when
    there is no such cell. *)
Theorem validatePuzzle_errors (g : Grid) :
  wf g →
  errors (validatePuzzle g).2 = map (errorAt g) (List.filter (clashesb g) cells) ∧
  (∀ row col v, In (mkCellError row col v) (errors (validatePuzzle g).2) ↔
                row < 9 ∧ col < 9 ∧ v = get g row col ∧ clashes g row col) ∧
  (isValid (validatePuzzle g).2 = true ↔
   ∀ row col, row < 9 → col < 9 → ¬ clashes g row col).
Proof.
  intros Hwf. rewrite validatePuzzle_reports by done. cbn [snd errors isValid].
  split; [done|]. split; [apply reported_iff|].
  rewrite Nat.eqb_eq. split.
  - intros Hlen row col Hr Hc Hcl.
    assert (In (mkCellError row col (get g row col))
               (map (errorAt g) (List.filter (clashesb g) cells))) as Hin
      by (by apply reported_iff).
    destruct (map _ _); [done|discriminate].
  - intros Hnone. destruct (map _ _) as [|[row col v] l] eqn:E; [done|exfalso].
    assert (In (mkCellError row col v) (map (errorAt g) (List.filter (clashesb g) cells)))
      as Hin by (rewrite E; by left).
    apply reported_iff in Hin as (Hr & Hc & _ & Hcl). by apply (Hnone row col).
Qed.

Lemma validatePuzzle_errors_witness :
  wf clashGrid ∧
  errors (validatePuzzle clashGrid).2 =
    map (errorAt clashGrid) (List.filter (clashesb clashGrid) cells) ∧
  (∀ row col v, In (mkCellError row col v) (errors (validatePuzzle clashGrid).2) ↔
                row < 9 ∧ col < 9 ∧ v = get clashGrid row col ∧ clashes clashGrid row col) ∧
  (isValid (validatePuzzle clashGrid).2 = true ↔
   ∀ row col, row < 9 → col < 9 → ¬ clashes clashGrid row col).
Proof.
  assert (wf clashGrid) as H by (apply wfb_wf; vm_compute; reflexivity).
  split; [exact H|]. exact (validatePuzzle_errors clashGrid H).
Defined.


Section Moves.

Lemma map_filter_ext {A B} (f f' : A → B) (P P' : A → bool) (l : list A) :
  (∀ a, In a l → P a = P' a ∧ (P a = true → f a = f' a)) →
  map f (List.filter P l) = map f' (List.filter P' l).
Proof.
  induction l as [|a l IH]; intros H; [done|]. cbn [List.filter].
  destruct (H a ltac:(by left)) as [HP Hf]. rewrite <- HP.
  specialize (IH (fun b Hb => H b (or_intror Hb))).
  destruct (P a); [|done]. cbn [map]. by rewrite Hf, IH.
Qed.

(** A clash that is there after a legal move was there before it. *)
Lemma clashes_after_move (g : Grid) (row col : nat) (v : Z) (r c : nat) :
  wf g → row < 9 → col < 9 → r < 9 → c < 9 →
  isValidMove g row col v = true →
  clashes (set g row col v) r c → (r, c) ≠ (row, col) ∧ clashes g r c.
Proof.
  intros Hwf Hr Hc Hr' Hc' Hvalid [Hnz (r2 & c2 & Hr2 & Hc2 & Hne & Hpeer & Hv)].
  rewrite isValidMove_spec in Hvalid by done.
  assert ((r, c) ≠ (row, col)) as Hcell.
  { intros [= -> ->]. rewrite get_set_eq in Hv by done.
    rewrite get_set_ne in Hv by congruence. by apply (Hvalid r2 c2). }
  split; [done|]. rewrite (get_set_ne g row col v r c) in Hnz, Hv by congruence.
  split; [done|]. exists r2, c2. split_and!; try done.
  destruct (decide ((row, col) = (r2, c2))) as [[= <- <-]|Hne2].
  - rewrite get_set_eq in Hv by done. exfalso.
    apply (Hvalid r c Hr' Hc'); [by rewrite peer_sym|done].
  - by rewrite get_set_ne in Hv.
Qed.

Lemma clashes_before_move (g : Grid) (row col : nat) (v : Z) (r c : nat) :
  wf g → row < 9 → col < 9 → get g row col = 0%Z →
  clashes g r c → clashes (set g row col v) r c.
Proof.
  intros Hwf Hr Hc Hz [Hnz (r2 & c2 & Hr2 & Hc2 & Hne & Hpeer & Hv)].
  assert ((row, col) ≠ (r, c)) as Hcell by (intros [= <- <-]; done).
  assert ((row, col) ≠ (r2, c2)) as Hcell2 by (intros [= <- <-]; congruence).
  split; [by rewrite get_set_ne|]. exists r2, c2. split_and!; try done.
  by rewrite !get_set_ne.
Qed.

End Moves.

(** X10. A move that [isValidMove] accepts brings no new validation error:
    after writing the value to the cell, [validatePuzzle] reports nothing at
    that cell and nothing that it did not report before; when the cell was
    empty, it reports exactly what it reported before. *)
Theorem valid_move_no_new_errors (g : Grid) (row col : nat) (v : Z) :
  wf g → row < 9 → col < 9 → isValidMove g row col v = true →
  let before := errors (validatePuzzle g).2 in
  let after := errors (validatePuzzle (set g row col v)).2 in
  (∀ w, ¬ In (mkCellError row col w) after) ∧
  (∀ e, In e after → In e before) ∧
  (get g row col = 0%Z → after = before).
Proof.
  intros Hwf Hr Hc Hvalid before after. subst before after.
  pose proof (wf_set g row col v Hwf) as Hwf'.
  rewrite !validatePuzzle_reports by done. cbn [snd errors].
  split; [|split].
  - intros w (_ & _ & _ & Hcl)%reported_iff.
    by destruct (clashes_after_move g row col v row col Hwf Hr Hc Hr Hc Hvalid Hcl).
  - intros [r c w] (Hr' & Hc' & -> & Hcl)%reported_iff.
    destruct (clashes_after_move g row col v r c Hwf Hr Hc Hr' Hc' Hvalid Hcl)
      as [Hne Hcl'].
    apply reported_iff. split_and!; try done. by rewrite get_set_ne by congruence.
  - intros Hz. apply map_filter_ext. intros [r c] [Hr' Hc']%in_cells.
    assert (clashesb (set g row col v) (r, c) = clashesb g (r, c)) as Heq.
    { destruct (clashesb g (r, c)) eqn:E.
      - apply clashesb_spec. apply clashes_before_move; [done..|].
        by apply clashesb_spec.
      - destruct (clashesb (set g row col v) (r, c)) eqn:E'; [|done].
        apply clashesb_spec in E'.
        destruct (clashes_after_move g row col v r c Hwf Hr Hc Hr' Hc' Hvalid E')
          as [_ Hcl]. apply clashesb_spec in Hcl. congruence. }
    split; [done|]. intros Hcl. apply clashesb_spec in Hcl.
    destruct (clashes_after_move g row col v r c Hwf Hr Hc Hr' Hc' Hvalid Hcl)
      as [Hne _].
    unfold errorAt. cbn [fst snd]. by rewrite get_set_ne by congruence.
Qed.

Lemma valid_move_no_new_errors_witness :
  wf oneHoleGrid ∧ 0 < 9 ∧ 0 < 9 ∧ isValidMove oneHoleGrid 0 0 5 = true ∧
  (let before := errors (validatePuzzle oneHoleGrid).2 in
   let after := errors (validatePuzzle (set oneHoleGrid 0 0 5)).2 in
   (∀ w, ¬ In (mkCellError 0 0 w) after) ∧
   (∀ e, In e after → In e before) ∧
   (get oneHoleGrid 0 0 = 0%Z → after = before)).
Proof.
  assert (wf oneHoleGrid) as H1 by (apply wfb_wf; vm_compute; reflexivity).
  assert (0 < 9) as H2 by lia.
  assert (isValidMove oneHoleGrid 0 0 5 = true) as H3 by (vm_compute; reflexivity).
  split; [exact H1|]. split; [exact H2|]. split; [exact H2|]. split; [exact H3|].
  exact (valid_move_no_new_errors oneHoleGrid 0 0 5 H1 H2 H2 H3).
Defined.

(** X11. Validation errors come with a partner: for every cell that
    [validatePuzzle] reports it also reports another cell of the same row,
    column or box with the same value; so it never reports exactly one
    error. *)
Theorem validatePuzzle_errors_paired (g : Grid) :
  wf g →
  (∀ row col v, In (mkCellError row col v) (errors (validatePuzzle g).2) →
     ∃ r c, (r, c) ≠ (row, col) ∧ peer row col r c = true ∧
            In (mkCellError r c v) (errors (validatePuzzle g).2)) ∧
  length (errors (validatePuzzle g).2) ≠ 1.
Proof.
  intros Hwf. rewrite validatePuzzle_reports by done. cbn [snd errors].
  assert (∀ row col v,
            In (mkCellError row col v) (map (errorAt g) (List.filter (clashesb g) cells)) →
            ∃ r c, (r, c) ≠ (row, col) ∧ peer row col r c = true ∧
                   In (mkCellError r c v)
                      (map (errorAt g) (List.filter (clashesb g) cells))) as Hpair.
  { intros row col v (Hr & Hc & -> & Hnz & r & c & Hr' & Hc' & Hne & Hpeer & Hv)%reported_iff.
    exists r, c. split; [done|]. split; [done|].
    apply reported_iff. split_and!; try done.
    split; [congruence|]. exists row, col. split_and!; try done; try congruence.
    by rewrite peer_sym. }
  split; [done|].
  destruct (map _ _) as [|[row col v] [|e l]] eqn:E; [done| |simpl; lia].
  destruct (Hpair row col v ltac:(by left)) as (r & c & Hne & _ & [[= -> ->]|[]]).
  done.
Qed.

Lemma validatePuzzle_errors_paired_witness :
  wf clashGrid ∧
  (∀ row col v, In (mkCellError row col v) (errors (validatePuzzle clashGrid).2) →
     ∃ r c, (r, c) ≠ (row, col) ∧ peer row col r c = true ∧
            In (mkCellError r c v) (errors (validatePuzzle clashGrid).2)) ∧
  length (errors (validatePuzzle clashGrid).2) ≠ 1.
Proof.
  assert (wf clashGrid) as H by (apply wfb_wf; vm_compute; reflexivity).
  split; [exact H|]. exact (validatePuzzle_errors_paired clashGrid H).
Defined.

(** X12. On a grid with values in [0,9], [isComplete] leaves the grid as it
    is and returns true exactly when the grid is complete: no empty cell,
    and each value 1-9 exactly once in each row, column and box. *)
Theorem isComplete_iff_complete (g : Grid) :
  wf g → inRange g →
  (isComplete g).1 = g ∧ ((isComplete g).2 = true ↔ completeGrid g).
Proof.
  intros Hwf Hrange. unfold isComplete.
  destruct (existsb (isEmptyAt g) cells) eqn:Hempty.
  - split; [done|]. split; [done|]. intros (_ & Hnz & _).
    apply existsb_isEmptyAt in Hnz. congruence.
  - rewrite validatePuzzle_reports by done. cbn zeta. cbn [fst snd isValid].
    split; [done|]. rewrite existsb_isEmptyAt in Hempty. split.
    + intros Hlen%Nat.eqb_eq. apply completeGrid_clashFree. split; [done|]. split.
      * intros row col Hr Hc. specialize (Hrange row col Hr Hc).
        specialize (Hempty row col Hr Hc). unfold isDigit. lia.
      * intros row col Hr Hc r c Hr' Hc' Hne Hpeer Hv.
        assert (In (mkCellError row col (get g row col))
                   (map (errorAt g) (List.filter (clashesb g) cells))) as Hin.
        { apply reported_iff. split_and!; try done.
          split; [by apply Hempty|]. by exists r, c. }
        destruct (map _ _); [done|discriminate].
    + intros Hcomplete. destruct (completeGrid_validates g Hcomplete) as [Hv _].
      pose proof (f_equal (fun x => isValid x.2) Hv) as Hv1.
      rewrite validatePuzzle_reports in Hv1 by done. exact Hv1.
Qed.

Lemma isComplete_iff_complete_witness :
  wf oneHoleGrid ∧ inRange oneHoleGrid ∧
  (isComplete oneHoleGrid).1 = oneHoleGrid ∧
  ((isComplete oneHoleGrid).2 = true ↔ completeGrid oneHoleGrid).
Proof.
  assert (wf oneHoleGrid) as H1 by (apply wfb_wf; vm_compute; reflexivity).
  assert (inRange oneHoleGrid) as H2 by (apply inRangeb_spec; vm_compute; reflexivity).
  split; [exact H1|]. split; [exact H2|]. exact (isComplete_iff_complete oneHoleGrid H1 H2).
Defined.


Section HintsOnPuzzles.

(** On a grid that agrees with a complete solution, the solution's value at
    an empty cell is a move [isValidMove] accepts. *)
Lemma solution_value_valid (sol g : Grid) (row col : nat) :
  completeGrid sol → extends g sol → row < 9 → col < 9 → get g row col = 0%Z →
  isValidMove g row col (get sol row col) = true ∧ isDigit (get sol row col).
Proof.
  intros (Hwf & Hdig & Hclash)%completeGrid_clashFree Hext Hr Hc Hz.
  split; [|by apply Hdig]. apply isValidMove_spec; [done..|].
  intros r c Hr' Hc' Hpeer Hv.
  assert (get g r c ≠ 0%Z) as Hnz.
  { rewrite Hv. specialize (Hdig row col Hr Hc). unfold isDigit in Hdig. lia. }
  apply (Hclash row col Hr Hc r c Hr' Hc'); [congruence|done|].
  by rewrite (Hext r c Hr' Hc' Hnz).
Qed.

Lemma possibilityCount_pos (sol g : Grid) (row col : nat) :
  completeGrid sol → extends g sol → row < 9 → col < 9 → get g row col = 0%Z →
  1 ≤ possibilityCount g (row, col).
Proof.
  intros Hsol Hext Hr Hc Hz.
  destruct (solution_value_valid sol g row col Hsol Hext Hr Hc Hz) as [Hv Hd].
  unfold possibilityCount, getPossibleValues. cbn [fst snd].
  assert (In (get sol row col)
             (List.filter (fun num => isValidMove g row col num) digits)) as Hin.
  { apply filter_In. split; [by apply in_digits|done]. }
  destruct (List.filter _ digits); [done|simpl; lia].
Qed.

End HintsOnPuzzles.

(** X13. On a grid whose filled cells agree with the stored complete
    solution, every hint of [getHint] is a legal move at a cell with the
    fewest possible values of all empty cells; placing it keeps the grid in
    agreement with the solution and leaves one empty cell less. *)
Theorem getHint_on_track (sol g : Grid) (h : Hint) :
  wf g → completeGrid sol → extends g sol → getHint sol g = Some h →
  let g' := set g (hint_row h) (hint_col h) (hint_value h) in
  In (hint_value h) (getPossibleValues g (hint_row h) (hint_col h)) ∧
  isValidMove g (hint_row h) (hint_col h) (hint_value h) = true ∧
  (∀ q, In q (emptyCellsOf g) →
        possibilityCount g (hint_row h, hint_col h) ≤ possibilityCount g q) ∧
  extends g' sol ∧ S (countEmpty g') = countEmpty g.
Proof.
  intros Hwf Hsol Hext Hhint g'. subst g'.
  destruct (getHint_Some sol g h Hhint) as (Hval & l1 & l2 & Hsplit & Hchoice).
  assert (In (hint_row h, hint_col h) (emptyCellsOf g)) as Hin.
  { rewrite Hsplit. apply in_or_app. right. by left. }
  apply emptyCellsOf_In in Hin as (Hr & Hc & Hz).
  destruct (solution_value_valid sol g _ _ Hsol Hext Hr Hc Hz) as [Hvalid Hdig].
  rewrite Hval. split_and!.
  - apply filter_In. split; [by apply in_digits|done].
  - done.
  - intros [r c] Hq. pose proof Hq as (Hr' & Hc' & Hz')%emptyCellsOf_In.
    pose proof (possibilityCount_pos sol g r c Hsol Hext Hr' Hc' Hz') as Hpos.
    rewrite Hsplit in Hq. apply in_app_or in Hq.
    destruct Hchoice as [[Hle _]|(_ & Hl1 & Hl2)]; [lia|].
    destruct Hq as [Hq|[Hq|Hq]].
    + specialize (Hl1 _ Hq). lia.
    + by rewrite Hq.
    + by apply Hl2.
  - intros r c Hr' Hc' Hnz.
    destruct (decide ((hint_row h, hint_col h) = (r, c))) as [[= <- <-]|Hne].
    + by rewrite get_set_eq.
    + rewrite get_set_ne in Hnz |- * by done. by apply Hext.
  - apply countEmpty_set; [done..|]. unfold isDigit in Hdig. lia.
Qed.

Lemma getHint_on_track_witness :
  wf oneHoleGrid ∧ completeGrid canonicalGrid ∧ extends oneHoleGrid canonicalGrid ∧
  getHint canonicalGrid oneHoleGrid = Some (mkHint 0 0 5) ∧
  In 5%Z (getPossibleValues oneHoleGrid 0 0) ∧
  isValidMove oneHoleGrid 0 0 5 = true ∧
  (∀ q, In q (emptyCellsOf oneHoleGrid) →
        possibilityCount oneHoleGrid (0, 0) ≤ possibilityCount oneHoleGrid q) ∧
  extends (set oneHoleGrid 0 0 5) canonicalGrid ∧
  S (countEmpty (set oneHoleGrid 0 0 5)) = countEmpty oneHoleGrid.
Proof.
  assert (wf oneHoleGrid) as H1 by (apply wfb_wf; vm_compute; reflexivity).
  assert (completeGrid canonicalGrid) as H2
    by (apply completeGridb_spec; vm_compute; reflexivity).
  assert (extends oneHoleGrid canonicalGrid) as H3
    by (apply extendsb_spec; vm_compute; reflexivity).
  assert (getHint canonicalGrid oneHoleGrid = Some (mkHint 0 0 5)) as H4
    by (vm_compute; reflexivity).
  split; [exact H1|]. split; [exact H2|]. split; [exact H3|]. split; [exact H4|].
  exact (getHint_on_track canonicalGrid oneHoleGrid (mkHint 0 0 5) H1 H2 H3 H4).
Defined.

(** X14. [findAllSolutions] with any bound and any solutions found so far:
    the grid is left as it was, the earlier solutions are kept in front, the
    added ones are distinct fillings of the grid, the array never grows past
    the bound, the returned flag tells whether the bound is not yet reached,
    and in that case every filling of the grid has been added. *)
Theorem findAllSolutions_bounded (g : Grid) (solutions : list Grid) (maxSolutions : nat) :
  wf g →
  ∃ added continue,
    findAllSolutions searchFuel g solutions maxSolutions =
      Some (g, solutions ++ added, continue) ∧
    Forall (fills g) added ∧ List.NoDup added ∧
    length (solutions ++ added) ≤ Nat.max maxSolutions (length solutions) ∧
    (maxSolutions ≤ length solutions → added = [] ∧ continue = false) ∧
    (continue = true ↔ length (solutions ++ added) < maxSolutions) ∧
    (continue = true → ∀ s, fills g s → In s added).
Proof.
  intros Hwf. pose proof (countEmpty_fuel g) as Hfuel.
  destruct (decide (maxSolutions ≤ length solutions)) as [Hfull|Hroom].
  - exists [], false. unfold searchFuel. rewrite findAllSolutions_S.
    rewrite (proj2 (Nat.leb_le _ _) Hfull), app_nil_r.
    split_and!; try done; try (by constructor); lia.
  - rewrite findAllSolutions_spec by (done || lia).
    set (all := allSolutions searchFuel g).
    exists (firstn (maxSolutions - length solutions) all),
           (length (solutions ++ all) <? maxSolutions).
    assert (firstn maxSolutions (solutions ++ all) =
            solutions ++ firstn (maxSolutions - length solutions) all) as ->.
    { rewrite (firstn_app maxSolutions solutions all).
      by rewrite firstn_all2 by lia. }
    split; [done|].
    assert (∀ s, In s all ↔ fills g s) as Hall
      by (intros s; by apply allSolutions_In).
    assert (length (solutions ++ firstn (maxSolutions - length solutions) all) =
            length solutions + Nat.min (maxSolutions - length solutions) (length all))
      as Hlen by (by rewrite length_app, length_firstn).
    split_and!.
    + apply List.Forall_forall. intros s Hs. apply Hall.
      rewrite <- (firstn_skipn (maxSolutions - length solutions) all).
      apply in_or_app. by left.
    + pose proof (allSolutions_NoDup searchFuel g Hwf Hfuel) as Hnd.
      fold all in Hnd. rewrite <- (firstn_skipn (maxSolutions - length solutions) all) in Hnd.
      by apply List.NoDup_app_remove_r in Hnd.
    + lia.
    + lia.
    + rewrite Nat.ltb_lt, Hlen, length_app. lia.
    + intros Hcont%Nat.ltb_lt s Hs. rewrite length_app in Hcont.
      rewrite firstn_all2 by lia. by apply Hall.
Qed.

Lemma findAllSolutions_bounded_witness :
  wf oneHoleGrid ∧
  ∃ added continue,
    findAllSolutions searchFuel oneHoleGrid [] 2 = Some (oneHoleGrid, [] ++ added, continue) ∧
    Forall (fills oneHoleGrid) added ∧ List.NoDup added ∧
    length ([] ++ added) ≤ Nat.max 2 (length (@nil Grid)) ∧
    (2 ≤ length (@nil Grid) → added = [] ∧ continue = false) ∧
    (continue = true ↔ length ([] ++ added) < 2) ∧
    (continue = true → ∀ s, fills oneHoleGrid s → In s added).
Proof.
  assert (wf oneHoleGrid) as H by (apply wfb_wf; vm_compute; reflexivity).
  split; [exact H|]. exact (findAllSolutions_bounded oneHoleGrid [] 2 H).
Defined.


Section Clearing.

Lemma removalLoop_clears (start : Grid) (target : option nat) (fuel : nat) :
  ∀ s, clearingInv start s → 1000 ≤ r_attempts s + fuel →
  ∃ s', removalLoop fuel target s = Some s' ∧ clearingInv start s' ∧
        (belowTarget (r_removed s') target = false ∨ r_attempts s' = 1000).
Proof.
  induction fuel as [|fuel IH]; intros s Hinv Hfuel; rewrite removalLoop_eq;
    pose proof Hinv as (Hwf & Hext & Hcnt & Hatt & Hzero & Huniq).
  - destruct (belowTarget (r_removed s) target) eqn:E1; [|exists s; split_and!; auto].
    destruct (r_attempts s <? 1000) eqn:E2; [apply Nat.ltb_lt in E2; lia|].
    exists s. apply Nat.ltb_ge in E2. simpl. split_and!; [done..|lia].
  - destruct (belowTarget (r_removed s) target) eqn:E1; [|exists s; split_and!; auto].
    destruct (r_attempts s <? 1000) eqn:E2;
      [|exists s; apply Nat.ltb_ge in E2; simpl; split_and!; [done..|lia]].
    apply Nat.ltb_lt in E2. cbn [andb].
    pose proof (randomBelow_lt 9 (r_rnd s) ltac:(lia)) as Hr.
    destruct (randomBelow 9 (r_rnd s)) as [row rnd1]. cbn [fst] in Hr.
    pose proof (randomBelow_lt 9 rnd1 ltac:(lia)) as Hc.
    destruct (randomBelow 9 rnd1) as [col rnd2]. cbn [fst] in Hc. cbv zeta.
    destruct (Z.eqb_spec (get (r_grid s) row col) 0) as [Hz|Hnz]; cbn [negb].
    + apply IH; [|simpl; lia]. unfold clearingInv. simpl. split_and!; try done; lia.
    + pose proof (wf_set (r_grid s) row col 0 Hwf) as Hwf1.
      rewrite (hasUniqueSolution_allSolutions _ Hwf1).
      destruct (length (allSolutions searchFuel (set (r_grid s) row col 0)) =? 1) eqn:Hu.
      * apply IH; [|simpl; lia]. unfold clearingInv. simpl. split_and!.
        -- done.
        -- intros r c Hr' Hc' Hne.
           destruct (decide ((row, col) = (r, c))) as [[= <- <-]|Hcell].
           ++ by rewrite get_set_eq in Hne.
           ++ rewrite get_set_ne in * by done. by apply Hext.
        -- pose proof (countEmpty_set (set (r_grid s) row col 0) row col
                         (get (r_grid s) row col) Hwf1 Hr Hc
                         ltac:(by rewrite get_set_eq) Hnz) as Hc1.
           rewrite set_restore in Hc1 by done. lia.
        -- lia.
        -- lia.
        -- intros _. rewrite (hasUniqueSolution_allSolutions _ Hwf1). by rewrite Hu.
      * rewrite set_restore by done. apply IH; [|simpl; lia].
        unfold clearingInv. simpl. split_and!; try done; lia.
Qed.

End Clearing.

(** X15. From any engine state whose difficulty has a settings entry,
    [createPuzzle] ends normally after at most 1000 attempts and only
    clears cells of [this.grid]: no filled value is changed, the number of
    empty cells grows by the number of removals, [solution], [initialGrid]
    and [difficulty] are left alone, the grid after at least one removal
    passes [hasUniqueSolution], and the loop stops only with its target
    reached or its 1000 attempts used. *)
Theorem createPuzzle_only_clears (e : Engine) (rnd : Rand) :
  wf (grid e) → difficultySettings (difficulty e) ≠ UndefinedSetting →
  ∃ e' rnd' attempts removed,
    createPuzzle e rnd = Normal e' rnd' (attempts, removed) ∧
    solution e' = solution e ∧ initialGrid e' = initialGrid e ∧
    difficulty e' = difficulty e ∧
    wf (grid e') ∧ extends (grid e') (grid e) ∧
    countEmpty (grid e') = countEmpty (grid e) + removed ∧
    attempts ≤ 1000 ∧
    (removed = 0 → grid e' = grid e) ∧
    (0 < removed → hasUniqueSolution (grid e') = Some true) ∧
    (belowTarget removed (cellsToRemoveOf (difficultySettings (difficulty e))) = false
     ∨ attempts = 1000).
Proof.
  intros Hwf Hset. unfold createPuzzle.
  assert (clearingInv (grid e) (mkRemoval (grid e) 0 0 rnd)) as Hinv.
  { unfold clearingInv. simpl. split_and!; try done; try lia. }
  destruct (removalLoop_clears (grid e)
              (cellsToRemoveOf (difficultySettings (difficulty e))) 1000
              _ Hinv ltac:(simpl; lia))
    as (s' & Hloop & (Hwf' & Hext & Hcnt & Hatt & Hzero & Huniq) & Hstop).
  exists (mkEngine (r_grid s') (solution e) (initialGrid e) (difficulty e)),
         (r_rnd s'), (r_attempts s'), (r_removed s').
  split; [|by split_and!].
  destruct (difficultySettings (difficulty e)); [| |done]; by rewrite Hloop.
Qed.

Lemma createPuzzle_only_clears_witness :
  wf (grid oneHoleEngine) ∧
  difficultySettings (difficulty oneHoleEngine) ≠ UndefinedSetting ∧
  ∃ e' rnd' attempts removed,
    createPuzzle oneHoleEngine (fun _ => 0) = Normal e' rnd' (attempts, removed) ∧
    solution e' = solution oneHoleEngine ∧ initialGrid e' = initialGrid oneHoleEngine ∧
    difficulty e' = difficulty oneHoleEngine ∧
    wf (grid e') ∧ extends (grid e') (grid oneHoleEngine) ∧
    countEmpty (grid e') = countEmpty (grid oneHoleEngine) + removed ∧
    attempts ≤ 1000 ∧
    (removed = 0 → grid e' = grid oneHoleEngine) ∧
    (0 < removed → hasUniqueSolution (grid e') = Some true) ∧
    (belowTarget removed
       (cellsToRemoveOf (difficultySettings (difficulty oneHoleEngine))) = false
     ∨ attempts = 1000).
Proof.
  assert (wf (grid oneHoleEngine)) as H1 by (apply wfb_wf; vm_compute; reflexivity).
  assert (difficultySettings (difficulty oneHoleEngine) ≠ UndefinedSetting) as H2
    by (vm_compute; discriminate).
  split; [exact H1|]. split; [exact H2|].
  exact (createPuzzle_only_clears oneHoleEngine (fun _ => 0) H1 H2).
Defined.


Section Interface.

Lemma isComplete_reports (g : Grid) :
  wf g →
  isComplete g =
  (g, negb (existsb (isEmptyAt g) cells) &&
      (length (List.filter (clashesb g) cells) =? 0)).
Proof.
  intros Hwf. unfold isComplete.
  destruct (existsb (isEmptyAt g) cells); [done|].
  rewrite validatePuzzle_reports by done. cbn zeta. cbn [isValid negb andb].
  by rewrite length_map.
Qed.

Lemma isComplete_no_clash (g : Grid) (row col : nat) :
  wf g → row < 9 → col < 9 → (isComplete g).2 = true → clashesb g (row, col) = false.
Proof.
  intros Hwf Hr Hc. rewrite isComplete_reports by done. cbn [snd].
  intros [_ Hlen%Nat.eqb_eq]%andb_true_iff.
  destruct (clashesb g (row, col)) eqn:E; [|done].
  assert (In (row, col) (List.filter (clashesb g) cells)) as Hin
    by (apply filter_In; split; [by apply in_cells|done]).
  destruct (List.filter (clashesb g) cells); [done|discriminate].
Qed.

Lemma find_reported (g : Grid) (row col : nat) :
  row < 9 → col < 9 →
  match List.find (fun err => (err_row err =? row) && (err_col err =? col))
                  (map (errorAt g) (List.filter (clashesb g) cells)) with
  | Some _ => clashesb g (row, col) = true
  | None => clashesb g (row, col) = false
  end.
Proof.
  intros Hr Hc.
  destruct (List.find _ _) as [[r c v]|] eqn:E.
  - apply find_some in E as [Hin Hrc]. cbn [err_row err_col] in Hrc.
    apply andb_true_iff in Hrc as [->%Nat.eqb_eq ->%Nat.eqb_eq].
    apply reported_iff in Hin as (_ & _ & _ & Hcl). by apply clashesb_spec.
  - destruct (clashesb g (row, col)) eqn:Hcl; [|done].
    pose proof (find_none _ _ E (errorAt g (row, col))) as Hnone.
    unfold errorAt in Hnone. cbn [fst snd err_row err_col] in Hnone.
    rewrite !Nat.eqb_refl in Hnone. cbn [andb] in Hnone.
    assert (true = false) by (apply Hnone; apply reported_iff;
      split_and!; try done; by apply clashesb_spec). done.
Qed.

(** The state after [placeNumber] on a selected cell that is not given. *)
Lemma placeNumber_state (ui : SudokuUI.UI) (number : Z) (row col : nat) :
  wf (grid (SudokuUI.engine ui)) → SudokuUI.selectedCell ui = Some (row, col) →
  row < 9 → col < 9 → isGivenCell (SudokuUI.engine ui) row col = false →
  let e := SudokuUI.engine ui in
  let g' := set (grid e) row col number in
  let ui' := SudokuUI.placeNumber number ui in
  SudokuUI.engine ui' = mkEngine g' (solution e) (initialGrid e) (difficulty e) ∧
  SudokuUI.selectedCell ui' = SudokuUI.selectedCell ui ∧
  SudokuUI.selectedNumber ui' = SudokuUI.selectedNumber ui ∧
  SudokuUI.hintsUsed ui' = SudokuUI.hintsUsed ui ∧
  SudokuUI.errors ui' =
    SudokuUI.errors ui + (if negb (Z.eqb number 0) && clashesb g' (row, col) then 1 else 0) ∧
  SudokuUI.gameActive ui' =
    SudokuUI.gameActive ui && negb (negb (Z.eqb number 0) && (isComplete g').2).
Proof.
  intros Hwf Hsel Hr Hc Hgiven e g' ui'. subst ui'. unfold SudokuUI.placeNumber.
  rewrite Hsel, Hgiven.
  pose proof (wf_set (grid e) row col number Hwf) as Hwf'. fold e. fold g'.
  destruct (Z.eqb number 0) eqn:Hz; cbn [negb andb].
  - cbn. rewrite Nat.add_0_r, andb_true_r. done.
  - cbn [SudokuUI.engine SudokuUI.emit SudokuUI.setGrid grid].
    rewrite validatePuzzle_reports by done. cbv zeta.
    cbn [SudokuUI.reported errors].
    pose proof (find_reported g' row col Hr Hc) as Hfind.
    destruct (List.find _ _) as [err|].
    + rewrite Hfind. cbn. split_and!; try done.
      destruct (isComplete g').2 eqn:Hcomp; [|by rewrite andb_true_r].
      apply (isComplete_no_clash g' row col Hwf' Hr Hc) in Hcomp. congruence.
    + rewrite Hfind. cbn [SudokuUI.engine SudokuUI.emit SudokuUI.setGrid grid].
      rewrite isComplete_reports by done. cbn [snd].
      destruct (negb (existsb (isEmptyAt g') cells) &&
                (length (List.filter (clashesb g') cells) =? 0)); cbn.
      * rewrite Nat.add_0_r, andb_false_r. done.
      * rewrite Nat.add_0_r, andb_true_r. done.
Qed.

End Interface.


Section Highlights.

Lemma highlightCell_log (row col : nat) (ui : SudokuUI.UI) (p : nat * nat) :
  SudokuUI.fields (SudokuUI.highlightCell row col ui p) = SudokuUI.fields ui ∧
  SudokuUI.log (SudokuUI.highlightCell row col ui p) =
  SudokuUI.log ui ++ SudokuUI.highlightsOf row col p.
Proof.
  destruct p as [i j]. unfold SudokuUI.highlightCell, SudokuUI.highlightsOf.
  cbn [fst snd]. cbv zeta.
  destruct ((i =? row) && negb (j =? col)), ((j =? col) && negb (i =? row)),
    ((row / 3 =? i / 3) && (col / 3 =? j / 3) && (negb (i =? row) || negb (j =? col)));
    cbn [SudokuUI.emit SudokuUI.log SudokuUI.fields SudokuUI.engine
         SudokuUI.selectedCell SudokuUI.selectedNumber SudokuUI.gameActive
         SudokuUI.errors SudokuUI.hintsUsed];
    rewrite <- ?app_assoc, ?app_nil_r; done.
Qed.

Lemma highlightRelatedCells_log (row col : nat) (ui : SudokuUI.UI) :
  SudokuUI.fields (SudokuUI.highlightRelatedCells row col ui) = SudokuUI.fields ui ∧
  SudokuUI.log (SudokuUI.highlightRelatedCells row col ui) =
  SudokuUI.log ui ++ flat_map (SudokuUI.highlightsOf row col) cells.
Proof.
  unfold SudokuUI.highlightRelatedCells. generalize cells. intros l. revert ui.
  induction l as [|p l IH]; intros ui; cbn [foldl flat_map].
  - by rewrite app_nil_r.
  - destruct (highlightCell_log row col ui p) as [Hf Hl].
    destruct (IH (SudokuUI.highlightCell row col ui p)) as [Hf' Hl'].
    rewrite Hf', Hl', Hf, Hl, app_assoc. done.
Qed.

End Highlights.

(** X16. [highlightRelatedCells] marks the cells that [isValidMove] looks
    at: it changes no field of the interface, it only adds highlight
    classes, and a cell of the page gets one exactly when it is another
    cell of the row, the column or the box of the selected cell; the class
    says which of the three. *)
Theorem highlightRelatedCells_peers (row col : nat) (ui : SudokuUI.UI) :
  ∃ added,
    SudokuUI.fields (SudokuUI.highlightRelatedCells row col ui) = SudokuUI.fields ui ∧
    SudokuUI.log (SudokuUI.highlightRelatedCells row col ui) = SudokuUI.log ui ++ added ∧
    (∀ ef, In ef added → ∃ i j cls, ef = SudokuUI.AddClass i j cls) ∧
    (∀ i j cls, In (SudokuUI.AddClass i j cls) added ↔
       i < 9 ∧ j < 9 ∧ (i, j) ≠ (row, col) ∧
       ((cls = "highlight-row"%string ∧ i = row) ∨
        (cls = "highlight-col"%string ∧ j = col) ∨
        (cls = "highlight-box"%string ∧ i / 3 = row / 3 ∧ j / 3 = col / 3))) ∧
    (∀ i j, (∃ cls, In (SudokuUI.AddClass i j cls) added) ↔
       i < 9 ∧ j < 9 ∧ (i, j) ≠ (row, col) ∧ peer row col i j = true).
Proof.
  destruct (highlightRelatedCells_log row col ui) as [Hf Hl].
  exists (flat_map (SudokuUI.highlightsOf row col) cells).
  assert (∀ i j cls,
            In (SudokuUI.AddClass i j cls) (flat_map (SudokuUI.highlightsOf row col) cells) ↔
            i < 9 ∧ j < 9 ∧ (i, j) ≠ (row, col) ∧
            ((cls = "highlight-row"%string ∧ i = row) ∨
             (cls = "highlight-col"%string ∧ j = col) ∨
             (cls = "highlight-box"%string ∧ i / 3 = row / 3 ∧ j / 3 = col / 3))) as Hin.
  { intros i j cls. rewrite in_flat_map. split.
    - intros ([i' j'] & [Hi Hj]%in_cells & Hef).
      unfold SudokuUI.highlightsOf in Hef. cbn [fst snd] in Hef.
      destruct (Nat.eqb_spec i' row), (Nat.eqb_spec j' col),
        (Nat.eqb_spec (row / 3) (i' / 3)), (Nat.eqb_spec (col / 3) (j' / 3));
        cbn in Hef; destruct_or?; try done;
        match goal with H : SudokuUI.AddClass _ _ _ = _ |- _ => injection H as <- <- <- end;
        (split_and!; [done|done|congruence|]); auto 10.
    - intros (Hi & Hj & Hne & Hcls). exists (i, j). split; [by apply in_cells|].
      unfold SudokuUI.highlightsOf. cbn [fst snd]. rewrite !in_app_iff.
      destruct Hcls as [[-> ->]|[[-> ->]|(-> & Hbi & Hbj)]].
      + left. rewrite Nat.eqb_refl.
        destruct (Nat.eqb_spec j col); [congruence|]. by left.
      + right. left. rewrite Nat.eqb_refl.
        destruct (Nat.eqb_spec i row); [congruence|]. by left.
      + right. right. rewrite Hbi, Hbj, !Nat.eqb_refl.
        destruct (Nat.eqb_spec i row), (Nat.eqb_spec j col); try congruence; by left. }
  split_and!; [done|done| |done|].
  - intros ef ([i j] & _ & Hef)%in_flat_map.
    unfold SudokuUI.highlightsOf in Hef. rewrite !in_app_iff in Hef.
    destruct Hef as [Hef|[Hef|Hef]];
      match type of Hef with In _ (if ?b then _ else _) => destruct b end;
      try done; destruct Hef as [<-|[]]; eauto.
  - intros i j. split.
    + intros [cls (Hi & Hj & Hne & Hcls)%Hin]. split_and!; try done.
      unfold peer. destruct Hcls as [[_ ->]|[[_ ->]|(_ & -> & ->)]];
        rewrite !Nat.eqb_refl; by rewrite ?orb_true_r.
    + intros (Hi & Hj & Hne & Hpeer). unfold peer in Hpeer.
      apply orb_true_iff in Hpeer as [[->%Nat.eqb_eq| ->%Nat.eqb_eq]%orb_true_iff|
                                      [Hbi%Nat.eqb_eq Hbj%Nat.eqb_eq]%andb_true_iff].
      * exists "highlight-row"%string. apply Hin. auto 10.
      * exists "highlight-col"%string. apply Hin. auto 10.
      * exists "highlight-box"%string. apply Hin. split_and!; try done. auto 10.
Qed.


(** X17. [placeNumber] with a cell selected: the stored solution and the
    initial grid are never written; on a given cell nothing changes; on any
    other cell the number is written to that cell of the grid and to no
    other, the error counter goes up by one exactly when the number is not
    0 and some other cell of its row, column or box holds it, and a running
    game ends exactly when the number is not 0 and [isComplete] accepts the
    grid. *)
Theorem placeNumber_effect (ui : SudokuUI.UI) (number : Z) (row col : nat) :
  wf (grid (SudokuUI.engine ui)) → SudokuUI.selectedCell ui = Some (row, col) →
  row < 9 → col < 9 →
  let e := SudokuUI.engine ui in
  let g' := set (grid e) row col number in
  let ui' := SudokuUI.placeNumber number ui in
  solution (SudokuUI.engine ui') = solution e ∧
  initialGrid (SudokuUI.engine ui') = initialGrid e ∧
  (isGivenCell e row col = true → SudokuUI.fields ui' = SudokuUI.fields ui) ∧
  (isGivenCell e row col = false →
     grid (SudokuUI.engine ui') = g' ∧
     (∀ r c, (r, c) ≠ (row, col) →
             get (grid (SudokuUI.engine ui')) r c = get (grid e) r c) ∧
     (SudokuUI.errors ui' = SudokuUI.errors ui + 1 ↔ number ≠ 0%Z ∧ clashes g' row col) ∧
     (SudokuUI.errors ui' = SudokuUI.errors ui ↔ ¬ (number ≠ 0%Z ∧ clashes g' row col)) ∧
     (SudokuUI.gameActive ui' = true ↔
        SudokuUI.gameActive ui = true ∧ ¬ (number ≠ 0%Z ∧ (isComplete g').2 = true))).
Proof.
  intros Hwf Hsel Hr Hc e g' ui'.
  destruct (isGivenCell e row col) eqn:Hgiven.
  - subst ui'. unfold SudokuUI.placeNumber. rewrite Hsel. fold e. rewrite Hgiven.
    split_and!; done.
  - destruct (placeNumber_state ui number row col Hwf Hsel Hr Hc Hgiven)
      as (He & _ & _ & _ & Herr & Hact).
    fold e in He. fold g' in He, Herr, Hact. fold ui' in He, Herr, Hact.
    rewrite He. cbn [solution initialGrid grid]. split_and!; try done.
    intros _. rewrite Herr, Hact.
    assert (negb (number =? 0)%Z && clashesb g' (row, col) = true ↔
            number ≠ 0%Z ∧ clashes g' row col) as Hclash
      by (by rewrite andb_true_iff, negb_true_iff, Z.eqb_neq, clashesb_spec).
    split_and!.
    + done.
    + intros r c Hne. unfold g'. apply get_set_ne. congruence.
    + rewrite <- Hclash. destruct (negb _ && clashesb _ _); split; (done || lia).
    + rewrite <- Hclash. destruct (negb _ && clashesb _ _); split; (done || lia).
    + rewrite andb_true_iff, negb_true_iff, <- not_true_iff_false, andb_true_iff,
        negb_true_iff, Z.eqb_neq. done.
Qed.

Lemma placeNumber_effect_witness :
  wf (grid (SudokuUI.engine SudokuUI.sampleUI)) ∧
  SudokuUI.selectedCell SudokuUI.sampleUI = Some (0, 0) ∧ 0 < 9 ∧ 0 < 9 ∧
  (let e := SudokuUI.engine SudokuUI.sampleUI in
   let g' := set (grid e) 0 0 3 in
   let ui' := SudokuUI.placeNumber 3 SudokuUI.sampleUI in
   solution (SudokuUI.engine ui') = solution e ∧
   initialGrid (SudokuUI.engine ui') = initialGrid e ∧
   (isGivenCell e 0 0 = true → SudokuUI.fields ui' = SudokuUI.fields SudokuUI.sampleUI) ∧
   (isGivenCell e 0 0 = false →
      grid (SudokuUI.engine ui') = g' ∧
      (∀ r c, (r, c) ≠ (0, 0) →
              get (grid (SudokuUI.engine ui')) r c = get (grid e) r c) ∧
      (SudokuUI.errors ui' = SudokuUI.errors SudokuUI.sampleUI + 1 ↔
         3%Z ≠ 0%Z ∧ clashes g' 0 0) ∧
      (SudokuUI.errors ui' = SudokuUI.errors SudokuUI.sampleUI ↔
         ¬ (3%Z ≠ 0%Z ∧ clashes g' 0 0)) ∧
      (SudokuUI.gameActive ui' = true ↔
         SudokuUI.gameActive SudokuUI.sampleUI = true ∧
         ¬ (3%Z ≠ 0%Z ∧ (isComplete g').2 = true)))).
Proof.
  assert (wf (grid (SudokuUI.engine SudokuUI.sampleUI))) as H1
    by (apply wfb_wf; vm_compute; reflexivity).
  assert (SudokuUI.selectedCell SudokuUI.sampleUI = Some (0, 0)) as H2 by reflexivity.
  assert (0 < 9) as H3 by lia.
  split; [exact H1|]. split; [exact H2|]. split; [exact H3|]. split; [exact H3|].
  exact (placeNumber_effect SudokuUI.sampleUI 3 0 0 H1 H2 H3 H3).
Defined.


Section Play.

Lemma keeps_refl (ui : SudokuUI.UI) : SudokuUI.keeps ui ui.
Proof. unfold SudokuUI.keeps. split_and!; done. Qed.

Lemma keeps_trans (ui1 ui2 ui3 : SudokuUI.UI) :
  SudokuUI.keeps ui1 ui2 → SudokuUI.keeps ui2 ui3 → SudokuUI.keeps ui1 ui3.
Proof.
  intros (Hs & Hi & Hd & Hg & He & Hh & Ha) (Hs' & Hi' & Hd' & Hg' & He' & Hh' & Ha').
  unfold SudokuUI.keeps. split_and!; try congruence; try lia; [|auto].
  intros row col Hr Hc Hgiven. rewrite Hg', Hg; try done.
  unfold isGivenCell in *. by rewrite Hi.
Qed.

Lemma fields_keeps (ui ui' : SudokuUI.UI) :
  SudokuUI.engine ui' = SudokuUI.engine ui →
  SudokuUI.errors ui' = SudokuUI.errors ui →
  SudokuUI.hintsUsed ui' = SudokuUI.hintsUsed ui →
  SudokuUI.gameActive ui' = SudokuUI.gameActive ui →
  SudokuUI.keeps ui ui'.
Proof.
  intros He Herr Hh Ha. unfold SudokuUI.keeps. rewrite He, Herr, Hh, Ha.
  split_and!; done.
Qed.

Lemma fields_eq (ui ui' : SudokuUI.UI) :
  SudokuUI.fields ui' = SudokuUI.fields ui →
  SudokuUI.engine ui' = SudokuUI.engine ui ∧
  SudokuUI.selectedCell ui' = SudokuUI.selectedCell ui ∧
  SudokuUI.selectedNumber ui' = SudokuUI.selectedNumber ui ∧
  SudokuUI.gameActive ui' = SudokuUI.gameActive ui ∧
  SudokuUI.errors ui' = SudokuUI.errors ui ∧
  SudokuUI.hintsUsed ui' = SudokuUI.hintsUsed ui.
Proof. unfold SudokuUI.fields. intros [= -> -> -> -> -> ->]. done. Qed.

Lemma foldl_emit_fields {A} (f : A → SudokuUI.Effect) (l : list A) :
  ∀ u, SudokuUI.fields (foldl (fun u x => SudokuUI.emit (f x) u) u l) = SudokuUI.fields u.
Proof. induction l as [|x l IH]; intros u; [done|]. cbn [foldl]. by rewrite IH. Qed.

Lemma selectCell_fields (row col : nat) (ui : SudokuUI.UI) :
  SudokuUI.engine (SudokuUI.selectCell row col ui) = SudokuUI.engine ui ∧
  SudokuUI.selectedCell (SudokuUI.selectCell row col ui) = Some (row, col) ∧
  SudokuUI.selectedNumber (SudokuUI.selectCell row col ui) = SudokuUI.selectedNumber ui ∧
  SudokuUI.gameActive (SudokuUI.selectCell row col ui) = SudokuUI.gameActive ui ∧
  SudokuUI.errors (SudokuUI.selectCell row col ui) = SudokuUI.errors ui ∧
  SudokuUI.hintsUsed (SudokuUI.selectCell row col ui) = SudokuUI.hintsUsed ui.
Proof.
  unfold SudokuUI.selectCell. cbv zeta.
  match goal with |- context [SudokuUI.highlightRelatedCells row col ?u] =>
    pose proof (fields_eq _ _ (proj1 (highlightRelatedCells_log row col u))) as H
  end.
  exact H.
Qed.

Lemma selectCell_inPlay (row col : nat) (ui : SudokuUI.UI) :
  row < 9 → col < 9 → SudokuUI.inPlay ui →
  SudokuUI.inPlay (SudokuUI.selectCell row col ui) ∧
  SudokuUI.keeps ui (SudokuUI.selectCell row col ui) ∧
  SudokuUI.selectedCell (SudokuUI.selectCell row col ui) = Some (row, col).
Proof.
  intros Hr Hc (Hg & Hs & Hsel & Hig & His).
  destruct (selectCell_fields row col ui) as (He & Hsel' & Hnum & Hact & Herr & Hh).
  split; [|split; [by apply fields_keeps|done]].
  unfold SudokuUI.inPlay. rewrite He, Hsel'. split_and!; try done.
  by intros r c [= <- <-].
Qed.

Lemma placeNumber_inPlay (number : Z) (ui : SudokuUI.UI) :
  SudokuUI.inPlay ui →
  SudokuUI.inPlay (SudokuUI.placeNumber number ui) ∧
  SudokuUI.keeps ui (SudokuUI.placeNumber number ui).
Proof.
  intros Hplay. pose proof Hplay as (Hg & Hs & Hsel & Hig & His).
  destruct (SudokuUI.selectedCell ui) as [[row col]|] eqn:Esel.
  2:{ unfold SudokuUI.placeNumber. rewrite Esel. split; [done|apply keeps_refl]. }
  destruct (Hsel row col eq_refl) as [Hr Hc].
  destruct (isGivenCell (SudokuUI.engine ui) row col) eqn:Hgiven.
  - unfold SudokuUI.placeNumber. rewrite Esel, Hgiven. split; [done|].
    by apply fields_keeps.
  - destruct (placeNumber_state ui number row col Hg Esel Hr Hc Hgiven)
      as (He & Hsel' & _ & Hh & Herr & Hact). cbv zeta in He, Herr, Hact.
    assert (∀ r c, r < 9 → c < 9 → get (initialGrid (SudokuUI.engine ui)) r c ≠ 0%Z →
                   get (set (grid (SudokuUI.engine ui)) row col number) r c =
                   get (grid (SudokuUI.engine ui)) r c) as Hsame.
    { intros r c Hr' Hc' Hnz. apply get_set_ne. intros [= <- <-].
      unfold isGivenCell in Hgiven. apply negb_false_iff, Z.eqb_eq in Hgiven. done. }
    split.
    + unfold SudokuUI.inPlay. rewrite He, Hsel', Esel. cbn [grid solution initialGrid].
      split_and!; try done; try (by apply wf_set); try (by intros r c [= <- <-]).
      intros r c Hr' Hc' Hnz. rewrite Hsame by done. by apply Hig.
    + unfold SudokuUI.keeps. rewrite He, Hh, Herr, Hact.
      cbn [grid solution initialGrid difficulty]. split_and!; try done; try lia.
      * intros r c Hr' Hc' Hgiv. apply Hsame; [done..|].
        unfold isGivenCell in Hgiv. by apply negb_true_iff, Z.eqb_neq in Hgiv.
      * by intros ->.
Qed.

Lemma selectNumber_inPlay (number : Z) (ui : SudokuUI.UI) :
  SudokuUI.inPlay ui →
  SudokuUI.inPlay (SudokuUI.selectNumber number ui) ∧
  SudokuUI.keeps ui (SudokuUI.selectNumber number ui).
Proof. intros Hplay. split; [done|by apply fields_keeps]. Qed.

Lemma emit_inPlay (ef : SudokuUI.Effect) (ui0 ui : SudokuUI.UI) :
  SudokuUI.inPlay ui ∧ SudokuUI.keeps ui0 ui →
  SudokuUI.inPlay (SudokuUI.emit ef ui) ∧ SudokuUI.keeps ui0 (SudokuUI.emit ef ui).
Proof. done. Qed.

Lemma moveSelection_inPlay (direction : SudokuUI.Direction) (ui : SudokuUI.UI) :
  SudokuUI.inPlay ui →
  SudokuUI.inPlay (SudokuUI.moveSelection direction ui) ∧
  SudokuUI.keeps ui (SudokuUI.moveSelection direction ui).
Proof.
  intros Hplay. pose proof Hplay as (_ & _ & Hsel & _).
  unfold SudokuUI.moveSelection.
  destruct (SudokuUI.selectedCell ui) as [[row col]|]; [|split; [done|apply keeps_refl]].
  destruct (Hsel row col eq_refl) as [Hr Hc].
  destruct direction;
    match goal with |- context [SudokuUI.selectCell ?r ?c ui] =>
      destruct (selectCell_inPlay r c ui ltac:(lia) ltac:(lia) Hplay) as (H1 & H2 & _)
    end; done.
Qed.

(** The state after a hint in a running game. *)
Lemma showHint_state (ui : SudokuUI.UI) (h : Hint) :
  wf (grid (SudokuUI.engine ui)) → SudokuUI.gameActive ui = true →
  getHint (solution (SudokuUI.engine ui)) (grid (SudokuUI.engine ui)) = Some h →
  let e := SudokuUI.engine ui in
  let g' := set (grid e) (hint_row h) (hint_col h) (hint_value h) in
  let ui' := SudokuUI.showHint ui in
  SudokuUI.engine ui' = mkEngine g' (solution e) (initialGrid e) (difficulty e) ∧
  SudokuUI.selectedCell ui' = SudokuUI.selectedCell ui ∧
  SudokuUI.selectedNumber ui' = SudokuUI.selectedNumber ui ∧
  SudokuUI.errors ui' = SudokuUI.errors ui ∧
  SudokuUI.hintsUsed ui' = SudokuUI.hintsUsed ui + 1 ∧
  SudokuUI.gameActive ui' = negb (isComplete g').2.
Proof.
  intros Hwf Hact Hhint e g' ui'. subst ui'. unfold SudokuUI.showHint.
  rewrite Hact, Hhint. cbn [negb]. cbv zeta.
  cbn [SudokuUI.engine SudokuUI.emit SudokuUI.setGrid grid]. fold e. fold g'.
  rewrite isComplete_reports by (by apply wf_set). cbn [snd].
  destruct (negb (existsb (isEmptyAt g') cells) &&
            (length (List.filter (clashesb g') cells) =? 0)); cbn; rewrite ?Hact; done.
Qed.

Lemma showHint_inPlay (ui : SudokuUI.UI) :
  SudokuUI.inPlay ui →
  SudokuUI.inPlay (SudokuUI.showHint ui) ∧ SudokuUI.keeps ui (SudokuUI.showHint ui).
Proof.
  intros Hplay. pose proof Hplay as (Hg & Hs & Hsel & Hig & His).
  destruct (SudokuUI.gameActive ui) eqn:Hact.
  2:{ unfold SudokuUI.showHint. rewrite Hact. split; [done|apply keeps_refl]. }
  destruct (getHint (solution (SudokuUI.engine ui)) (grid (SudokuUI.engine ui)))
    as [h|] eqn:Hhint.
  2:{ unfold SudokuUI.showHint. rewrite Hact, Hhint. split; [done|by apply fields_keeps]. }
  destruct (showHint_state ui h Hg Hact Hhint) as (He & Hsel' & _ & Herr & Hh & Hact').
  cbv zeta in He, Hact'.
  destruct (getHint_Some _ _ h Hhint) as (Hval & l1 & l2 & Hsplit & _).
  assert (In (hint_row h, hint_col h) (emptyCellsOf (grid (SudokuUI.engine ui)))) as Hin
    by (rewrite Hsplit; apply in_or_app; right; by left).
  apply emptyCellsOf_In in Hin as (Hr & Hc & Hz).
  assert (∀ r c, r < 9 → c < 9 → get (initialGrid (SudokuUI.engine ui)) r c ≠ 0%Z →
                 get (set (grid (SudokuUI.engine ui)) (hint_row h) (hint_col h)
                          (hint_value h)) r c =
                 get (grid (SudokuUI.engine ui)) r c) as Hsame.
  { intros r c Hr' Hc' Hnz. apply get_set_ne. intros [= <- <-].
    specialize (Hig _ _ Hr Hc Hnz). congruence. }
  split.
  - unfold SudokuUI.inPlay. rewrite He, Hsel'. cbn [grid solution initialGrid].
    split_and!; try done; [by apply wf_set|].
    intros r c Hr' Hc' Hnz. rewrite Hsame by done. by apply Hig.
  - unfold SudokuUI.keeps. rewrite He, Hh, Herr.
    cbn [grid solution initialGrid difficulty]. split_and!; try done; try lia.
    + intros r c Hr' Hc' Hgiv. apply Hsame; [done..|].
      unfold isGivenCell in Hgiv. by apply negb_true_iff, Z.eqb_neq in Hgiv.
    + congruence.
Qed.

(** The state after [checkSolution] in a running game. *)
Lemma checkSolution_state (ui : SudokuUI.UI) :
  wf (grid (SudokuUI.engine ui)) → SudokuUI.gameActive ui = true →
  let e := SudokuUI.engine ui in
  let ui' := SudokuUI.checkSolution ui in
  SudokuUI.engine ui' = mkEngine (grid e) (solution e) (initialGrid e) (difficulty e) ∧
  SudokuUI.selectedCell ui' = SudokuUI.selectedCell ui ∧
  SudokuUI.selectedNumber ui' = SudokuUI.selectedNumber ui ∧
  SudokuUI.errors ui' =
    SudokuUI.errors ui + length (List.filter (clashesb (grid e)) cells) ∧
  SudokuUI.hintsUsed ui' = SudokuUI.hintsUsed ui ∧
  SudokuUI.gameActive ui' = negb (isComplete (grid e)).2.
Proof.
  intros Hwf Hact e ui'. subst ui'. unfold SudokuUI.checkSolution.
  rewrite Hact. cbn [negb]. fold e.
  rewrite validatePuzzle_reports by done. cbv zeta. cbn [isValid].
  rewrite length_map.
  destruct (length (List.filter (clashesb (grid e)) cells) =? 0) eqn:Hlen.
  - cbn [SudokuUI.engine SudokuUI.setGrid grid].
    rewrite isComplete_reports by done. cbn [snd]. rewrite Hlen, andb_true_r.
    apply Nat.eqb_eq in Hlen. rewrite Hlen, Nat.add_0_r.
    destruct (negb (existsb (isEmptyAt (grid e)) cells)); cbn; by rewrite ?Hact.
  - rewrite isComplete_reports by done. cbn [snd]. rewrite Hlen, andb_false_r.
    cbn [negb SudokuUI.reported errors]. rewrite length_map.
    set (errs := map (errorAt (grid e)) (List.filter (clashesb (grid e)) cells)).
    match goal with |- context [foldl _ ?u errs] =>
      destruct (fields_eq _ _
                  (foldl_emit_fields
                     (fun err => SudokuUI.ShowCellError (err_row err) (err_col err)) errs u))
        as (H1 & H2 & H3 & H4 & H5 & H6)
    end.
    cbn [SudokuUI.emit SudokuUI.engine SudokuUI.selectedCell SudokuUI.selectedNumber
         SudokuUI.gameActive SudokuUI.errors SudokuUI.hintsUsed SudokuUI.setGrid] in *.
    rewrite H1, H2, H3, H4, H5, H6. by rewrite Hact.
Qed.

Lemma checkSolution_inPlay (ui : SudokuUI.UI) :
  SudokuUI.inPlay ui →
  SudokuUI.inPlay (SudokuUI.checkSolution ui) ∧
  SudokuUI.keeps ui (SudokuUI.checkSolution ui).
Proof.
  intros Hplay. pose proof Hplay as (Hg & Hs & Hsel & Hig & His).
  destruct (SudokuUI.gameActive ui) eqn:Hact.
  2:{ unfold SudokuUI.checkSolution. rewrite Hact. split; [done|apply keeps_refl]. }
  destruct (checkSolution_state ui Hg Hact) as (He & Hsel' & _ & Herr & Hh & Hact').
  cbv zeta in He, Herr, Hact'. split.
  - unfold SudokuUI.inPlay. rewrite He, Hsel'. done.
  - unfold SudokuUI.keeps. rewrite He, Hh, Herr.
    cbn [grid solution initialGrid difficulty]. split_and!; try done; try lia.
    congruence.
Qed.

End Play.


Section Reveal.

Lemma copy_cells (s : Grid) (l : list (nat * nat)) :
  ∀ g, wf g → (∀ p, In p l → In p cells) →
  let g' := foldl (fun g p => set g p.1 p.2 (get s p.1 p.2)) g l in
  wf g' ∧
  ∀ r c, (In (r, c) l → get g' r c = get s r c) ∧
         (¬ In (r, c) l → get g' r c = get g r c).
Proof.
  induction l as [|[i j] l IH]; intros g Hwf Hl; cbn [foldl fst snd].
  - split; [done|]. intros r c. split; [intros H; destruct H|done].
  - pose proof (Hl (i, j) ltac:(by left)) as [Hi Hj]%in_cells.
    destruct (IH (set g i j (get s i j)) (wf_set _ _ _ _ Hwf)
                 (fun p Hp => Hl p (or_intror Hp))) as [Hwf' Hget].
    split; [done|]. intros r c. destruct (Hget r c) as [Hin Hout].
    destruct (decide ((r, c) ∈ l)) as [Hl'|Hl']; rewrite list_elem_of_In in Hl'.
    + split; [by intros _; apply Hin|]. intros Hn. exfalso. apply Hn. by right.
    + rewrite (Hout Hl'). split.
      * intros [[= -> ->]|H]; [by rewrite get_set_eq|done].
      * intros Hn. apply get_set_ne. intros [= -> ->]. apply Hn. by left.
Qed.

Lemma copy_solution (g s : Grid) :
  wf g → wf s → foldl (fun g p => set g p.1 p.2 (get s p.1 p.2)) g cells = s.
Proof.
  intros Hg Hs. destruct (copy_cells s cells g Hg (fun p Hp => Hp)) as [Hwf Hget].
  apply grid_ext; [done..|]. intros r c Hr Hc.
  apply Hget. by apply in_cells.
Qed.

(** The state after [solvePuzzle] of the interface in a running game. *)
Lemma solvePuzzle_state (ui : SudokuUI.UI) (rnd : Rand) :
  wf (grid (SudokuUI.engine ui)) → wf (solution (SudokuUI.engine ui)) →
  SudokuUI.gameActive ui = true →
  let e := SudokuUI.engine ui in
  let ui' := (SudokuUI.solvePuzzle ui rnd).1 in
  SudokuUI.engine ui' = mkEngine (solution e) (solution e) (initialGrid e) (difficulty e) ∧
  SudokuUI.selectedCell ui' = SudokuUI.selectedCell ui ∧
  SudokuUI.selectedNumber ui' = SudokuUI.selectedNumber ui ∧
  SudokuUI.errors ui' = SudokuUI.errors ui ∧
  SudokuUI.hintsUsed ui' = SudokuUI.hintsUsed ui ∧
  SudokuUI.gameActive ui' = false ∧
  ∃ shuffledCells,
    shuffledCells ≡ₚ List.filter (fun p => negb (isGivenCell e p.1 p.2)) cells ∧
    SudokuUI.log ui' =
    SudokuUI.log ui ++
    imap (fun index cell => SudokuUI.RevealLater (index * 100) cell.1 cell.2) shuffledCells ++
    [SudokuUI.StopTimer; SudokuUI.ShowModal "Puzzle Solved!"].
Proof.
  intros Hg Hs Hact e ui'. subst ui'. unfold SudokuUI.solvePuzzle.
  rewrite Hact. cbn [negb]. fold e. rewrite copy_solution by done.
  unfold SudokuUI.animateSolution.
  cbn [SudokuUI.engine SudokuUI.setGrid SudokuUI.selectedCell SudokuUI.selectedNumber
       SudokuUI.gameActive SudokuUI.errors SudokuUI.hintsUsed SudokuUI.log]. fold e.
  change (isGivenCell (mkEngine (solution e) (solution e) (initialGrid e) (difficulty e)))
    with (isGivenCell e).
  set (emptyCells := List.filter (fun p => negb (isGivenCell e p.1 p.2)) cells).
  assert ((shuffleArray emptyCells rnd).1 ≡ₚ emptyCells) as Hperm
    by apply shuffleFrom_Permutation.
  destruct (shuffleArray emptyCells rnd) as [shuffledCells rnd1]. cbn [fst] in Hperm.
  cbn [SudokuUI.emit SudokuUI.engine SudokuUI.selectedCell SudokuUI.selectedNumber
       SudokuUI.gameActive SudokuUI.errors SudokuUI.hintsUsed SudokuUI.log fst].
  split_and!; try reflexivity. exists shuffledCells. split; [exact Hperm|].
  rewrite <- !app_assoc. reflexivity.
Qed.

Lemma solvePuzzle_inPlay (ui : SudokuUI.UI) (rnd : Rand) :
  SudokuUI.inPlay ui →
  SudokuUI.inPlay (SudokuUI.solvePuzzle ui rnd).1 ∧
  SudokuUI.keeps ui (SudokuUI.solvePuzzle ui rnd).1.
Proof.
  intros Hplay. pose proof Hplay as (Hg & Hs & Hsel & Hig & His).
  destruct (SudokuUI.gameActive ui) eqn:Hact.
  2:{ unfold SudokuUI.solvePuzzle. rewrite Hact. split; [done|apply keeps_refl]. }
  destruct (solvePuzzle_state ui rnd Hg Hs Hact) as (He & Hsel' & _ & Herr & Hh & Hact' & _).
  cbv zeta in He. split.
  - unfold SudokuUI.inPlay. rewrite He, Hsel'. done.
  - unfold SudokuUI.keeps. rewrite He, Hh, Herr, Hact'.
    cbn [grid solution initialGrid difficulty]. split_and!; try done.
    intros r c Hr Hc Hgiv. unfold isGivenCell in Hgiv.
    apply negb_true_iff, Z.eqb_neq in Hgiv.
    rewrite (His r c Hr Hc Hgiv). symmetry. by apply Hig.
Qed.

Lemma handleCellClick_inPlay (row col : nat) (ui : SudokuUI.UI) :
  row < 9 → col < 9 → SudokuUI.inPlay ui →
  SudokuUI.inPlay (SudokuUI.handleCellClick row col ui) ∧
  SudokuUI.keeps ui (SudokuUI.handleCellClick row col ui).
Proof.
  intros Hr Hc Hplay. unfold SudokuUI.handleCellClick.
  destruct (isGivenCell (SudokuUI.engine ui) row col).
  - split; [done|by apply fields_keeps].
  - destruct (selectCell_inPlay row col ui Hr Hc Hplay) as (H1 & H2 & _).
    by apply emit_inPlay.
Qed.

Lemma handleCellRightClick_inPlay (row col : nat) (ui : SudokuUI.UI) :
  row < 9 → col < 9 → SudokuUI.inPlay ui →
  SudokuUI.inPlay (SudokuUI.handleCellRightClick row col ui) ∧
  SudokuUI.keeps ui (SudokuUI.handleCellRightClick row col ui).
Proof.
  intros Hr Hc Hplay. unfold SudokuUI.handleCellRightClick.
  destruct (isGivenCell (SudokuUI.engine ui) row col).
  - split; [done|apply keeps_refl].
  - destruct (selectCell_inPlay row col ui Hr Hc Hplay) as (H1 & H2 & _).
    destruct (placeNumber_inPlay 0 _ H1) as [H3 H4].
    apply emit_inPlay. split; [done|]. by eapply keeps_trans.
Qed.

Lemma handleNumberClick_inPlay (number : Z) (ui : SudokuUI.UI) :
  SudokuUI.inPlay ui →
  SudokuUI.inPlay (SudokuUI.handleNumberClick number ui) ∧
  SudokuUI.keeps ui (SudokuUI.handleNumberClick number ui).
Proof.
  intros Hplay. unfold SudokuUI.handleNumberClick. cbv zeta.
  destruct (selectNumber_inPlay number ui Hplay) as [H1 H2].
  apply emit_inPlay.
  destruct (SudokuUI.selectedCell (SudokuUI.selectNumber number ui)); [|done].
  destruct (placeNumber_inPlay number _ H1) as [H3 H4].
  split; [done|]. by eapply keeps_trans.
Qed.

Lemma handleKeyPress_inPlay (key : SudokuUI.Key) (ui : SudokuUI.UI) :
  SudokuUI.inPlay ui →
  SudokuUI.inPlay (SudokuUI.handleKeyPress key ui) ∧
  SudokuUI.keeps ui (SudokuUI.handleKeyPress key ui).
Proof.
  intros Hplay. unfold SudokuUI.handleKeyPress.
  destruct (SudokuUI.selectedCell ui); [|split; [done|apply keeps_refl]].
  destruct key as [number| |direction|].
  - destruct (selectNumber_inPlay number ui Hplay) as [H1 H2].
    destruct (placeNumber_inPlay number _ H1) as [H3 H4].
    split; [done|]. by eapply keeps_trans.
  - destruct (selectNumber_inPlay 0 ui Hplay) as [H1 H2].
    destruct (placeNumber_inPlay 0 _ H1) as [H3 H4].
    split; [done|]. by eapply keeps_trans.
  - by apply moveSelection_inPlay.
  - split; [done|apply keeps_refl].
Qed.

Lemma act_inPlay (a : SudokuUI.Action) (ui : SudokuUI.UI) (rnd : Rand) :
  SudokuUI.onPage a → SudokuUI.inPlay ui →
  SudokuUI.inPlay (SudokuUI.act (ui, rnd) a).1 ∧
  SudokuUI.keeps ui (SudokuUI.act (ui, rnd) a).1.
Proof.
  intros Hpage Hplay. destruct a; cbn [SudokuUI.act fst].
  - destruct Hpage. by apply handleCellClick_inPlay.
  - destruct Hpage. by apply handleCellRightClick_inPlay.
  - by apply handleNumberClick_inPlay.
  - by apply handleKeyPress_inPlay.
  - by apply showHint_inPlay.
  - by apply checkSolution_inPlay.
  - by apply solvePuzzle_inPlay.
Qed.

Lemma play_inPlay (actions : list SudokuUI.Action) :
  ∀ ui rnd, Forall SudokuUI.onPage actions → SudokuUI.inPlay ui →
  SudokuUI.inPlay (foldl SudokuUI.act (ui, rnd) actions).1 ∧
  SudokuUI.keeps ui (foldl SudokuUI.act (ui, rnd) actions).1.
Proof.
  induction actions as [|a actions IH]; intros ui rnd Hall Hplay; cbn [foldl].
  - split; [done|apply keeps_refl].
  - apply Forall_cons in Hall as [Ha Hall].
    destruct (act_inPlay a ui rnd Ha Hplay) as [H1 H2].
    destruct (SudokuUI.act (ui, rnd) a) as [ui1 rnd1]. cbn [fst] in H1, H2.
    destruct (IH ui1 rnd1 Hall H1) as [H3 H4].
    split; [done|]. by eapply keeps_trans.
Qed.

End Reveal.

(** X18. Whatever the player does in a running game (clicks and right
    clicks on cells of the page, number buttons, keys, the hint, check and
    solve buttons, in any order and number), the game stays in play: the
    given cells hold in the grid what they held before, the stored solution,
    the initial grid and the difficulty are not written, the selected cell
    stays on the page, the error and hint counters never go down, and a
    game that is over is not set running again. *)
Theorem given_cells_protected (actions : list SudokuUI.Action)
    (ui : SudokuUI.UI) (rnd : Rand) :
  SudokuUI.inPlay ui → Forall SudokuUI.onPage actions →
  let ui' := (foldl SudokuUI.act (ui, rnd) actions).1 in
  SudokuUI.inPlay ui' ∧
  solution (SudokuUI.engine ui') = solution (SudokuUI.engine ui) ∧
  initialGrid (SudokuUI.engine ui') = initialGrid (SudokuUI.engine ui) ∧
  difficulty (SudokuUI.engine ui') = difficulty (SudokuUI.engine ui) ∧
  (∀ row col, row < 9 → col < 9 → isGivenCell (SudokuUI.engine ui) row col = true →
     get (grid (SudokuUI.engine ui')) row col = get (grid (SudokuUI.engine ui)) row col) ∧
  (∀ row col, SudokuUI.selectedCell ui' = Some (row, col) → row < 9 ∧ col < 9) ∧
  SudokuUI.errors ui ≤ SudokuUI.errors ui' ∧
  SudokuUI.hintsUsed ui ≤ SudokuUI.hintsUsed ui' ∧
  (SudokuUI.gameActive ui = false → SudokuUI.gameActive ui' = false).
Proof.
  intros Hplay Hall ui'.
  destruct (play_inPlay actions ui rnd Hall Hplay)
    as [Hplay' (Hs & Hi & Hd & Hg & He & Hh & Ha)].
  fold ui' in Hplay', Hs, Hi, Hd, Hg, He, Hh, Ha.
  pose proof Hplay' as (_ & _ & Hsel & _). split_and!; done.
Qed.

Lemma given_cells_protected_witness :
  SudokuUI.inPlay SudokuUI.sampleUI ∧
  Forall SudokuUI.onPage
    [SudokuUI.KeyPress (SudokuUI.ArrowKey SudokuUI.ArrowRight);
     SudokuUI.NumberClick 7; SudokuUI.CellClick 0 0; SudokuUI.HintClick] ∧
  (let ui' := (foldl SudokuUI.act (SudokuUI.sampleUI, fun _ => 0)
                 [SudokuUI.KeyPress (SudokuUI.ArrowKey SudokuUI.ArrowRight);
                  SudokuUI.NumberClick 7; SudokuUI.CellClick 0 0; SudokuUI.HintClick]).1 in
   SudokuUI.inPlay ui' ∧
   solution (SudokuUI.engine ui') = solution (SudokuUI.engine SudokuUI.sampleUI) ∧
   initialGrid (SudokuUI.engine ui') = initialGrid (SudokuUI.engine SudokuUI.sampleUI) ∧
   difficulty (SudokuUI.engine ui') = difficulty (SudokuUI.engine SudokuUI.sampleUI) ∧
   (∀ row col, row < 9 → col < 9 →
      isGivenCell (SudokuUI.engine SudokuUI.sampleUI) row col = true →
      get (grid (SudokuUI.engine ui')) row col =
      get (grid (SudokuUI.engine SudokuUI.sampleUI)) row col) ∧
   (∀ row col, SudokuUI.selectedCell ui' = Some (row, col) → row < 9 ∧ col < 9) ∧
   SudokuUI.errors SudokuUI.sampleUI ≤ SudokuUI.errors ui' ∧
   SudokuUI.hintsUsed SudokuUI.sampleUI ≤ SudokuUI.hintsUsed ui' ∧
   (SudokuUI.gameActive SudokuUI.sampleUI = false → SudokuUI.gameActive ui' = false)).
Proof.
  assert (SudokuUI.inPlay SudokuUI.sampleUI) as H1.
  { unfold SudokuUI.inPlay. split; [apply wfb_wf; vm_compute; reflexivity|].
    split; [apply wfb_wf; vm_compute; reflexivity|].
    split; [intros row col [= <- <-]; lia|].
    split; apply extendsb_spec; vm_compute; reflexivity. }
  assert (Forall SudokuUI.onPage
            [SudokuUI.KeyPress (SudokuUI.ArrowKey SudokuUI.ArrowRight);
             SudokuUI.NumberClick 7; SudokuUI.CellClick 0 0; SudokuUI.HintClick]) as H2.
  { repeat constructor; simpl; lia. }
  split; [exact H1|]. split; [exact H2|].
  exact (given_cells_protected _ SudokuUI.sampleUI (fun _ => 0) H1 H2).
Defined.


Section HintRuns.

Lemma existsb_filter_length {A} (f : A → bool) (l : list A) :
  existsb f l = negb (length (List.filter f l) =? 0).
Proof.
  induction l as [|x l IH]; [done|]. cbn [existsb List.filter].
  destruct (f x); [done|]. by rewrite IH.
Qed.

(** On a grid that agrees with the complete solution, [isComplete] holds
    exactly when no cell is empty, and then the grid is the solution. *)
Lemma isComplete_on_track (sol g : Grid) :
  wf g → completeGrid sol → extends g sol →
  (isComplete g).2 = (countEmpty g =? 0) ∧ (countEmpty g = 0 → g = sol).
Proof.
  intros Hwf Hsol Hext.
  assert (countEmpty g = 0 → g = sol) as Hfull.
  { intros Hz. pose proof Hsol as [Hwfs _].
    apply grid_ext; [done..|]. intros r c Hr Hc. symmetry. apply Hext; [done..|].
    assert (existsb (isEmptyAt g) cells = false) as Hex
      by (rewrite existsb_filter_length; unfold countEmpty in Hz; by rewrite Hz).
    by apply (proj1 (existsb_isEmptyAt g) Hex). }
  split; [|done].
  destruct (countEmpty g =? 0) eqn:E.
  - apply Nat.eqb_eq in E. rewrite (Hfull E).
    by rewrite (proj2 (completeGrid_validates sol Hsol)).
  - unfold isComplete. rewrite existsb_filter_length. unfold countEmpty in E.
    by rewrite E.
Qed.

Lemma hint_step (sol g : Grid) (h : Hint) :
  wf g → completeGrid sol → extends g sol → getHint sol g = Some h →
  let g' := set g (hint_row h) (hint_col h) (hint_value h) in
  wf g' ∧ extends g' sol ∧ S (countEmpty g') = countEmpty g.
Proof.
  intros Hwf Hsol Hext Hhint g'. subst g'.
  destruct (getHint_Some sol g h Hhint) as (Hval & l1 & l2 & Hsplit & _).
  assert (In (hint_row h, hint_col h) (emptyCellsOf g)) as Hin
    by (rewrite Hsplit; apply in_or_app; right; by left).
  apply emptyCellsOf_In in Hin as (Hr & Hc & Hz).
  destruct (solution_value_valid sol g _ _ Hsol Hext Hr Hc Hz) as [_ Hdig].
  rewrite Hval. split_and!.
  - by apply wf_set.
  - intros r c Hr' Hc' Hnz.
    destruct (decide ((hint_row h, hint_col h) = (r, c))) as [[= <- <-]|Hne].
    + by rewrite get_set_eq.
    + rewrite get_set_ne in Hnz |- * by done. by apply Hext.
  - apply countEmpty_set; [done..|]. unfold isDigit in Hdig. lia.
Qed.

Lemma hint_run (sol : Grid) (k : nat) :
  ∀ ui, wf (grid (SudokuUI.engine ui)) → solution (SudokuUI.engine ui) = sol →
  completeGrid sol → extends (grid (SudokuUI.engine ui)) sol →
  SudokuUI.gameActive ui = true → k ≤ countEmpty (grid (SudokuUI.engine ui)) →
  0 < countEmpty (grid (SudokuUI.engine ui)) →
  let ui' := Nat.iter k SudokuUI.showHint ui in
  wf (grid (SudokuUI.engine ui')) ∧
  solution (SudokuUI.engine ui') = sol ∧
  initialGrid (SudokuUI.engine ui') = initialGrid (SudokuUI.engine ui) ∧
  extends (grid (SudokuUI.engine ui')) sol ∧
  extends (grid (SudokuUI.engine ui)) (grid (SudokuUI.engine ui')) ∧
  countEmpty (grid (SudokuUI.engine ui')) + k = countEmpty (grid (SudokuUI.engine ui)) ∧
  SudokuUI.hintsUsed ui' = SudokuUI.hintsUsed ui + k ∧
  SudokuUI.errors ui' = SudokuUI.errors ui ∧
  SudokuUI.gameActive ui' = (k <? countEmpty (grid (SudokuUI.engine ui))).
Proof.
  induction k as [|k IH]; intros ui Hwf Hs Hsol Hext Hact Hk Hpos ui'; subst ui'.
  - change (Nat.iter 0 SudokuUI.showHint ui) with ui.
    split_and!; try done; try lia; try apply extends_refl.
    rewrite Hact. symmetry. by apply Nat.ltb_lt.
  - rewrite Nat.iter_succ.
    destruct (IH ui Hwf Hs Hsol Hext Hact ltac:(lia) Hpos)
      as (Hwf' & Hs' & Hi' & Hext' & Hfrom & Hcnt & Hh & He & Hact').
    set (uk := Nat.iter k SudokuUI.showHint ui) in *.
    rewrite (proj2 (Nat.ltb_lt _ _)) in Hact' by lia.
    destruct (getHint (solution (SudokuUI.engine uk)) (grid (SudokuUI.engine uk)))
      as [h|] eqn:Hhint.
    2:{ apply getHint_None in Hhint.
        assert (countEmpty (grid (SudokuUI.engine uk)) = 0) as E0
          by (change (length (emptyCellsOf (grid (SudokuUI.engine uk))) = 0);
              rewrite Hhint; reflexivity).
        lia. }
    destruct (showHint_state uk h Hwf' Hact' Hhint)
      as (He1 & _ & _ & Herr1 & Hh1 & Hact1). cbv zeta in He1, Hact1.
    rewrite Hs' in Hhint.
    destruct (hint_step sol _ h Hwf' Hsol Hext' Hhint) as (Hwf1 & Hext1 & Hcnt1).
    destruct (isComplete_on_track sol _ Hwf1 Hsol Hext1) as [Hcomp _].
    rewrite He1, Herr1, Hh1, Hact1, Hcomp. cbn [grid solution initialGrid].
    split_and!; try done; try lia.
    { intros r c Hr Hc Hnz. pose proof (Hfrom r c Hr Hc Hnz) as Hsame.
      rewrite get_set_ne; [done|]. intros [= <- <-].
      destruct (getHint_Some _ _ h Hhint) as (_ & l1 & l2 & Hsplit & _).
      assert (In (hint_row h, hint_col h) (emptyCellsOf (grid (SudokuUI.engine uk)))) as Hin
        by (rewrite Hsplit; apply in_or_app; right; by left).
      apply emptyCellsOf_In in Hin as (_ & _ & Hz). congruence. }
    destruct (Nat.eqb_spec (countEmpty (set (grid (SudokuUI.engine uk)) (hint_row h)
                              (hint_col h) (hint_value h))) 0) as [E|E]; cbn [negb];
      symmetry; [apply Nat.ltb_ge|apply Nat.ltb_lt]; lia.
Qed.

End HintRuns.

(** X19. The hint button finishes a puzzle: in a running game whose grid
    agrees with the complete stored solution and has n > 0 empty cells,
    pressing the hint button k ≤ n times fills k cells with their solution
    values and counts k hints and no error; the game is still running
    after fewer than n hints, and after n hints the grid is the solution
    and the game is over. *)
Theorem showHint_finishes (ui : SudokuUI.UI) (k : nat) :
  wf (grid (SudokuUI.engine ui)) → completeGrid (solution (SudokuUI.engine ui)) →
  extends (grid (SudokuUI.engine ui)) (solution (SudokuUI.engine ui)) →
  SudokuUI.gameActive ui = true →
  0 < countEmpty (grid (SudokuUI.engine ui)) →
  k ≤ countEmpty (grid (SudokuUI.engine ui)) →
  let ui' := Nat.iter k SudokuUI.showHint ui in
  solution (SudokuUI.engine ui') = solution (SudokuUI.engine ui) ∧
  initialGrid (SudokuUI.engine ui') = initialGrid (SudokuUI.engine ui) ∧
  extends (grid (SudokuUI.engine ui)) (grid (SudokuUI.engine ui')) ∧
  extends (grid (SudokuUI.engine ui')) (solution (SudokuUI.engine ui)) ∧
  countEmpty (grid (SudokuUI.engine ui')) + k = countEmpty (grid (SudokuUI.engine ui)) ∧
  SudokuUI.hintsUsed ui' = SudokuUI.hintsUsed ui + k ∧
  SudokuUI.errors ui' = SudokuUI.errors ui ∧
  (SudokuUI.gameActive ui' = true ↔ k < countEmpty (grid (SudokuUI.engine ui))) ∧
  (k = countEmpty (grid (SudokuUI.engine ui)) →
   grid (SudokuUI.engine ui') = solution (SudokuUI.engine ui)).
Proof.
  intros Hwf Hsol Hext Hact Hpos Hk ui'.
  destruct (hint_run _ k ui Hwf eq_refl Hsol Hext Hact Hk Hpos)
    as (Hwf' & Hs' & Hi' & Hext' & Hfrom & Hcnt & Hh & He & Hact').
  fold ui' in Hwf', Hs', Hi', Hext', Hfrom, Hcnt, Hh, He, Hact'.
  split_and!; try done.
  - rewrite Hact'. apply Nat.ltb_lt.
  - intros ->.
    apply (isComplete_on_track (solution (SudokuUI.engine ui))); [done..|lia].
Qed.

Lemma showHint_finishes_witness :
  wf (grid (SudokuUI.engine SudokuUI.sampleUI)) ∧
  completeGrid (solution (SudokuUI.engine SudokuUI.sampleUI)) ∧
  extends (grid (SudokuUI.engine SudokuUI.sampleUI))
          (solution (SudokuUI.engine SudokuUI.sampleUI)) ∧
  SudokuUI.gameActive SudokuUI.sampleUI = true ∧
  0 < countEmpty (grid (SudokuUI.engine SudokuUI.sampleUI)) ∧
  1 ≤ countEmpty (grid (SudokuUI.engine SudokuUI.sampleUI)) ∧
  (let ui' := Nat.iter 1 SudokuUI.showHint SudokuUI.sampleUI in
   solution (SudokuUI.engine ui') = solution (SudokuUI.engine SudokuUI.sampleUI) ∧
   initialGrid (SudokuUI.engine ui') = initialGrid (SudokuUI.engine SudokuUI.sampleUI) ∧
   extends (grid (SudokuUI.engine SudokuUI.sampleUI)) (grid (SudokuUI.engine ui')) ∧
   extends (grid (SudokuUI.engine ui')) (solution (SudokuUI.engine SudokuUI.sampleUI)) ∧
   countEmpty (grid (SudokuUI.engine ui')) + 1 =
     countEmpty (grid (SudokuUI.engine SudokuUI.sampleUI)) ∧
   SudokuUI.hintsUsed ui' = SudokuUI.hintsUsed SudokuUI.sampleUI + 1 ∧
   SudokuUI.errors ui' = SudokuUI.errors SudokuUI.sampleUI ∧
   (SudokuUI.gameActive ui' = true ↔
      1 < countEmpty (grid (SudokuUI.engine SudokuUI.sampleUI))) ∧
   (1 = countEmpty (grid (SudokuUI.engine SudokuUI.sampleUI)) →
    grid (SudokuUI.engine ui') = solution (SudokuUI.engine SudokuUI.sampleUI))).
Proof.
  assert (wf (grid (SudokuUI.engine SudokuUI.sampleUI))) as H1
    by (apply wfb_wf; vm_compute; reflexivity).
  assert (completeGrid (solution (SudokuUI.engine SudokuUI.sampleUI))) as H2
    by (apply completeGridb_spec; vm_compute; reflexivity).
  assert (extends (grid (SudokuUI.engine SudokuUI.sampleUI))
                  (solution (SudokuUI.engine SudokuUI.sampleUI))) as H3
    by (apply extendsb_spec; vm_compute; reflexivity).
  assert (SudokuUI.gameActive SudokuUI.sampleUI = true) as H4 by reflexivity.
  assert (0 < countEmpty (grid (SudokuUI.engine SudokuUI.sampleUI))) as H5
    by (vm_compute; lia).
  assert (1 ≤ countEmpty (grid (SudokuUI.engine SudokuUI.sampleUI))) as H6
    by (vm_compute; lia).
  split; [exact H1|]. split; [exact H2|]. split; [exact H3|]. split; [exact H4|].
  split; [exact H5|]. split; [exact H6|].
  exact (showHint_finishes SudokuUI.sampleUI 1 H1 H2 H3 H4 H5 H6).
Defined.


(** X20. The solve button in a running game: the grid becomes the stored
    solution, the game is over, the counters, the solution and the initial
    grid stay as they are, and the reveal animation is scheduled for the
    cells that are not given, each of them once, in a shuffled order, 100 ms
    apart, followed by the stop of the timer and the dialog. *)
Theorem solvePuzzle_reveals (ui : SudokuUI.UI) (rnd : Rand) :
  wf (grid (SudokuUI.engine ui)) → wf (solution (SudokuUI.engine ui)) →
  SudokuUI.gameActive ui = true →
  let e := SudokuUI.engine ui in
  let ui' := (SudokuUI.solvePuzzle ui rnd).1 in
  grid (SudokuUI.engine ui') = solution e ∧
  solution (SudokuUI.engine ui') = solution e ∧
  initialGrid (SudokuUI.engine ui') = initialGrid e ∧
  SudokuUI.errors ui' = SudokuUI.errors ui ∧
  SudokuUI.hintsUsed ui' = SudokuUI.hintsUsed ui ∧
  SudokuUI.gameActive ui' = false ∧
  ∃ shuffledCells,
    SudokuUI.log ui' =
      SudokuUI.log ui ++
      imap (fun index cell => SudokuUI.RevealLater (index * 100) cell.1 cell.2)
           shuffledCells ++
      [SudokuUI.StopTimer; SudokuUI.ShowModal "Puzzle Solved!"] ∧
    List.NoDup shuffledCells ∧
    length shuffledCells = countEmpty (initialGrid e) ∧
    ∀ row col, In (row, col) shuffledCells ↔
               row < 9 ∧ col < 9 ∧ isGivenCell e row col = false.
Proof.
  intros Hg Hs Hact e ui'.
  destruct (solvePuzzle_state ui rnd Hg Hs Hact)
    as (He & _ & _ & Herr & Hh & Hact' & shuffledCells & Hperm & Hlog).
  fold e in He, Hperm. fold ui' in He, Herr, Hh, Hact', Hlog.
  rewrite He. cbn [grid solution initialGrid]. split_and!; try done.
  exists shuffledCells. split; [done|].
  assert (∀ p, negb (isGivenCell e p.1 p.2) = isEmptyAt (initialGrid e) p) as Hsame.
  { intros p. unfold isGivenCell, isEmptyAt. by rewrite negb_involutive. }
  assert (List.filter (fun p => negb (isGivenCell e p.1 p.2)) cells =
          List.filter (isEmptyAt (initialGrid e)) cells) as Hfilter.
  { apply filter_ext. intros p. apply Hsame. }
  split_and!.
  - apply NoDup_ListNoDup. rewrite Hperm. apply NoDup_ListNoDup.
    apply List.NoDup_filter, cells_NoDup.
  - rewrite Hperm, Hfilter. reflexivity.
  - intros row col. rewrite <- list_elem_of_In, Hperm, list_elem_of_In, filter_In, in_cells.
    cbn [fst snd]. rewrite negb_true_iff. tauto.
Qed.

Lemma solvePuzzle_reveals_witness :
  wf (grid (SudokuUI.engine SudokuUI.sampleUI)) ∧
  wf (solution (SudokuUI.engine SudokuUI.sampleUI)) ∧
  SudokuUI.gameActive SudokuUI.sampleUI = true ∧
  (let e := SudokuUI.engine SudokuUI.sampleUI in
   let ui' := (SudokuUI.solvePuzzle SudokuUI.sampleUI (fun _ => 0)).1 in
   grid (SudokuUI.engine ui') = solution e ∧
   solution (SudokuUI.engine ui') = solution e ∧
   initialGrid (SudokuUI.engine ui') = initialGrid e ∧
   SudokuUI.errors ui' = SudokuUI.errors SudokuUI.sampleUI ∧
   SudokuUI.hintsUsed ui' = SudokuUI.hintsUsed SudokuUI.sampleUI ∧
   SudokuUI.gameActive ui' = false ∧
   ∃ shuffledCells,
     SudokuUI.log ui' =
       SudokuUI.log SudokuUI.sampleUI ++
       imap (fun index cell => SudokuUI.RevealLater (index * 100) cell.1 cell.2)
            shuffledCells ++
       [SudokuUI.StopTimer; SudokuUI.ShowModal "Puzzle Solved!"] ∧
     List.NoDup shuffledCells ∧
     length shuffledCells = countEmpty (initialGrid e) ∧
     ∀ row col, In (row, col) shuffledCells ↔
                row < 9 ∧ col < 9 ∧ isGivenCell e row col = false).
Proof.
  assert (wf (grid (SudokuUI.engine SudokuUI.sampleUI))) as H1
    by (apply wfb_wf; vm_compute; reflexivity).
  assert (wf (solution (SudokuUI.engine SudokuUI.sampleUI))) as H2
    by (apply wfb_wf; vm_compute; reflexivity).
  assert (SudokuUI.gameActive SudokuUI.sampleUI = true) as H3 by reflexivity.
  split; [exact H1|]. split; [exact H2|]. split; [exact H3|].
  exact (solvePuzzle_reveals SudokuUI.sampleUI (fun _ => 0) H1 H2 H3).
Defined.

(** X21. The check button in a running game leaves the grid as it is and
    adds to the error counter the number of cells whose value is also held
    by another cell of their row, column or box; as these come at least in
    pairs, the counter never goes up by exactly one. The game ends exactly
    when [isComplete] accepts the grid. When no game is running, the button
    does nothing. *)
Theorem checkSolution_counts (ui : SudokuUI.UI) :
  wf (grid (SudokuUI.engine ui)) →
  let e := SudokuUI.engine ui in
  let ui' := SudokuUI.checkSolution ui in
  (SudokuUI.gameActive ui = false → ui' = ui) ∧
  (SudokuUI.gameActive ui = true →
     grid (SudokuUI.engine ui') = grid e ∧
     solution (SudokuUI.engine ui') = solution e ∧
     initialGrid (SudokuUI.engine ui') = initialGrid e ∧
     SudokuUI.hintsUsed ui' = SudokuUI.hintsUsed ui ∧
     SudokuUI.errors ui' =
       SudokuUI.errors ui + length (List.filter (clashesb (grid e)) cells) ∧
     SudokuUI.errors ui' ≠ SudokuUI.errors ui + 1 ∧
     (SudokuUI.errors ui' = SudokuUI.errors ui ↔
        ∀ row col, row < 9 → col < 9 → ¬ clashes (grid e) row col) ∧
     (SudokuUI.gameActive ui' = false ↔ (isComplete (grid e)).2 = true)).
Proof.
  intros Hwf e ui'. split.
  - intros Hact. subst ui'. unfold SudokuUI.checkSolution. by rewrite Hact.
  - intros Hact.
    destruct (checkSolution_state ui Hwf Hact) as (He & _ & _ & Herr & Hh & Hact').
    fold e in He, Herr, Hact'. fold ui' in He, Herr, Hh, Hact'.
    rewrite He, Herr, Hact'. cbn [grid solution initialGrid].
    split_and!; try done.
    + intros Hone.
      assert (length (map (errorAt (grid e)) (List.filter (clashesb (grid e)) cells)) = 1)
        as Hlen by (rewrite length_map; lia).
      destruct (map _ _) as [|[row col v] [|x l]] eqn:E; try discriminate Hlen.
      assert (In (mkCellError row col v)
                 (map (errorAt (grid e)) (List.filter (clashesb (grid e)) cells))) as Hin
        by (rewrite E; by left).
      apply reported_iff in Hin as (Hr & Hc & -> & Hnz & r & c & Hr' & Hc' & Hne & Hpeer & Hv).
      assert (In (mkCellError r c (get (grid e) r c))
                 (map (errorAt (grid e)) (List.filter (clashesb (grid e)) cells))) as Hin'.
      { apply reported_iff. split_and!; try done. split; [congruence|].
        exists row, col. split_and!; try done; try congruence. by rewrite peer_sym. }
      rewrite E in Hin'. destruct Hin' as [[= <- <-]|[]]. done.
    + split.
      * intros Hlen row col Hr Hc Hcl%clashesb_spec.
        assert (In (row, col) (List.filter (clashesb (grid e)) cells)) as Hin
          by (apply filter_In; split; [by apply in_cells|done]).
        destruct (List.filter (clashesb (grid e)) cells); [done|simpl in Hlen; lia].
      * intros Hnone.
        destruct (List.filter (clashesb (grid e)) cells) as [|[row col] l] eqn:E;
          [simpl; lia|].
        assert (In (row, col) (List.filter (clashesb (grid e)) cells)) as Hin
          by (rewrite E; by left).
        apply filter_In in Hin as [[Hr Hc]%in_cells Hcl%clashesb_spec].
        by destruct (Hnone row col Hr Hc).
    + by rewrite negb_false_iff.
Qed.

Lemma checkSolution_counts_witness :
  wf (grid (SudokuUI.engine SudokuUI.sampleUI)) ∧
  (let e := SudokuUI.engine SudokuUI.sampleUI in
   let ui' := SudokuUI.checkSolution SudokuUI.sampleUI in
   (SudokuUI.gameActive SudokuUI.sampleUI = false → ui' = SudokuUI.sampleUI) ∧
   (SudokuUI.gameActive SudokuUI.sampleUI = true →
      grid (SudokuUI.engine ui') = grid e ∧
      solution (SudokuUI.engine ui') = solution e ∧
      initialGrid (SudokuUI.engine ui') = initialGrid e ∧
      SudokuUI.hintsUsed ui' = SudokuUI.hintsUsed SudokuUI.sampleUI ∧
      SudokuUI.errors ui' =
        SudokuUI.errors SudokuUI.sampleUI + length (List.filter (clashesb (grid e)) cells) ∧
      SudokuUI.errors ui' ≠ SudokuUI.errors SudokuUI.sampleUI + 1 ∧
      (SudokuUI.errors ui' = SudokuUI.errors SudokuUI.sampleUI ↔
         ∀ row col, row < 9 → col < 9 → ¬ clashes (grid e) row col) ∧
      (SudokuUI.gameActive ui' = false ↔ (isComplete (grid e)).2 = true))).
Proof.
  assert (wf (grid (SudokuUI.engine SudokuUI.sampleUI))) as H1
    by (apply wfb_wf; vm_compute; reflexivity).
  split; [exact H1|]. exact (checkSolution_counts SudokuUI.sampleUI H1).
Defined.


Section NewGame.

Lemma foldl_emit_log {A} (f : A → SudokuUI.Effect) (l : list A) :
  ∀ u, SudokuUI.log (foldl (fun u x => SudokuUI.emit (f x) u) u l) =
       SudokuUI.log u ++ map f l.
Proof.
  induction l as [|x l IH]; intros u; cbn [foldl map]; [by rewrite app_nil_r|].
  rewrite IH. cbn [SudokuUI.emit SudokuUI.log]. by rewrite <- app_assoc.
Qed.

Lemma displayGrid_state (g : Grid) (ui : SudokuUI.UI) :
  SudokuUI.fields (SudokuUI.displayGrid g ui) = SudokuUI.fields ui ∧
  SudokuUI.log (SudokuUI.displayGrid g ui) =
  SudokuUI.log ui ++ map (fun p => SudokuUI.UpdateCell p.1 p.2 (get g p.1 p.2)) cells.
Proof.
  unfold SudokuUI.displayGrid. split.
  - apply (foldl_emit_fields (fun p => SudokuUI.UpdateCell p.1 p.2 (get g p.1 p.2))).
  - apply (foldl_emit_log (fun p => SudokuUI.UpdateCell p.1 p.2 (get g p.1 p.2))).
Qed.

(** [startNewGame] after a normal return of [generatePuzzle]. *)
Lemma startNewGame_returned (tag : string) (ui : SudokuUI.UI) (rnd : Rand)
    (e : Engine) (rnd1 : Rand) (puzzle : Puzzle) :
  generatePuzzle tag (SudokuUI.engine ui) rnd = Normal e rnd1 puzzle →
  ∃ ui', SudokuUI.startNewGame tag ui rnd = SudokuUI.Returned ui' rnd1 ∧
         SudokuUI.fields ui' = (e, None, None, true, 0, 0) ∧
         SudokuUI.log ui' =
         SudokuUI.log ui ++
         map (fun p => SudokuUI.UpdateCell p.1 p.2 (get (puzzle_grid puzzle) p.1 p.2)) cells ++
         [SudokuUI.ClearHighlights; SudokuUI.ClearNumberSelection; SudokuUI.StartTimer;
          SudokuUI.UpdateStats 0; SudokuUI.PlaySound "success"].
Proof.
  intros Hgen. unfold SudokuUI.startNewGame. rewrite Hgen. cbv zeta. clear Hgen.
  destruct (displayGrid_state (puzzle_grid puzzle)
              (SudokuUI.mkUI e None None true 0 0 (SudokuUI.log ui))) as [Hf Hl].
  apply fields_eq in Hf as (H1 & H2 & H3 & H4 & H5 & H6).
  remember (SudokuUI.displayGrid (puzzle_grid puzzle)
              (SudokuUI.mkUI e None None true 0 0 (SudokuUI.log ui))) as ud eqn:Hud.
  clear Hud.
  cbn [SudokuUI.engine SudokuUI.selectedCell SudokuUI.selectedNumber
       SudokuUI.gameActive SudokuUI.errors SudokuUI.hintsUsed SudokuUI.log] in H1, H2, H3, H4, H5, H6, Hl.
  eexists. split; [reflexivity|].
  unfold SudokuUI.fields.
  cbn [SudokuUI.emit SudokuUI.engine SudokuUI.selectedCell SudokuUI.selectedNumber
       SudokuUI.gameActive SudokuUI.errors SudokuUI.hintsUsed SudokuUI.log].
  rewrite H1, H2, H4, H5, H6, Hl, <- !app_assoc. split; reflexivity.
Qed.

End NewGame.

(** X22. A new game with one of the four difficulty tags always starts: the
    game is running with both counters at 0 and nothing selected, the grid
    shown cell by cell on the page is the engine's grid, its filled cells
    are exactly the given cells and agree with the complete stored
    solution, and the state is one the actions of a running game keep in
    play. *)
Theorem startNewGame_ready (tag : string) (ui : SudokuUI.UI) (rnd : Rand) :
  In tag knownTags →
  ∃ ui' rnd',
    SudokuUI.startNewGame tag ui rnd = SudokuUI.Returned ui' rnd' ∧
    SudokuUI.inPlay ui' ∧
    SudokuUI.gameActive ui' = true ∧ SudokuUI.errors ui' = 0 ∧
    SudokuUI.hintsUsed ui' = 0 ∧
    SudokuUI.selectedCell ui' = None ∧ SudokuUI.selectedNumber ui' = None ∧
    difficulty (SudokuUI.engine ui') = tag ∧
    initialGrid (SudokuUI.engine ui') = grid (SudokuUI.engine ui') ∧
    (∀ row col, isGivenCell (SudokuUI.engine ui') row col = true ↔
                get (grid (SudokuUI.engine ui')) row col ≠ 0%Z) ∧
    completeGrid (solution (SudokuUI.engine ui')) ∧
    extends (grid (SudokuUI.engine ui')) (solution (SudokuUI.engine ui')) ∧
    SudokuUI.log ui' =
      SudokuUI.log ui ++
      map (fun p => SudokuUI.UpdateCell p.1 p.2 (get (grid (SudokuUI.engine ui')) p.1 p.2))
          cells ++
      [SudokuUI.ClearHighlights; SudokuUI.ClearNumberSelection; SudokuUI.StartTimer;
       SudokuUI.UpdateStats 0; SudokuUI.PlaySound "success"].
Proof.
  intros Htag. destruct (knownTags_settings tag Htag) as (clues & Hset & _).
  destruct (generatePuzzle_run tag clues (SudokuUI.engine ui) rnd Hset)
    as (sol & rnd1 & g & rnd2 & attempts & removed & _ & Hsol & _ & Hgen & Hinv & _).
  destruct Hinv as (Hwf & Hext & _). cbn [r_grid] in Hwf, Hext.
  destruct (startNewGame_returned tag ui rnd _ _ _ Hgen) as (ui' & Hstart & Hf & Hlog).
  clear Hgen. exists ui', rnd2.
  assert (SudokuUI.fields ui' =
          SudokuUI.fields (SudokuUI.mkUI (mkEngine g sol g tag) None None true 0 0 []))
    as Hf' by exact Hf.
  apply fields_eq in Hf' as (He & Hsel & Hnum & Hact & Herr & Hh).
  cbn [SudokuUI.engine SudokuUI.selectedCell SudokuUI.selectedNumber
       SudokuUI.gameActive SudokuUI.errors SudokuUI.hintsUsed] in He, Hsel, Hnum, Hact, Herr, Hh.
  cbn [puzzle_grid] in Hlog.
  unfold SudokuUI.inPlay, isGivenCell. rewrite He, Hsel, Hnum, Hact, Herr, Hh, Hlog.
  cbn [grid solution initialGrid difficulty].
  pose proof Hsol as [Hwfs _].
  split_and!; try reflexivity; try assumption.
  - intros row col Hnone. discriminate Hnone.
  - apply extends_refl.
  - intros row col. by rewrite negb_true_iff, Z.eqb_neq.
Qed.

Lemma startNewGame_ready_witness :
  In "hard"%string knownTags ∧
  ∃ ui' rnd',
    SudokuUI.startNewGame "hard" SudokuUI.sampleUI (fun _ => 0) =
      SudokuUI.Returned ui' rnd' ∧
    SudokuUI.inPlay ui' ∧
    SudokuUI.gameActive ui' = true ∧ SudokuUI.errors ui' = 0 ∧
    SudokuUI.hintsUsed ui' = 0 ∧
    SudokuUI.selectedCell ui' = None ∧ SudokuUI.selectedNumber ui' = None ∧
    difficulty (SudokuUI.engine ui') = "hard"%string ∧
    initialGrid (SudokuUI.engine ui') = grid (SudokuUI.engine ui') ∧
    (∀ row col, isGivenCell (SudokuUI.engine ui') row col = true ↔
                get (grid (SudokuUI.engine ui')) row col ≠ 0%Z) ∧
    completeGrid (solution (SudokuUI.engine ui')) ∧
    extends (grid (SudokuUI.engine ui')) (solution (SudokuUI.engine ui')) ∧
    SudokuUI.log ui' =
      SudokuUI.log SudokuUI.sampleUI ++
      map (fun p => SudokuUI.UpdateCell p.1 p.2 (get (grid (SudokuUI.engine ui')) p.1 p.2))
          cells ++
      [SudokuUI.ClearHighlights; SudokuUI.ClearNumberSelection; SudokuUI.StartTimer;
       SudokuUI.UpdateStats 0; SudokuUI.PlaySound "success"].
Proof.
  assert (In "hard"%string knownTags) as H by (right; right; left; reflexivity).
  split; [exact H|].
  exact (startNewGame_ready "hard" SudokuUI.sampleUI (fun _ => 0) H).
Defined.



Section Cycle.

Lemma indexOf_difficulties (current : string) :
  let i := GameController.indexOf current GameController.difficulties 0 in
  (i = (-1)%Z ∧ ¬ In current knownTags) ∨
  ((0 ≤ i ≤ 3)%Z ∧ nth (Z.to_nat i) GameController.difficulties ""%string = current).
Proof.
  unfold GameController.difficulties. cbn [GameController.indexOf]. cbv zeta.
  destruct (String.eqb_spec "easy" current) as [<-|H1]; [right; by split|].
  destruct (String.eqb_spec "medium" current) as [<-|H2]; [right; by split|].
  destruct (String.eqb_spec "hard" current) as [<-|H3]; [right; by split|].
  destruct (String.eqb_spec "expert" current) as [<-|H4]; [right; by split|].
  left. split; [done|]. intros [?|[?|[?|[?|[]]]]]; congruence.
Qed.

Lemma nth_difficulties (i : Z) :
  (0 ≤ i ≤ 3)%Z → In (nth (Z.to_nat i) GameController.difficulties ""%string) knownTags.
Proof.
  intros Hi.
  assert (i = 0 ∨ i = 1 ∨ i = 2 ∨ i = 3)%Z as [-> | [-> | [-> | ->]]] by lia;
    cbn; auto 10.
Qed.

Lemma cycleDifficulty_index (direction : Z) (current : string) :
  ∃ newIndex,
    GameController.cycleDifficulty direction current =
      nth (Z.to_nat newIndex) GameController.difficulties ""%string ∧
    let i := (GameController.indexOf current GameController.difficulties 0 + direction)%Z in
    newIndex = (if (i <? 0)%Z then 3 else if (i >=? 4)%Z then 0 else i)%Z.
Proof.
  unfold GameController.cycleDifficulty. cbv zeta.
  change (Z.of_nat (length GameController.difficulties)) with 4%Z.
  set (i := (GameController.indexOf current GameController.difficulties 0 + direction)%Z).
  eexists. split; [reflexivity|].
  destruct (i <? 0)%Z eqn:E1; [reflexivity|].
  reflexivity.
Qed.

End Cycle.

(** X24. [cycleDifficulty] only ever selects one of the four difficulty
    tags, whatever the step and whatever the setting before (also one that
    is not a tag); from a tag, one step forward and one step back undo each
    other, four steps forward come back to it, and a step past either end
    wraps to the other end: forward from 'expert' gives 'easy', back from
    'easy' gives 'expert'. *)
Theorem cycleDifficulty_known (direction : Z) (current : string) :
  In (GameController.cycleDifficulty direction current) knownTags ∧
  (∃ clues, difficultySettings (GameController.cycleDifficulty direction current) =
            OwnSetting clues) ∧
  (In current knownTags →
     GameController.cycleDifficulty (-1) (GameController.cycleDifficulty 1 current) = current ∧
     GameController.cycleDifficulty 1 (GameController.cycleDifficulty (-1) current) = current ∧
     Nat.iter 4 (GameController.cycleDifficulty 1) current = current) ∧
  GameController.cycleDifficulty 1 "expert" = "easy"%string ∧
  GameController.cycleDifficulty (-1) "easy" = "expert"%string.
Proof.
  assert (In (GameController.cycleDifficulty direction current) knownTags) as Hin.
  { destruct (cycleDifficulty_index direction current) as (newIndex & -> & Hnew).
    cbv zeta in Hnew. destruct (indexOf_difficulties current) as [[Hi _]|[Hi _]];
      cbv zeta in Hi; apply nth_difficulties; subst newIndex;
      destruct (_ <? 0)%Z eqn:E1; try lia; destruct (_ >=? 4)%Z eqn:E2; lia. }
  split; [done|]. split.
  - destruct (knownTags_settings _ Hin) as (clues & Hset & _). by exists clues.
  - split; [|split; reflexivity].
    intros [<-|[<-|[<-|[<-|[]]]]]; split_and!; reflexivity.
Qed.

Lemma cycleDifficulty_known_witness :
  In (GameController.cycleDifficulty 1 "hard") knownTags ∧
  (∃ clues, difficultySettings (GameController.cycleDifficulty 1 "hard") =
            OwnSetting clues) ∧
  (In "hard"%string knownTags →
     GameController.cycleDifficulty (-1) (GameController.cycleDifficulty 1 "hard") =
       "hard"%string ∧
     GameController.cycleDifficulty 1 (GameController.cycleDifficulty (-1) "hard") =
       "hard"%string ∧
     Nat.iter 4 (GameController.cycleDifficulty 1) "hard"%string = "hard"%string) ∧
  GameController.cycleDifficulty 1 "expert" = "easy"%string ∧
  GameController.cycleDifficulty (-1) "easy" = "expert"%string.
Proof. exact (cycleDifficulty_known 1 "hard"). Defined.


Section Erase.

Lemma erase_selected (us : SudokuUI.UI) (row col : nat) :
  wf (grid (SudokuUI.engine us)) → SudokuUI.selectedCell us = Some (row, col) →
  row < 9 → col < 9 → isGivenCell (SudokuUI.engine us) row col = false →
  let e := SudokuUI.engine us in
  let ui' := SudokuUI.emit (SudokuUI.PlaySound "click") (SudokuUI.placeNumber 0 us) in
  SudokuUI.engine ui' =
    mkEngine (set (grid e) row col 0) (solution e) (initialGrid e) (difficulty e) ∧
  SudokuUI.selectedCell ui' = Some (row, col) ∧
  SudokuUI.errors ui' = SudokuUI.errors us ∧
  SudokuUI.hintsUsed ui' = SudokuUI.hintsUsed us ∧
  SudokuUI.gameActive ui' = SudokuUI.gameActive us.
Proof.
  intros Hwf Hsel Hr Hc Hgiven e ui'.
  destruct (placeNumber_state us 0 row col Hwf Hsel Hr Hc Hgiven)
    as (He1 & Hsel1 & _ & Hh1 & Herr1 & Hact1).
  cbv zeta in He1, Herr1, Hact1.
  cbn [negb andb Z.eqb] in Herr1, Hact1. rewrite Nat.add_0_r in Herr1.
  rewrite andb_true_r in Hact1. subst ui'.
  cbn [SudokuUI.emit SudokuUI.engine SudokuUI.selectedCell SudokuUI.selectedNumber
       SudokuUI.gameActive SudokuUI.errors SudokuUI.hintsUsed].
  rewrite He1, Hsel1, Hh1, Herr1, Hact1, Hsel. split_and!; reflexivity.
Qed.

End Erase.

(** X25. A right click on a cell of the page: on a given cell nothing
    happens at all; any other cell becomes the selected cell and is emptied,
    all other cells stay as they are, and the erasure is never counted as an
    error and never ends or restarts the game. *)
Theorem handleCellRightClick_erases (ui : SudokuUI.UI) (row col : nat) :
  wf (grid (SudokuUI.engine ui)) → row < 9 → col < 9 →
  let e := SudokuUI.engine ui in
  let ui' := SudokuUI.handleCellRightClick row col ui in
  (isGivenCell e row col = true → ui' = ui) ∧
  (isGivenCell e row col = false →
     grid (SudokuUI.engine ui') = set (grid e) row col 0 ∧
     get (grid (SudokuUI.engine ui')) row col = 0%Z ∧
     (∀ r c, (r, c) ≠ (row, col) →
             get (grid (SudokuUI.engine ui')) r c = get (grid e) r c) ∧
     solution (SudokuUI.engine ui') = solution e ∧
     initialGrid (SudokuUI.engine ui') = initialGrid e ∧
     SudokuUI.selectedCell ui' = Some (row, col) ∧
     SudokuUI.errors ui' = SudokuUI.errors ui ∧
     SudokuUI.hintsUsed ui' = SudokuUI.hintsUsed ui ∧
     SudokuUI.gameActive ui' = SudokuUI.gameActive ui).
Proof.
  intros Hwf Hr Hc e ui'. split; intros Hgiven.
  - subst ui'. unfold SudokuUI.handleCellRightClick. fold e. by rewrite Hgiven.
  - destruct (selectCell_fields row col ui) as (He & Hsel & Hnum & Hact & Herr & Hh).
    assert (ui' = SudokuUI.emit (SudokuUI.PlaySound "click")
                    (SudokuUI.placeNumber 0 (SudokuUI.selectCell row col ui))) as ->.
    { subst ui'. unfold SudokuUI.handleCellRightClick. fold e. by rewrite Hgiven. }
    destruct (erase_selected (SudokuUI.selectCell row col ui) row col) as
      (He1 & Hsel1 & Herr1 & Hh1 & Hact1); [by rewrite He|done|done|done|by rewrite He|].
    rewrite He in He1. fold e in He1.
    rewrite He1, Hsel1, Herr1, Hh1, Hact1, Herr, Hh, Hact.
    cbn [grid solution initialGrid].
    split_and!; try reflexivity.
    + by apply get_set_eq.
    + intros r c Hne. apply get_set_ne. congruence.
Qed.

Lemma handleCellRightClick_erases_witness :
  wf (grid (SudokuUI.engine SudokuUI.sampleUI)) ∧ 1 < 9 ∧ 2 < 9 ∧
  (let e := SudokuUI.engine SudokuUI.sampleUI in
   let ui' := SudokuUI.handleCellRightClick 1 2 SudokuUI.sampleUI in
   (isGivenCell e 1 2 = true → ui' = SudokuUI.sampleUI) ∧
   (isGivenCell e 1 2 = false →
      grid (SudokuUI.engine ui') = set (grid e) 1 2 0 ∧
      get (grid (SudokuUI.engine ui')) 1 2 = 0%Z ∧
      (∀ r c, (r, c) ≠ (1, 2) →
              get (grid (SudokuUI.engine ui')) r c = get (grid e) r c) ∧
      solution (SudokuUI.engine ui') = solution e ∧
      initialGrid (SudokuUI.engine ui') = initialGrid e ∧
      SudokuUI.selectedCell ui' = Some (1, 2) ∧
      SudokuUI.errors ui' = SudokuUI.errors SudokuUI.sampleUI ∧
      SudokuUI.hintsUsed ui' = SudokuUI.hintsUsed SudokuUI.sampleUI ∧
      SudokuUI.gameActive ui' = SudokuUI.gameActive SudokuUI.sampleUI)).
Proof.
  assert (wf (grid (SudokuUI.engine SudokuUI.sampleUI))) as H1
    by (apply wfb_wf; vm_compute; reflexivity).
  assert (1 < 9) as H2 by lia.
  assert (2 < 9) as H3 by lia.
  split; [exact H1|]. split; [exact H2|]. split; [exact H3|].
  exact (handleCellRightClick_erases SudokuUI.sampleUI 1 2 H1 H2 H3).
Defined.
